(** * Chemical reaction networks: mass-action and Michaelis-Menten kinetics

    A shallow embedding of [src/chemicalkinetics.py].  NumPy [float64]
    values are Rocq's primitive binary64 floats, 1-d arrays are lists of
    floats and 2-d arrays are lists of rows.  Python exceptions
    ([IndexError], [ValueError], ...) are the [None] of the option monad. *)

From Stdlib Require Import Floats ZArith Uint63 Lia Ascii String.
From stdpp Require Import gmap strings list.

Local Open Scope float_scope.

(** ** NumPy primitives *)

Module Np.

Abbreviation vec := (list float) (only parsing).
Abbreviation mat := (list (list float)) (only parsing).

(** [np.zeros(n)] *)
Definition zeros (n : nat) : vec := replicate n 0.

(** [a[idx]] for an integer index sequence: a gathered copy, [IndexError]
    when an index is out of range.  Indices come from [list.index], so they
    are never negative. *)
Definition take (a : vec) (idx : list nat) : option vec :=
  mapM (fun i => a !! i) idx.

(** [a[idx] = vals] for an integer index sequence: the assignments are done
    in index order, as NumPy does them for a 1-d array (its documentation
    promises no order), so that a repeated index keeps the value assigned
    last; in no order are the values added up.  Wherever the code assigns,
    [vals] has the length of [idx]; any other length is an error here
    (NumPy would still broadcast a single value). *)
Fixpoint put_seq (a : vec) (idx : list nat) (vals : vec) : option vec :=
  match idx, vals with
  | [], [] => Some a
  | i :: idx', v :: vals' =>
      if decide (i < length a) then put_seq (<[i := v]> a) idx' vals' else None
  | _, _ => None
  end.

Definition put (a : vec) (idx : list nat) (vals : vec) : option vec :=
  put_seq a idx vals.

(** [np.vstack(rows)]: the rows must be non-empty in number and agree in
    length. *)
Definition vstack (rows : list vec) : option mat :=
  match rows with
  | [] => None
  | r :: rs =>
      if forallb (fun r' => Nat.eqb (length r') (length r)) rs
      then Some rows else None
  end.

(** A ufunc reduction: the first element seeds a left-to-right fold; the
    identity [e] is the value on an empty axis. *)
Definition reduce {A} (f : A -> A -> A) (e : A) (l : list A) : A :=
  match l with
  | [] => e
  | x :: xs => fold_left f xs x
  end.

(** [m.sum(axis=0)] and [m.prod(axis=0)] of a stacked matrix. *)
Definition sum_axis0 (m : mat) : vec := reduce (zip_with PrimFloat.add) [] m.
Definition prod_axis0 (m : mat) : vec := reduce (zip_with PrimFloat.mul) [] m.

(** [m.prod(axis=1)] *)
Definition prod_axis1 (m : mat) : vec := reduce PrimFloat.mul 1 <$> m.

Definition square (a : vec) : vec := (fun x => x * x) <$> a.
Definition sqrt (a : vec) : vec := PrimFloat.sqrt <$> a.
Definition subtract (a b : vec) : vec := zip_with PrimFloat.sub a b.
Definition scale (a : vec) (k : float) : vec := (fun x => x * k) <$> a.
Definition divide_scalar (a : vec) (k : float) : vec := (fun x => x / k) <$> a.

(** An [int64] entry cast to [float64] when stacked with floats; the
    magnitude goes through a 63-bit integer. *)
Definition float_of_int (z : Z) : float :=
  if (z <? 0)%Z then - of_uint63 (Uint63.of_Z (- z)) else of_uint63 (Uint63.of_Z z).

(** [np.dot(m, v)] for a 2-d [m] and a 1-d [v].  The products of a row are
    summed left to right; a BLAS back end may associate the sum otherwise. *)
Definition inner (row v : vec) : float :=
  reduce PrimFloat.add 0 (zip_with PrimFloat.mul row v).

Definition dot_row (row v : vec) : option float :=
  if decide (length row = length v) then Some (inner row v) else None.

Definition dot (m : mat) (v : vec) : option vec :=
  mapM (fun row => dot_row row v) m.

(** [m.T] of a rectangular matrix with at least one row. *)
Definition column (m : mat) (j : nat) : vec := (fun row => nth j row 0) <$> m.

Definition transpose (m : mat) : mat :=
  match m with
  | [] => []
  | r :: _ => column m <$> seq 0 (length r)
  end.

(** [np.diag(rates)] *)
Definition diag (rates : vec) : mat :=
  imap (fun i r => <[i := r]> (zeros (length rates))) rates.

End Np.

(** ** Michaelis-Menten reaction set *)

Record MichaelisMentenReactions := {
  mm_reactions : list string;
  substrate_indices : list nat;
  substrate_stoichiometries : list Z;
  product_indices : list nat;
  product_stoichiometries : list Z;
  enzyme_indices : list nat;
  Km_names : list string;
  Kms : Np.vec;
  kcat_names : list string;
  kcats : Np.vec
}.

(** The local [_velocities] of [compute_velocities]. *)
Definition velocities (self : MichaelisMentenReactions) (concentrations : Np.vec)
  : option Np.vec :=
  substrate_vector ← Np.take concentrations self.(substrate_indices);
  enzyme_vector ← Np.take concentrations self.(enzyme_indices);
  m1 ← Np.vstack [substrate_vector; enzyme_vector; self.(Kms)];
  let term1 := Np.sum_axis0 m1 in
  let t1 := Np.square term1 in
  m2 ← Np.vstack [enzyme_vector; substrate_vector];
  let t2 := Np.scale (Np.prod_axis0 m2) 4 in
  let term2 := Np.sqrt (Np.subtract t1 t2) in
  m3 ← Np.vstack [Np.subtract term1 term2; Np.divide_scalar self.(kcats) 2];
  Some (Np.prod_axis0 m3).

Definition compute_velocities (self : MichaelisMentenReactions)
  (concentrations : Np.vec) : option Np.vec :=
  let substrate_velocities := Np.zeros (length concentrations) in
  let product_velocities := Np.zeros (length concentrations) in
  _velocities ← velocities self concentrations;
  m4 ← Np.vstack [_velocities; Np.float_of_int <$> self.(substrate_stoichiometries)];
  substrate_velocities ←
    Np.put substrate_velocities self.(substrate_indices)
      (Np.scale (Np.prod_axis0 m4) (-1));
  m5 ← Np.vstack [_velocities; Np.float_of_int <$> self.(product_stoichiometries)];
  product_velocities ←
    Np.put product_velocities self.(product_indices) (Np.prod_axis0 m5);
  m6 ← Np.vstack [substrate_velocities; product_velocities];
  Some (Np.sum_axis0 m6).

(** The quadratic Michaelis-Menten velocity of one reaction, in the order
    in which the code evaluates it. *)
Definition mm_discriminant (s e Km : float) : float :=
  let term1 := s + e + Km in term1 * term1 - e * s * 4.

Definition mm_velocity (s e Km kcat : float) : float :=
  let term1 := s + e + Km in
  let term2 := PrimFloat.sqrt (mm_discriminant s e Km) in
  (term1 - term2) * (kcat / 2).

(** ** Constructor arguments

    Both reaction-set constructors inspect the Python type of each
    argument: [None], a [list], or anything else (a tuple, an array, a
    scalar). *)

Inductive pyarg (T : Type) : Type :=
  | PyNone
  | PyList (l : list T)
  | PyOther.
Arguments PyNone {T}.
Arguments PyList {T} l.
Arguments PyOther {T}.

Inductive pytype := NoneType | ListType | OtherType.

Definition type_of {T} (a : pyarg T) : pytype :=
  match a with PyNone => NoneType | PyList _ => ListType | PyOther => OtherType end.

Definition pytype_eqb (a b : pytype) : bool :=
  match a, b with
  | NoneType, NoneType | ListType, ListType | OtherType, OtherType => true
  | _, _ => false
  end.

(** [set(types) == set([t])] for a non-empty [types] *)
Definition types_all (t : pytype) (types : list pytype) : bool :=
  forallb (pytype_eqb t) types.

(** What a constructor call leaves behind: a dummy whose attributes are all
    [None], a populated object, or an object on which no attribute was ever
    assigned (the [pass] branch). *)
Inductive instance (R : Type) : Type :=
  | Dummy
  | Populated (r : R)
  | Unset.
Arguments Dummy {R}.
Arguments Populated {R} r.
Arguments Unset {R}.

(** Python's star-[zip] of a list of pairs unpacked into two targets: the
    unpacking fails on an empty list. *)
Definition unzip2 {X Y} (pairs : list (X * Y)) : option (list X * list Y) :=
  match pairs with
  | [] => None
  | _ => Some (fst <$> pairs, snd <$> pairs)
  end.

Definition MichaelisMentenReactions_init
  (reactions : pyarg string) (substrates : pyarg (nat * Z))
  (enzymes : pyarg nat) (products : pyarg (nat * Z))
  (Kms0 kcats0 : pyarg (string * float))
  : option (instance MichaelisMentenReactions) :=
  let types := [type_of reactions; type_of substrates; type_of enzymes;
                type_of products; type_of Kms0; type_of kcats0] in
  if types_all NoneType types then Some Dummy
  else if types_all ListType types then
    match reactions, substrates, enzymes, products, Kms0, kcats0 with
    | PyList rs, PyList ss, PyList es, PyList ps, PyList kms, PyList kcs =>
        '(si, sst) ← unzip2 ss;
        '(pi, pst) ← unzip2 ps;
        '(kmn, kmv) ← unzip2 kms;
        '(kcn, kcv) ← unzip2 kcs;
        Some (Populated {|
          mm_reactions := rs;
          substrate_indices := si; substrate_stoichiometries := sst;
          product_indices := pi; product_stoichiometries := pst;
          enzyme_indices := es;
          Km_names := kmn; Kms := kmv;
          kcat_names := kcn; kcats := kcv |})
    | _, _, _, _, _, _ => Some Unset
    end
  else Some Unset.

(** ** Mass-action reaction set *)

Record MassActionReactions := {
  ma_reactions : list string;
  N : Np.mat;
  A : Np.mat;
  rate_names : list string;
  K : Np.mat
}.

Definition MassActionReactions_init
  (reactions : pyarg string) (A0 N0 : pyarg Np.vec)
  (rate_names0 : pyarg string) (rates : pyarg float)
  : option (instance MassActionReactions) :=
  let types := [type_of reactions; type_of A0; type_of N0;
                type_of rate_names0; type_of rates] in
  if types_all NoneType types then Some Dummy
  else if types_all ListType types then
    match reactions, A0, N0, rate_names0, rates with
    | PyList rs, PyList a, PyList n, PyList rn, PyList ks =>
        n' ← Np.vstack n;
        a' ← Np.vstack a;
        Some (Populated {|
          ma_reactions := rs; N := n'; A := a'; rate_names := rn;
          K := Np.diag ks |})
    | _, _, _, _, _ => Some Unset
    end
  else Some Unset.

Section MassAction.

(** [np.power] on scalars is the platform's [pow]; it is a parameter. *)
Variable power : float -> float -> float.

(** [np.power(c, a)] of a 1-d [c] against a 2-d [a], with NumPy's
    broadcasting of a length-1 axis. *)
Definition power_row (c row : Np.vec) : option Np.vec :=
  if decide (length c = length row) then Some (zip_with power c row)
  else match c, row with
       | [x], _ => Some (power x <$> row)
       | _, [y] => Some ((fun x => power x y) <$> c)
       | _, _ => None
       end.

Definition np_power (c : Np.vec) (a : Np.mat) : option Np.mat :=
  mapM (power_row c) a.

(** The body of [compute_mass_action_rates] when the set is populated. *)
Definition compute_mass_action_rates (self : MassActionReactions)
  (concentrations : Np.vec) : option Np.vec :=
  p ← np_power concentrations self.(A);
  w ← Np.dot self.(K) (Np.prod_axis1 p);
  Np.dot (Np.transpose self.(N)) w.

End MassAction.

(** ** Reaction network *)

(** The [token] strings ['rate_constant'], ['Km'], ['kcat'] and
    ['initial_concentration']. *)
Inductive token := T_rate_constant | T_Km | T_kcat | T_initial_concentration.

#[global] Instance token_eq_dec : EqDecision token.
Proof. solve_decision. Defined.

(** The closure built by [_make_update_function index token]. *)
Abbreviation update_function := (nat * token)%type (only parsing).

Record ChemicalReactionNetwork := {
  species : list string;
  mass_action_reactions : instance MassActionReactions;
  michaelis_menten_reactions : instance MichaelisMentenReactions;
  time : Np.vec;
  initial_concentrations : Np.vec;
  update_dictionary : gmap string update_function;
  concentrations : option Np.mat
}.

(** The zero vector or the computed rates, as [integrate] selects them from
    the type of the set's [reactions] attribute; reading the attribute of an
    object that never received it raises. *)
Definition contribution {R} (set : instance R) (n : nat)
  (compute : R -> option Np.vec) : option Np.vec :=
  match set with
  | Populated r => compute r
  | Dummy => Some (Np.zeros n)
  | Unset => None
  end.

Section Integrate.

Variable power : float -> float -> float.

(** The derivative function [ODEs] that [integrate] hands to the solver. *)
Definition ODEs (self : ChemicalReactionNetwork) (c : Np.vec) (t : float)
  : option Np.vec :=
  mm ← contribution self.(michaelis_menten_reactions) (length self.(species))
         (fun r => compute_velocities r c);
  ma ← contribution self.(mass_action_reactions) (length self.(species))
         (fun r => compute_mass_action_rates power r c);
  m ← Np.vstack [mm; ma];
  Some (Np.sum_axis0 m).

End Integrate.

(** [enumerate(l)] *)
Definition enumerate {X} (l : list X) : list (nat * X) := imap pair l.

Definition _make_update_function (index : nat) (tk : token) : update_function :=
  (index, tk).

(** Truthiness of a list *)
Definition truthy {X} (l : list X) : bool :=
  match l with [] => false | _ => true end.

Definition mass_action_update (ma : instance MassActionReactions)
  : option (gmap string update_function) :=
  match ma with
  | Populated r =>
      Some (if truthy r.(ma_reactions)
            then fold_left
                   (fun d '(rate_index, rate_name) =>
                      <[rate_name := _make_update_function rate_index T_rate_constant]> d)
                   (enumerate r.(rate_names)) ∅
            else ∅)
  | Dummy => Some ∅
  | Unset => None
  end.

Definition michaelis_menten_update (mm : instance MichaelisMentenReactions)
  : option (gmap string update_function) :=
  match mm with
  | Populated r =>
      Some (if truthy r.(mm_reactions)
            then fold_left
                   (fun d '(index, (Km_name, kcat_name)) =>
                      <[kcat_name := _make_update_function index T_kcat]>
                        (<[Km_name := _make_update_function index T_Km]> d))
                   (enumerate (zip r.(Km_names) r.(kcat_names))) ∅
            else ∅)
  | Dummy => Some ∅
  | Unset => None
  end.

Definition initial_concen_update (species0 : list string)
  : gmap string update_function :=
  fold_left
    (fun d '(index, specie) =>
       <[specie := _make_update_function index T_initial_concentration]> d)
    (enumerate species0) ∅.

(** [{**a, **b, **c}]: a key of a later mapping replaces the same key of an
    earlier one; stdpp's union keeps the left operand's entry. *)
Definition merge3 {V} (a b c : gmap string V) : gmap string V := c ∪ (b ∪ a).

Definition _create_update_dictionary (self : ChemicalReactionNetwork)
  : option (gmap string update_function) :=
  a ← mass_action_update self.(mass_action_reactions);
  b ← michaelis_menten_update self.(michaelis_menten_reactions);
  Some (merge3 a b (initial_concen_update self.(species))).

(** [a[i] = v] on a 1-d array and [m[i, i] = v] on a 2-d one. *)
Definition setitem (a : Np.vec) (i : nat) (v : float) : option Np.vec :=
  if decide (i < length a) then Some (<[i := v]> a) else None.

Definition setitem2 (m : Np.mat) (i j : nat) (v : float) : option Np.mat :=
  row ← m !! i;
  row' ← setitem row j v;
  Some (<[i := row']> m).

Definition with_K (r : MassActionReactions) (k : Np.mat) : MassActionReactions :=
  {| ma_reactions := r.(ma_reactions); N := r.(N); A := r.(A);
     rate_names := r.(rate_names); K := k |}.

Definition with_Kms (r : MichaelisMentenReactions) (v : Np.vec)
  : MichaelisMentenReactions :=
  {| mm_reactions := r.(mm_reactions);
     substrate_indices := r.(substrate_indices);
     substrate_stoichiometries := r.(substrate_stoichiometries);
     product_indices := r.(product_indices);
     product_stoichiometries := r.(product_stoichiometries);
     enzyme_indices := r.(enzyme_indices);
     Km_names := r.(Km_names); Kms := v;
     kcat_names := r.(kcat_names); kcats := r.(kcats) |}.

Definition with_kcats (r : MichaelisMentenReactions) (v : Np.vec)
  : MichaelisMentenReactions :=
  {| mm_reactions := r.(mm_reactions);
     substrate_indices := r.(substrate_indices);
     substrate_stoichiometries := r.(substrate_stoichiometries);
     product_indices := r.(product_indices);
     product_stoichiometries := r.(product_stoichiometries);
     enzyme_indices := r.(enzyme_indices);
     Km_names := r.(Km_names); Kms := r.(Kms);
     kcat_names := r.(kcat_names); kcats := v |}.

Definition with_sets (self : ChemicalReactionNetwork)
  (ma : instance MassActionReactions) (mm : instance MichaelisMentenReactions)
  (ic : Np.vec) : ChemicalReactionNetwork :=
  {| species := self.(species);
     mass_action_reactions := ma;
     michaelis_menten_reactions := mm;
     time := self.(time);
     initial_concentrations := ic;
     update_dictionary := self.(update_dictionary);
     concentrations := self.(concentrations) |}.

(** Calling the closure [update] on [new_value]: one scalar of the network
    is overwritten in place. *)
Definition update (self : ChemicalReactionNetwork) (f : update_function)
  (new_value : float) : option ChemicalReactionNetwork :=
  let '(index, tk) := f in
  match tk with
  | T_rate_constant =>
      match self.(mass_action_reactions) with
      | Populated r =>
          k ← setitem2 r.(K) index index new_value;
          Some (with_sets self (Populated (with_K r k))
                  self.(michaelis_menten_reactions) self.(initial_concentrations))
      | _ => None
      end
  | T_Km =>
      match self.(michaelis_menten_reactions) with
      | Populated r =>
          v ← setitem r.(Kms) index new_value;
          Some (with_sets self self.(mass_action_reactions)
                  (Populated (with_Kms r v)) self.(initial_concentrations))
      | _ => None
      end
  | T_kcat =>
      match self.(michaelis_menten_reactions) with
      | Populated r =>
          v ← setitem r.(kcats) index new_value;
          Some (with_sets self self.(mass_action_reactions)
                  (Populated (with_kcats r v)) self.(initial_concentrations))
      | _ => None
      end
  | T_initial_concentration =>
      v ← setitem self.(initial_concentrations) index new_value;
      Some (with_sets self self.(mass_action_reactions)
              self.(michaelis_menten_reactions) v)
  end.

(** The scalars the setters address. *)
Definition rate_constant_at (self : ChemicalReactionNetwork) (i : nat) : option float :=
  match self.(mass_action_reactions) with
  | Populated r => row ← r.(K) !! i; row !! i
  | _ => None
  end.

Definition Km_at (self : ChemicalReactionNetwork) (i : nat) : option float :=
  match self.(michaelis_menten_reactions) with
  | Populated r => r.(Kms) !! i
  | _ => None
  end.

Definition kcat_at (self : ChemicalReactionNetwork) (i : nat) : option float :=
  match self.(michaelis_menten_reactions) with
  | Populated r => r.(kcats) !! i
  | _ => None
  end.

(** A network in which the rate constant [k], the Michaelis constant [S]
    and the turnover number [E] are named like species. *)
Definition colliding_network : ChemicalReactionNetwork := {|
  species := ["S"; "E"; "P"; "k"]%string;
  mass_action_reactions := Populated {|
    ma_reactions := ["P -> k"%string];
    N := [[0; 0; -1; 1]]; A := [[0; 0; 1; 0]];
    rate_names := ["k"%string]; K := Np.diag [2] |};
  michaelis_menten_reactions := Populated {|
    mm_reactions := ["E + S -> E + P"%string];
    substrate_indices := [0%nat]; substrate_stoichiometries := [1%Z];
    product_indices := [2%nat]; product_stoichiometries := [1%Z];
    enzyme_indices := [1%nat];
    Km_names := ["S"%string]; Kms := [1];
    kcat_names := ["E"%string]; kcats := [3] |};
  time := [0; 1];
  initial_concentrations := [4; 3; 0; 0];
  update_dictionary := ∅;
  concentrations := None |}.

(** Storing a list of entries one after the other. *)
Definition insert_all {V} (kvs : list (string * V)) (acc : gmap string V)
  : gmap string V :=
  fold_left (fun d kv => <[kv.1 := kv.2]> d) kvs acc.

(** ** Python strings and dictionaries *)

Module Py.

(** [s.split(sep)] for a one-character separator: every occurrence of the
    separator cuts, so adjacent separators give empty tokens. *)
Fixpoint split (sep : ascii) (s : string) : list string :=
  match s with
  | EmptyString => [EmptyString]
  | String c s' =>
      if Ascii.eqb c sep then EmptyString :: split sep s'
      else match split sep s' with
           | tok :: toks => String c tok :: toks
           | [] => [String c EmptyString]
           end
  end.

(** [s.split(sep)] for a separator of several characters: [skip] counts
    the characters of a separator still to be passed over. *)
Fixpoint split_str_from (sep s : string) (skip : nat) : list string :=
  match s with
  | EmptyString => [EmptyString]
  | String c s' =>
      match skip with
      | S k => split_str_from sep s' k
      | O =>
          if String.prefix sep s
          then EmptyString :: split_str_from sep s' (String.length sep - 1)
          else match split_str_from sep s' 0 with
               | tok :: toks => String c tok :: toks
               | [] => [String c EmptyString]
               end
      end
  end.

Definition split_str (sep s : string) : list string := split_str_from sep s 0.

(** The characters the pattern [\s] matches in ASCII text. *)
Definition is_space (c : ascii) : bool :=
  let n := Ascii.nat_of_ascii c in
  ((9 <=? n)%nat && (n <=? 13)%nat) || ((28 <=? n)%nat && (n <=? 32)%nat).

Fixpoint remove_spaces (s : string) : string :=
  match s with
  | EmptyString => EmptyString
  | String c s' =>
      if is_space c then remove_spaces s' else String c (remove_spaces s')
  end.

(** [sep.join(l)] *)
Fixpoint join (sep : string) (l : list string) : string :=
  match l with
  | [] => EmptyString
  | [x] => x
  | x :: xs => x +:+ sep +:+ join sep xs
  end.

(** [sub in s] *)
Fixpoint contains (sub s : string) : bool :=
  String.prefix sub s ||
  match s with
  | EmptyString => false
  | String _ s' => contains sub s'
  end.

(** [l.index(x)]: the first position of [x], [ValueError] when absent. *)
Fixpoint index (x : string) (l : list string) : option nat :=
  match l with
  | [] => None
  | y :: l' => if String.eqb y x then Some 0%nat else S <$> index x l'
  end.

Definition is_digit (c : ascii) : bool :=
  let n := Ascii.nat_of_ascii c in (48 <=? n)%nat && (n <=? 57)%nat.

(** [s.isnumeric()] on ASCII text: non-empty and all digits. *)
Definition isnumeric (s : string) : bool :=
  match s with
  | EmptyString => false
  | _ => forallb is_digit (list_ascii_of_string s)
  end.

(** An insertion-ordered dictionary: [d[k] = v] overwrites in place when
    the key is there and appends otherwise. *)
Abbreviation dict V := (list (string * V)) (only parsing).

Fixpoint setitem {V} (d : dict V) (k : string) (v : V) : dict V :=
  match d with
  | [] => [(k, v)]
  | (k', v') :: d' =>
      if String.eqb k' k then (k, v) :: d' else (k', v') :: setitem d' k v
  end.

Fixpoint getitem {V} (d : dict V) (k : string) : option V :=
  match d with
  | [] => None
  | (k', v') :: d' => if String.eqb k' k then Some v' else getitem d' k
  end.

Definition keys {V} (d : dict V) : list string := fst <$> d.

End Py.

(** ** Reversible-reaction splitter *)

(** The rate constants of a reaction: name to value. *)
Abbreviation rates := (list (string * float)) (only parsing).

Definition process_reaction (updated_reaction_dict : Py.dict rates)
  (reaction : string) (constants : rates) : option (Py.dict rates) :=
  if Py.contains "<->" reaction then
    match Py.keys constants with
    | [forward_constant; reverse_constant] =>
        let split := Py.split " " reaction in
        i ← Py.index "<->" split;
        let split := <[i := "->"%string]> split in
        let _forward := split in
        let _reverse := split in
        let forward := Py.join " " _forward in
        let reverse := Py.join " " (rev _reverse) in
        fv ← Py.getitem constants forward_constant;
        rv ← Py.getitem constants reverse_constant;
        let d := Py.setitem updated_reaction_dict forward [(forward_constant, fv)] in
        Some (Py.setitem d reverse [(reverse_constant, rv)])
    | _ => None
    end
  else Some (Py.setitem updated_reaction_dict reaction constants).

Fixpoint process_reactions (updated_reaction_dict : Py.dict rates)
  (items : list (string * rates)) : option (Py.dict rates) :=
  match items with
  | [] => Some updated_reaction_dict
  | (reaction, constants) :: items' =>
      d ← process_reaction updated_reaction_dict reaction constants;
      process_reactions d items'
  end.

Definition _process_reaction_dict (reaction_dict : Py.dict rates)
  : option (Py.dict rates) :=
  process_reactions [] reaction_dict.

(** The splitter as the specification words it: the forward equation is the
    token sequence with the ['<->'] token (the first, should there be more)
    replaced by ['->']; the reverse equation is that sequence reversed; each
    is rejoined with spaces and carries one rate constant. *)
Fixpoint replace_first (old new : string) (l : list string) : list string :=
  match l with
  | [] => []
  | x :: l' => if String.eqb x old then new :: l' else x :: replace_first old new l'
  end.

Definition forward_tokens (reaction : string) : list string :=
  replace_first "<->" "->" (Py.split " " reaction).

Definition forward_equation (reaction : string) : string :=
  Py.join " " (forward_tokens reaction).

Definition reverse_equation (reaction : string) : string :=
  Py.join " " (rev (forward_tokens reaction)).

Definition split_entry (entry : string * rates) : list (string * rates) :=
  let '(reaction, constants) := entry in
  if Py.contains "<->" reaction then
    match constants with
    | [(forward_constant, fv); (reverse_constant, rv)] =>
        [(forward_equation reaction, [(forward_constant, fv)]);
         (reverse_equation reaction, [(reverse_constant, rv)])]
    | _ => []
    end
  else [entry].

(** A reversible entry is well formed when ['<->'] is one of its
    space-separated tokens and it maps two distinct names to rates. *)
Definition well_formed_entry (entry : string * rates) : Prop :=
  Py.contains "<->" entry.1 = true ->
  "<->"%string ∈ Py.split " " entry.1 /\
  exists f fv r rv, entry.2 = [(f, fv); (r, rv)] /\ f <> r.

(** ** Species discovery *)

Definition characters : list string := ["*"; "->"; "+"; "<->"]%string.

(** The keys of [{**a, **b}] *)
Definition merged_keys (a b : list string) : list string :=
  a ++ filter (fun k => k ∉ a) b.

Definition is_specie (tok : string) : bool :=
  negb (bool_decide (tok ∈ characters)) && negb (Py.isnumeric tok).

(** [list(set(...))]: the order of a Python set is that of its hash table;
    here it is the order of stdpp's [elements], equally a function of the
    set alone. *)
Definition discover_species (mass_action_keys michaelis_menten_keys : list string)
  : list string :=
  let toks :=
    mjoin (Py.split " " <$> merged_keys mass_action_keys michaelis_menten_keys) in
  elements (list_to_set (filter (fun tok => is_specie tok = true) toks) : gset string).

(** The equation parser of both [_parse_mass_action] and
    [_parse_michaelis_menten] cuts an equation at ['->'], each side at
    ['+'], removes all whitespace from a term and cuts it at ['*']. *)
Definition parse_side (side : string) : list (list string) :=
  (fun term => Py.split "*" (Py.remove_spaces term)) <$> Py.split "+" side.

Definition parse_sides (reaction : string)
  : option (list (list string) * list (list string)) :=
  match Py.split_str "->" reaction with
  | [_substrates; _products] => Some (parse_side _substrates, parse_side _products)
  | _ => None
  end.

(** ** Arrays in a store

    NumPy arrays are mutable objects.  To state which arrays an evaluation
    of the derivative function touches, the arrays live in a store indexed
    by addresses: every NumPy call that returns an array allocates a fresh
    one, and an indexed assignment overwrites the array it names. *)

Module Store.

Inductive ndarray := Arr1 (v : Np.vec) | Arr2 (m : Np.mat).

Abbreviation heap := (list ndarray) (only parsing).
Abbreviation loc := nat (only parsing).

(** State and exceptions *)
Definition St (X : Type) : Type := heap -> option (X * heap).

Definition ret {X} (x : X) : St X := fun h => Some (x, h).

Definition bind {X Y} (m : St X) (f : X -> St Y) : St Y :=
  fun h => match m h with
           | Some (x, h') => f x h'
           | None => None
           end.

Definition lift {X} (o : option X) : St X :=
  fun h => match o with Some x => Some (x, h) | None => None end.

Definition alloc (a : ndarray) : St loc :=
  fun h => Some (length h, h ++ [a]).

Definition load1 (l : loc) : St Np.vec :=
  fun h => match h !! l with Some (Arr1 v) => Some (v, h) | _ => None end.

Definition load2 (l : loc) : St Np.mat :=
  fun h => match h !! l with Some (Arr2 m) => Some (m, h) | _ => None end.

Definition store1 (l : loc) (v : Np.vec) : St unit :=
  fun h => match h !! l with
           | Some (Arr1 _) => Some (tt, <[l := Arr1 v]> h)
           | _ => None
           end.

#[local] Notation "x <- m ;; k" := (bind m (fun x => k))
  (at level 100, m at next level, right associativity).

(** An operand of a NumPy call: an array of the store, or an array-like
    value (a Python list, an integer array) converted on the way in. *)
Inductive operand := Ref (l : loc) | Val (v : Np.vec).

Definition operand1 (o : operand) : St Np.vec :=
  match o with Ref l => load1 l | Val v => ret v end.

Fixpoint operands (os : list operand) : St (list Np.vec) :=
  match os with
  | [] => ret []
  | o :: os' => v <- operand1 o;; vs <- operands os';; ret (v :: vs)
  end.

Definition zeros (n : nat) : St loc := alloc (Arr1 (Np.zeros n)).

Definition take (a : loc) (idx : list nat) : St loc :=
  v <- load1 a;; r <- lift (Np.take v idx);; alloc (Arr1 r).

Definition vstack (os : list operand) : St loc :=
  rows <- operands os;; m <- lift (Np.vstack rows);; alloc (Arr2 m).

Definition map1 (f : Np.vec -> Np.vec) (a : loc) : St loc :=
  v <- load1 a;; alloc (Arr1 (f v)).

Definition map2 (f : Np.vec -> Np.vec -> Np.vec) (a b : loc) : St loc :=
  v <- load1 a;; w <- load1 b;; alloc (Arr1 (f v w)).

Definition reduce2 (f : Np.mat -> Np.vec) (m : loc) : St loc :=
  v <- load2 m;; alloc (Arr1 (f v)).

(** [a[idx] = vals]: the one call that writes into an existing array. *)
Definition put (a : loc) (idx : list nat) (vals : loc) : St unit :=
  v <- load1 a;; x <- load1 vals;; r <- lift (Np.put v idx x);; store1 a r.

(** Reaction sets whose arrays are in the store. *)
Record MassActionRef := {
  ref_ma_reactions : list string;
  ref_N : loc;
  ref_A : loc;
  ref_rate_names : list string;
  ref_K : loc
}.

Record MichaelisMentenRef := {
  ref_mm_reactions : list string;
  ref_substrate_indices : list nat;
  ref_substrate_stoichiometries : list Z;
  ref_product_indices : list nat;
  ref_product_stoichiometries : list Z;
  ref_enzyme_indices : list nat;
  ref_Km_names : list string;
  ref_Kms : loc;
  ref_kcat_names : list string;
  ref_kcats : loc
}.

Record NetworkRef := {
  ref_species : list string;
  ref_mass_action_reactions : instance MassActionRef;
  ref_michaelis_menten_reactions : instance MichaelisMentenRef;
  ref_initial_concentrations : loc
}.

Definition compute_velocities (self : MichaelisMentenRef) (concentrations : loc)
  : St loc :=
  c <- load1 concentrations;;
  substrate_velocities <- zeros (length c);;
  product_velocities <- zeros (length c);;
  substrate_vector <- take concentrations self.(ref_substrate_indices);;
  enzyme_vector <- take concentrations self.(ref_enzyme_indices);;
  m1 <- vstack [Ref substrate_vector; Ref enzyme_vector; Ref self.(ref_Kms)];;
  term1 <- reduce2 Np.sum_axis0 m1;;
  t1 <- map1 Np.square term1;;
  m2 <- vstack [Ref enzyme_vector; Ref substrate_vector];;
  p2 <- reduce2 Np.prod_axis0 m2;;
  t2 <- map1 (fun v => Np.scale v 4) p2;;
  d <- map2 Np.subtract t1 t2;;
  term2 <- map1 Np.sqrt d;;
  n1 <- map2 Np.subtract term1 term2;;
  n2 <- map1 (fun v => Np.divide_scalar v 2) self.(ref_kcats);;
  m3 <- vstack [Ref n1; Ref n2];;
  _velocities <- reduce2 Np.prod_axis0 m3;;
  m4 <- vstack [Ref _velocities;
                Val (Np.float_of_int <$> self.(ref_substrate_stoichiometries))];;
  p4 <- reduce2 Np.prod_axis0 m4;;
  s4 <- map1 (fun v => Np.scale v (-1)) p4;;
  _ <- put substrate_velocities self.(ref_substrate_indices) s4;;
  m5 <- vstack [Ref _velocities;
                Val (Np.float_of_int <$> self.(ref_product_stoichiometries))];;
  p5 <- reduce2 Np.prod_axis0 m5;;
  _ <- put product_velocities self.(ref_product_indices) p5;;
  m6 <- vstack [Ref substrate_velocities; Ref product_velocities];;
  reduce2 Np.sum_axis0 m6.

Section Integrate.

Variable power : float -> float -> float.

(** [np.power(c, a)] and [np.dot(m, v)]; [m.T] is a view of [m], read but
    not copied. *)
Definition power2 (c a : loc) : St loc :=
  v <- load1 c;; m <- load2 a;; p <- lift (np_power power v m);; alloc (Arr2 p).

Definition dot (transposed : bool) (m v : loc) : St loc :=
  a <- load2 m;; x <- load1 v;;
  r <- lift (Np.dot (if transposed then Np.transpose a else a) x);;
  alloc (Arr1 r).

Definition compute_mass_action_rates (self : MassActionRef) (concentrations : loc)
  : St loc :=
  p <- power2 concentrations self.(ref_A);;
  pr <- reduce2 Np.prod_axis1 p;;
  w <- dot false self.(ref_K) pr;;
  dot true self.(ref_N) w.

(** What [integrate] fixes before it calls the solver: for a dummy set, the
    zero vector [empty] is built once and every call returns that array. *)
Inductive rate_function (R : Type) : Type :=
  | Compute (r : R)
  | Empty (empty : loc).
Arguments Compute {R} r.
Arguments Empty {R} empty.

Definition select {R} (set : instance R) (n : nat) : St (rate_function R) :=
  match set with
  | Populated r => ret (Compute r)
  | Dummy => empty <- zeros n;; ret (Empty empty)
  | Unset => lift None
  end.

Record closure := {
  compute_mass_action : rate_function MassActionRef;
  compute_michaelis_menten : rate_function MichaelisMentenRef
}.

(** The part of [integrate] that precedes the call of the solver. *)
Definition integrate_prepare (self : NetworkRef) : St closure :=
  ma <- select self.(ref_mass_action_reactions) (length self.(ref_species));;
  mm <- select self.(ref_michaelis_menten_reactions) (length self.(ref_species));;
  ret {| compute_mass_action := ma; compute_michaelis_menten := mm |}.

Definition call {R} (f : rate_function R) (compute : R -> St loc) : St loc :=
  match f with
  | Compute r => compute r
  | Empty empty => ret empty
  end.

(** [ODEs(concentrations, time, michaelis_menten_reactions)] *)
Definition ODEs (env : closure) (concentrations : loc) (t : float) : St loc :=
  mm <- call env.(compute_michaelis_menten)
          (fun r => compute_velocities r concentrations);;
  ma <- call env.(compute_mass_action)
          (fun r => compute_mass_action_rates r concentrations);;
  m <- vstack [Ref mm; Ref ma];;
  reduce2 Np.sum_axis0 m.

End Integrate.

Arguments Compute {R} r.
Arguments Empty {R} empty.

(** Reading a stored reaction set back as a value. *)
Definition get1 (h : heap) (l : loc) : option Np.vec :=
  match h !! l with Some (Arr1 v) => Some v | _ => None end.

Definition get2 (h : heap) (l : loc) : option Np.mat :=
  match h !! l with Some (Arr2 m) => Some m | _ => None end.

Definition mass_action_at (h : heap) (r : MassActionRef)
  : option MassActionReactions :=
  n ← get2 h r.(ref_N);
  a ← get2 h r.(ref_A);
  k ← get2 h r.(ref_K);
  Some {| ma_reactions := r.(ref_ma_reactions); N := n; A := a;
          rate_names := r.(ref_rate_names); K := k |}.

Definition michaelis_menten_at (h : heap) (r : MichaelisMentenRef)
  : option MichaelisMentenReactions :=
  kms ← get1 h r.(ref_Kms);
  kcs ← get1 h r.(ref_kcats);
  Some {| mm_reactions := r.(ref_mm_reactions);
          substrate_indices := r.(ref_substrate_indices);
          substrate_stoichiometries := r.(ref_substrate_stoichiometries);
          product_indices := r.(ref_product_indices);
          product_stoichiometries := r.(ref_product_stoichiometries);
          enzyme_indices := r.(ref_enzyme_indices);
          Km_names := r.(ref_Km_names); Kms := kms;
          kcat_names := r.(ref_kcat_names); kcats := kcs |}.

End Store.

(** The solver calls the derivative function time after time on the store
    the previous call left. *)
Section Evaluations.

Variable power : float -> float -> float.

Fixpoint evaluate_all (env : Store.closure) (concentrations : nat)
  (ts : list float) : Store.St (list nat) :=
  match ts with
  | [] => Store.ret []
  | t :: ts' =>
      Store.bind (Store.ODEs power env concentrations t) (fun l =>
      Store.bind (evaluate_all env concentrations ts') (fun ls =>
      Store.ret (l :: ls)))
  end.

End Evaluations.

(** A run in the store agrees with a pure evaluation when both raise or
    both return, the run having only added arrays to the store, the
    returned one holding the pure result. *)
Definition agrees (h : list Store.ndarray) (p : option (list float))
  (run : option (nat * list Store.ndarray)) : Prop :=
  match p, run with
  | Some d, Some (l, h') => (exists k, h' = h ++ k) /\ h' !! l = Some (Store.Arr1 d)
  | None, None => True
  | _, _ => False
  end.

(** The closure of [integrate] stands for a network: a populated set is
    read from the store, the [empty] vector of a dummy set holds zeros. *)
Inductive rate_repr {R P} (view : R -> option P) (h : list Store.ndarray) (n : nat)
  : Store.rate_function R -> instance P -> Prop :=
  | repr_compute (r : R) (p : P) :
      view r = Some p -> rate_repr view h n (Store.Compute r) (Populated p)
  | repr_empty (e : nat) :
      h !! e = Some (Store.Arr1 (Np.zeros n)) ->
      rate_repr view h n (Store.Empty e) Dummy.

Record represents (h : list Store.ndarray) (env : Store.closure)
  (self : ChemicalReactionNetwork) : Prop := {
  repr_mass_action :
    rate_repr (Store.mass_action_at h) h (length self.(species))
      env.(Store.compute_mass_action) self.(mass_action_reactions);
  repr_michaelis_menten :
    rate_repr (Store.michaelis_menten_at h) h (length self.(species))
      env.(Store.compute_michaelis_menten) self.(michaelis_menten_reactions)
}.

(** A network whose arrays are in the store. *)
Definition set_stored {R P} (view : R -> option P)
  (r : instance R) (p : instance P) : Prop :=
  match r, p with
  | Populated r, Populated p => view r = Some p
  | Dummy, Dummy => True
  | _, _ => False
  end.

Record stored (h : list Store.ndarray) (ref : Store.NetworkRef)
  (self : ChemicalReactionNetwork) : Prop := {
  stored_species : ref.(Store.ref_species) = self.(species);
  stored_mass_action :
    set_stored (Store.mass_action_at h)
      ref.(Store.ref_mass_action_reactions) self.(mass_action_reactions);
  stored_michaelis_menten :
    set_stored (Store.michaelis_menten_at h)
      ref.(Store.ref_michaelis_menten_reactions) self.(michaelis_menten_reactions);
  stored_initial_concentrations :
    h !! ref.(Store.ref_initial_concentrations)
    = Some (Store.Arr1 self.(initial_concentrations))
}.

(** ** Shapes and example inputs *)

(** The per-reaction arrays of a Michaelis-Menten set agree in length and
    every species index addresses a vector of [n] concentrations. *)
Record well_shaped (self : MichaelisMentenReactions) (n : nat) : Prop := {
  ws_enzymes : length self.(enzyme_indices) = length self.(substrate_indices);
  ws_Kms : length self.(Kms) = length self.(substrate_indices);
  ws_kcats : length self.(kcats) = length self.(substrate_indices);
  ws_substrate_range : Forall (fun i => (i < n)%nat) self.(substrate_indices);
  ws_enzyme_range : Forall (fun i => (i < n)%nat) self.(enzyme_indices)
}.

(** A set that holds exactly one reaction. *)
Record single_reaction (self : MichaelisMentenReactions)
  (si ei pi : nat) (ss ps : Z) (Km0 kcat0 : float) : Prop := {
  sr_substrate : self.(substrate_indices) = [si];
  sr_enzyme : self.(enzyme_indices) = [ei];
  sr_product : self.(product_indices) = [pi];
  sr_substrate_stoichiometry : self.(substrate_stoichiometries) = [ss];
  sr_product_stoichiometry : self.(product_stoichiometries) = [ps];
  sr_Km : self.(Kms) = [Km0];
  sr_kcat : self.(kcats) = [kcat0]
}.

(** Two reactions that consume one substrate. *)
Record common_substrate (self : MichaelisMentenReactions)
  (si e1 e2 p1 p2 : nat) (ss1 ss2 ps1 ps2 : Z)
  (Km1 Km2 kcat1 kcat2 : float) : Prop := {
  cs_substrate : self.(substrate_indices) = [si; si];
  cs_enzyme : self.(enzyme_indices) = [e1; e2];
  cs_product : self.(product_indices) = [p1; p2];
  cs_substrate_stoichiometry : self.(substrate_stoichiometries) = [ss1; ss2];
  cs_product_stoichiometry : self.(product_stoichiometries) = [ps1; ps2];
  cs_Km : self.(Kms) = [Km1; Km2];
  cs_kcat : self.(kcats) = [kcat1; kcat2]
}.

(** The set of one reaction [E + S -> E + P] over the species [S; E; P]. *)
Definition one_reaction (Km0 kcat0 : float) : MichaelisMentenReactions := {|
  mm_reactions := ["E + S -> E + P"%string];
  substrate_indices := [0%nat]; substrate_stoichiometries := [1%Z];
  product_indices := [2%nat]; product_stoichiometries := [1%Z];
  enzyme_indices := [1%nat];
  Km_names := ["Km"%string]; Kms := [Km0];
  kcat_names := ["kcat"%string]; kcats := [kcat0] |}.

(** Two reactions [E1 + S -> E1 + P1] and [E2 + S -> E2 + P2] that consume
    the same substrate, over the species [S; E1; E2; P1; P2]. *)
Definition shared_substrate : MichaelisMentenReactions := {|
  mm_reactions := ["E1 + S -> E1 + P1"%string; "E2 + S -> E2 + P2"%string];
  substrate_indices := [0%nat; 0%nat]; substrate_stoichiometries := [1%Z; 1%Z];
  product_indices := [3%nat; 4%nat]; product_stoichiometries := [1%Z; 1%Z];
  enzyme_indices := [1%nat; 2%nat];
  Km_names := ["Km1"%string; "Km2"%string]; Kms := [1; 1];
  kcat_names := ["kcat1"%string; "kcat2"%string]; kcats := [1; 2] |}.

(** The matrices of a mass-action set over [n] species: [A] and [N] have a
    row of [n] entries per reaction, and [K] is square. *)
Record ma_shaped (self : MassActionReactions) (n : nat) : Prop := {
  ms_A : Forall (fun row => length row = n) self.(A);
  ms_N : Forall (fun row => length row = n) self.(N);
  ms_N_rows : length self.(N) = length self.(A);
  ms_N_nonempty : self.(N) <> [];
  ms_K_rows : length self.(K) = length self.(A);
  ms_K : Forall (fun row => length row = length self.(A)) self.(K)
}.

(** The rate of a reaction before the rate constant is applied: the
    product over the species of [c_j ^ a_j]. *)
Definition mass_action_product (power : float -> float -> float)
  (c row : list float) : float :=
  Np.reduce PrimFloat.mul 1 (zip_with power c row).

(** The formula [N^T . (K . r)] with the rate constant already inside
    [r_i = rate_constant_i * product], as the specification words it. *)
Definition claimed_mass_action_rates (power : float -> float -> float)
  (self : MassActionReactions) (c : list float) : option (list float) :=
  let r := imap (fun i row => nth i (nth i self.(K) []) 0
                              * mass_action_product power c row) self.(A) in
  w ← Np.dot self.(K) r;
  Np.dot (Np.transpose self.(N)) w.

(** A stand-in for [pow] that agrees with it on the exponents 0 and 1, the
    only ones the examples use. *)
Definition pow_01 (x y : float) : float := if y =? 0 then 1 else x.

(** The set of the one reaction [A -> B] with rate constant 2, over the
    species [A; B]. *)
Definition a_to_b : MassActionReactions := {|
  ma_reactions := ["A -> B"%string];
  N := [[-1; 1]];
  A := [[1; 0]];
  rate_names := ["k"%string];
  K := Np.diag [2] |}.

(** A concentration at which the square of [s + s], a subnormal number, is
    rounded below four times the rounded square of [s]. *)
Definition tiny : float := 0x1.8c97ef43f7248p-538.

(** The network of [one_reaction] with no mass-action reactions, its arrays
    in a store: [Kms] at 0, [kcats] at 1, the initial concentrations at 2
    and the solver's argument at 3. *)
Definition stored_network : ChemicalReactionNetwork := {|
  species := ["S"; "E"; "P"]%string;
  mass_action_reactions := Dummy;
  michaelis_menten_reactions := Populated (one_reaction 1 2);
  time := [0; 1];
  initial_concentrations := [4; 3; 0];
  update_dictionary := ∅;
  concentrations := None |}.

Definition stored_heap : list Store.ndarray :=
  [Store.Arr1 [1]; Store.Arr1 [2]; Store.Arr1 [4; 3; 0]; Store.Arr1 [4; 3; 0]].

Definition stored_michaelis_menten_ref : Store.MichaelisMentenRef := {|
  Store.ref_mm_reactions := ["E + S -> E + P"%string];
  Store.ref_substrate_indices := [0%nat];
  Store.ref_substrate_stoichiometries := [1%Z];
  Store.ref_product_indices := [2%nat];
  Store.ref_product_stoichiometries := [1%Z];
  Store.ref_enzyme_indices := [1%nat];
  Store.ref_Km_names := ["Km"%string]; Store.ref_Kms := 0%nat;
  Store.ref_kcat_names := ["kcat"%string]; Store.ref_kcats := 1%nat |}.

Definition stored_ref : Store.NetworkRef := {|
  Store.ref_species := ["S"; "E"; "P"]%string;
  Store.ref_mass_action_reactions := Dummy;
  Store.ref_michaelis_menten_reactions := Populated stored_michaelis_menten_ref;
  Store.ref_initial_concentrations := 2%nat |}.

(** What [integrate] prepares on [stored_heap]: the vector [empty] of the
    dummy mass-action set is allocated at 4. *)
Definition stored_closure : Store.closure := {|
  Store.compute_mass_action := Store.Empty 4%nat;
  Store.compute_michaelis_menten := Store.Compute stored_michaelis_menten_ref |}.

(** ** Equation parsers *)

(** [int(s)] on ASCII text free of whitespace: an optional sign, then
    decimal digits; a single underscore may stand between two digits.  The
    interpreter's cap on the number of digits is left out. *)
Definition digit_value (c : ascii) : Z := (Z.of_nat (Ascii.nat_of_ascii c) - 48)%Z.

Fixpoint int_digits (s : string) (acc : Z) (after_digit : bool) : option Z :=
  match s with
  | EmptyString => if after_digit then Some acc else None
  | String c s' =>
      if Py.is_digit c then int_digits s' (10 * acc + digit_value c)%Z true
      else if Ascii.eqb c "_" && after_digit then int_digits s' acc false
      else None
  end.

Definition py_int (s : string) : option Z :=
  match s with
  | String "+" s' => int_digits s' 0 false
  | String "-" s' => Z.opp <$> int_digits s' 0 false
  | _ => int_digits s 0 false
  end.

(** A Python [int] assigned to an entry of a [float64] array: the nearest
    binary64 value, ties to even, and [OverflowError] beyond the largest
    finite one. *)
Definition float_of_pyint (z : Z) : option float :=
  match binary_normalize prec emax z 0 false with
  | S754_infinity _ => None
  | sf => Some (SF2Prim sf)
  end.

(** The species a parsed term names and its stoichiometric coefficient:
    [term[1]] and [int(term[0])] when the term has two parts, [term[0]]
    and 1 otherwise. *)
Definition term_name (term : list string) : option string :=
  match term with
  | [_; name] => Some name
  | name :: _ => Some name
  | [] => None
  end.

Definition term_coeff (term : list string) : option Z :=
  match term with
  | [coeff; _] => py_int coeff
  | _ => Some 1%Z
  end.

(** [row[species.index(name)] = stoichiometry_coeff] for one term *)
Definition assign_term (species0 : list string) (row : Np.vec)
  (term : list string) : option Np.vec :=
  name ← term_name term;
  stoichiometry_coeff ← term_coeff term;
  i ← Py.index name species0;
  v ← float_of_pyint stoichiometry_coeff;
  setitem row i v.

(** The loop over the terms of one side; [skip] tells the terms passed
    over by [continue]. *)
Fixpoint assign_terms (species0 : list string) (skip : list string -> bool)
  (row : Np.vec) (terms : list (list string)) : option Np.vec :=
  match terms with
  | [] => Some row
  | term :: terms' =>
      if skip term then assign_terms species0 skip row terms'
      else row' ← assign_term species0 row term;
           assign_terms species0 skip row' terms'
  end.

(** The substrate loop passes over no term, the product loop over the
    term ['0']. *)
Definition no_term (term : list string) : bool := false.
Definition zero_term (term : list string) : bool :=
  bool_decide (term = ["0"%string]).

(** One turn of the loop of [_parse_mass_action]: the rate name, the rate,
    the row [a] of reaction orders and the row [b - a] of net
    stoichiometries. *)
Definition parse_mass_action_reaction (species0 : list string)
  (reaction : string) (constants : rates)
  : option (string * float * Np.vec * Np.vec) :=
  '(rate_name, rate) ← head constants;
  let b := Np.zeros (length species0) in
  let a := Np.zeros (length species0) in
  '(_substrates, _products) ← parse_sides reaction;
  a ← assign_terms species0 no_term a _substrates;
  b ← assign_terms species0 zero_term b _products;
  Some (rate_name, rate, a, Np.subtract b a).

Definition _parse_mass_action (mass_action_dict : Py.dict rates)
  (species0 : list string) : option (instance MassActionReactions) :=
  if decide (length mass_action_dict = 0%nat)
  then MassActionReactions_init PyNone PyNone PyNone PyNone PyNone
  else
    let reactions := Py.keys mass_action_dict in
    rows ← mapM (fun reaction =>
                   constants ← Py.getitem mass_action_dict reaction;
                   parse_mass_action_reaction species0 reaction constants)
                reactions;
    MassActionReactions_init (PyList reactions)
      (PyList ((fun row => row.1.2) <$> rows))
      (PyList ((fun row => row.2) <$> rows))
      (PyList ((fun row => row.1.1.1) <$> rows))
      (PyList ((fun row => row.1.1.2) <$> rows)).

(** [[key for key in rate.keys() if sub in key][0]] *)
Definition first_key_with (sub : string) (rate : rates) : option string :=
  head (filter (fun key => Py.contains sub key = true) (Py.keys rate)).

(** [list(s)[0]] of a set: with one element in the set it is that element;
    with several, Python takes the first of its hash table and the model
    the first of stdpp's [elements]. *)
Definition first_of (s : gset string) : option string := head (elements s).

(** One turn of the loop of [_parse_michaelis_menten]. *)
Definition parse_michaelis_menten_reaction (species0 : list string)
  (reaction : string) (rate : rates)
  : option ((nat * Z) * nat * (nat * Z) * (string * float) * (string * float)) :=
  Km_key ← first_key_with "Km" rate;
  kcat_key ← first_key_with "kcat" rate;
  '(left', right') ← parse_sides reaction;
  left_species ← mapM term_name left';
  left_stoichios ← mapM term_coeff left';
  right_species ← mapM term_name right';
  right_stoichios ← mapM term_coeff right';
  enzyme ← first_of (list_to_set left_species ∩ list_to_set right_species);
  substrate ← first_of (list_to_set left_species ∖ {[enzyme]});
  product ← first_of (list_to_set right_species ∖ {[enzyme]});
  substrate_index ← Py.index substrate species0;
  enzyme_index ← Py.index enzyme species0;
  product_index ← Py.index product species0;
  substrate_stoichiometry ← (i ← Py.index substrate left_species; left_stoichios !! i);
  product_stoichiometry ← (i ← Py.index product right_species; right_stoichios !! i);
  Km ← Py.getitem rate Km_key;
  kcat ← Py.getitem rate kcat_key;
  Some ((substrate_index, substrate_stoichiometry), enzyme_index,
        (product_index, product_stoichiometry), (Km_key, Km), (kcat_key, kcat)).

Definition _parse_michaelis_menten (michaelis_menten_dict : Py.dict rates)
  (species0 : list string) : option (instance MichaelisMentenReactions) :=
  if decide (length michaelis_menten_dict = 0%nat)
  then MichaelisMentenReactions_init PyNone PyNone PyNone PyNone PyNone PyNone
  else
    rows ← mapM (fun '(reaction, rate) =>
                   parse_michaelis_menten_reaction species0 reaction rate)
                michaelis_menten_dict;
    MichaelisMentenReactions_init (PyList (Py.keys michaelis_menten_dict))
      (PyList ((fun row => row.1.1.1.1) <$> rows))
      (PyList ((fun row => row.1.1.1.2) <$> rows))
      (PyList ((fun row => row.1.1.2) <$> rows))
      (PyList ((fun row => row.1.2) <$> rows))
      (PyList ((fun row => row.2) <$> rows)).

(** ** The network constructor *)

(** The literal [1e-50] *)
Definition default_concentration : float := 0x1.dee7a4ad4b81fp-167.

(** [initial_concentrations[specie]] when the species is a key, the
    default otherwise, in the order of the species. *)
Definition initial_concentration_vector (initial_concentrations0 : Py.dict float)
  (species0 : list string) : Np.vec :=
  (fun specie =>
     match Py.getitem initial_concentrations0 specie with
     | Some c => c
     | None => default_concentration
     end) <$> species0.

Definition ChemicalReactionNetwork_init
  (mass_action_dict michaelis_menten_dict : Py.dict rates)
  (initial_concentrations0 : Py.dict float) (time0 : Np.vec)
  : option ChemicalReactionNetwork :=
  let species0 :=
    discover_species (Py.keys mass_action_dict) (Py.keys michaelis_menten_dict) in
  processed ← _process_reaction_dict mass_action_dict;
  ma ← _parse_mass_action processed species0;
  mm ← _parse_michaelis_menten michaelis_menten_dict species0;
  let self := {|
    species := species0;
    mass_action_reactions := ma;
    michaelis_menten_reactions := mm;
    time := time0;
    initial_concentrations :=
      initial_concentration_vector initial_concentrations0 species0;
    update_dictionary := ∅;
    concentrations := None |} in
  d ← _create_update_dictionary self;
  Some {|
    species := self.(species);
    mass_action_reactions := self.(mass_action_reactions);
    michaelis_menten_reactions := self.(michaelis_menten_reactions);
    time := self.(time);
    initial_concentrations := self.(initial_concentrations);
    update_dictionary := d;
    concentrations := None |}.

(** ** Further shapes and observations *)

(** A Michaelis-Menten set all of whose per-reaction arrays agree in length
    and all of whose species indices address a vector of [n]
    concentrations. *)
Record fully_shaped (self : MichaelisMentenReactions) (n : nat) : Prop := {
  fs_shaped : well_shaped self n;
  fs_substrate_stoichiometries :
    length self.(substrate_stoichiometries) = length self.(substrate_indices);
  fs_products : length self.(product_indices) = length self.(substrate_indices);
  fs_product_stoichiometries :
    length self.(product_stoichiometries) = length self.(substrate_indices);
  fs_product_range : Forall (fun i => (i < n)%nat) self.(product_indices)
}.

(** The scalar a setter addresses. *)
Definition parameter_at (self : ChemicalReactionNetwork) (f : update_function)
  : option float :=
  let '(index, tk) := f in
  match tk with
  | T_rate_constant => rate_constant_at self index
  | T_Km => Km_at self index
  | T_kcat => kcat_at self index
  | T_initial_concentration => self.(initial_concentrations) !! index
  end.

(** The names under which the parameters of the two sets are registered. *)
Definition rate_constant_names (ma : instance MassActionReactions) : list string :=
  match ma with Populated r => r.(rate_names) | _ => [] end.

Definition michaelis_menten_names (mm : instance MichaelisMentenReactions)
  : list string :=
  match mm with Populated r => r.(Km_names) ++ r.(kcat_names) | _ => [] end.

(** A token free of whitespace and of the characters at which the
    equation parser cuts: ['+'], ['*'], ['-'] and ['>']. *)
Definition plain (tok : string) : bool :=
  forallb (fun c => negb (Py.is_space c)
                    && negb (bool_decide (c ∈ ["+"; "*"; "-"; ">"]%char)))
    (list_ascii_of_string tok).

(** ** The inner products of [np.dot]

    [np.dot] hands a matrix-vector product to the BLAS library that NumPy
    is linked with.  Which library that is decides in which order and
    grouping the products of a row are added up, and whether a
    multiplication is fused with the addition that follows it; the result
    is a parameter of the model, as [pow] is, held to be one of the values
    that [inner_product] describes. *)

Module Blas.

(** A fused multiply-add [x * y + z]: the exact product enters the sum,
    which is rounded once.  A product that is a zero, an infinity or NaN is
    exact as [SF64mul] gives it. *)
Definition SFfma (x y z : spec_float) : spec_float :=
  match x, y with
  | S754_finite sx mx ex, S754_finite sy my ey =>
      match z with
      | S754_nan => S754_nan
      | S754_infinity _ => z
      | S754_zero _ => SF64mul x y
      | S754_finite _ _ _ =>
          SF64add (S754_finite (xorb sx sy) (mx * my) (ex + ey)) z
      end
  | _, _ => SF64add (SF64mul x y) z
  end.

Definition fma (x y z : float) : float :=
  SF2Prim (SFfma (Prim2SF x) (Prim2SF y) (Prim2SF z)).

(** [inner_product l s]: for the pairs of factors [l], an inner product
    routine may return [s].  The routine takes the pairs in any order and
    groups the additions in any way, accumulators that start from zero
    included, and it may fuse a multiplication with an addition. *)
Inductive inner_product : list (float * float) -> float -> Prop :=
  | inner_nil : inner_product [] 0
  | inner_mul x y : inner_product [(x, y)] (x * y)
  | inner_fma x y l s :
      inner_product l s -> inner_product ((x, y) :: l) (fma x y s)
  | inner_add l1 l2 s1 s2 :
      inner_product l1 s1 -> inner_product l2 s2 ->
      inner_product (l1 ++ l2) (s1 + s2)
  | inner_perm l1 l2 s :
      l1 ≡ₚ l2 -> inner_product l1 s -> inner_product l2 s.

(** A matrix-vector routine all of whose entries are such inner products
    of a row with the vector. *)
Definition faithful (gemv : Np.mat -> Np.vec -> Np.vec) : Prop :=
  forall m v, Forall (fun row => length row = length v) m ->
    Forall2 (fun row s => inner_product (zip row v) s) m (gemv m v).

(** The routine that adds the products of a row from left to right. *)
Definition in_order (m : Np.mat) (v : Np.vec) : Np.vec :=
  (fun row => Np.inner row v) <$> m.

Section Gemv.

Variable power : float -> float -> float.

(** The matrix-vector routine of the BLAS library. *)
Variable gemv : Np.mat -> Np.vec -> Np.vec.

(** [np.dot(m, v)] for a 2-d [m] and a 1-d [v]: [ValueError] unless the
    rows of [m] have the length of [v]. *)
Definition dot (m : Np.mat) (v : Np.vec) : option Np.vec :=
  if forallb (fun row => Nat.eqb (length row) (length v)) m
  then Some (gemv m v) else None.

(** The body of [compute_mass_action_rates] when the set is populated. *)
Definition compute_mass_action_rates (self : MassActionReactions)
  (concentrations : Np.vec) : option Np.vec :=
  p ← np_power power concentrations self.(A);
  w ← dot self.(K) (Np.prod_axis1 p);
  dot (Np.transpose self.(N)) w.

End Gemv.

End Blas.

(** A pair of factors whose product is a zero: a zero entry of the
    diagonal rate matrix against a finite number. *)
Definition null (xy : float * float) : Prop :=
  xy.1 = 0 /\ is_finite xy.2 = true.

(** ** The element type of an array

    NumPy takes the element type of [K], [Kms], [kcats] and
    [initial_concentrations] from the numbers they are built from: [int64]
    when every one of them is a Python [int] that fits in 64 bits,
    [float64] as soon as one is a [float].  Every computation reads the entries as [float64], and so do
    the records above; what an assignment stores depends on the element
    type. *)

Module Typed.

Inductive dtype := int64 | float64.

(** [int(x)]: the integer part of a finite [x], [ValueError] on NaN and
    [OverflowError] on an infinity. *)
Definition trunc (x : float) : option Z :=
  match Prim2SF x with
  | S754_zero _ => Some 0%Z
  | S754_finite s m e => Some (cond_Zopp s (Z.shiftl (Zpos m) e))
  | _ => None
  end.

(** The entry that [a[i] = new_value] leaves in an array of element type
    [t] for a Python [float]: the value itself in a [float64] array, its
    integer part in an [int64] array, [OverflowError] when that is out of
    range. *)
Definition cast (t : dtype) (new_value : float) : option float :=
  match t with
  | float64 => Some new_value
  | int64 =>
      z ← trunc new_value;
      if decide (- 2 ^ 63 <= z < 2 ^ 63)%Z then float_of_pyint z else None
  end.

(** The element types of the four arrays that the setters write. *)
Record dtypes := {
  K_dtype : dtype;
  Kms_dtype : dtype;
  kcats_dtype : dtype;
  initial_concentrations_dtype : dtype
}.

Definition dtype_of (ty : dtypes) (tk : token) : dtype :=
  match tk with
  | T_rate_constant => ty.(K_dtype)
  | T_Km => ty.(Kms_dtype)
  | T_kcat => ty.(kcats_dtype)
  | T_initial_concentration => ty.(initial_concentrations_dtype)
  end.

(** Calling the closure [update] on [new_value] when the arrays have the
    element types [ty]. *)
Definition update (ty : dtypes) (self : ChemicalReactionNetwork)
  (f : update_function) (new_value : float) : option ChemicalReactionNetwork :=
  stored ← cast (dtype_of ty f.2) new_value;
  update self f stored.

End Typed.

(** ** Binary64 facts *)

Module Binary64.

Definition two52 : positive := 4503599627370496.

Definition SF_finite (x : spec_float) : bool :=
  match x with S754_zero _ | S754_finite _ _ _ => true | _ => false end.

Definition SF_zero (x : spec_float) : bool :=
  match x with S754_zero _ => true | _ => false end.

(** Equal, or both a zero of either sign. *)
Definition same (x y : float) : Prop :=
  x = y \/ (PrimFloat.is_zero x = true /\ PrimFloat.is_zero y = true).

Lemma mul_two52 (m : positive) : (m * two52)%positive = Pos.iter xO m 52.
Proof. rewrite Pos.mul_comm. reflexivity. Qed.

Lemma digits_shift52 (m : positive) :
  Zdigits2 (Zpos (Pos.iter xO m 52)) = (Zpos (digits2_pos m) + 52)%Z.
Proof. cbn. lia. Qed.

Lemma shr_shift52 (m : positive) (e : Z) :
  shr (shr_record_of_loc (Zpos (Pos.iter xO m 52)) loc_Exact) e 52
  = ({| shr_m := Zpos m; shr_r := false; shr_s := false |}, (e + 52)%Z).
Proof. reflexivity. Qed.

(** Scaling a canonical mantissa by [2^52] and the exponent by [-52] rounds
    back to the same number. *)
Lemma round_scaled (sx : bool) (m : positive) (e : Z) :
  bounded prec emax m e = true ->
  binary_round_aux prec emax sx (Zpos (m * two52)) (e + -52) loc_Exact
  = S754_finite sx m e.
Proof.
  unfold bounded, canonical_mantissa. intros H.
  apply andb_prop in H as [Hc Hb]. apply Z.eqb_eq in Hc.
  unfold binary_round_aux. rewrite mul_two52.
  unfold shr_fexp at 1. rewrite digits_shift52.
  replace (fexp prec emax (Z.pos (digits2_pos m) + 52 + (e + -52)) - (e + -52))%Z
    with 52%Z
    by (replace (Z.pos (digits2_pos m) + 52 + (e + -52))%Z
          with (Z.pos (digits2_pos m) + e)%Z by lia; lia).
  rewrite shr_shift52. cbn [shr_m loc_of_shr_record round_nearest_even].
  unfold shr_fexp. cbn [Zdigits2].
  replace (e + -52 + 52)%Z with e by lia.
  rewrite Hc, Z.sub_diag. cbn [shr shr_record_of_loc shr_m].
  rewrite Hb. reflexivity.
Qed.

Lemma SFmul_unit (x : spec_float) (s1 : bool) :
  valid_binary x = true ->
  SF64mul x (S754_finite s1 two52 (-52)) = if s1 then SFopp x else x.
Proof.
  destruct x as [s|s| |s m e]; intros Hv; cbn -[two52].
  - destruct s, s1; reflexivity.
  - destruct s, s1; reflexivity.
  - destruct s1; reflexivity.
  - unfold SF64mul, SFmul. rewrite round_scaled by exact Hv.
    destruct s, s1; reflexivity.
Qed.

Lemma mul_one (x : float) : x * 1 = x.
Proof.
  apply Prim2SF_inj. rewrite FloatAxioms.mul_spec.
  change (Prim2SF 1) with (S754_finite false two52 (-52)).
  apply (SFmul_unit _ false), Prim2SF_valid.
Qed.

Lemma mul_minus_one (x : float) : x * (-1) = - x.
Proof.
  apply Prim2SF_inj. rewrite FloatAxioms.mul_spec, FloatAxioms.opp_spec.
  change (Prim2SF (-1)) with (S754_finite true two52 (-52)).
  apply (SFmul_unit _ true), Prim2SF_valid.
Qed.

Lemma is_finite_SF (x : float) : is_finite x = SF_finite (Prim2SF x).
Proof.
  unfold is_finite, is_nan, is_infinity.
  rewrite !FloatAxioms.eqb_spec, FloatAxioms.abs_spec.
  change (Prim2SF infinity) with (S754_infinity false).
  destruct (Prim2SF x) as [s|s| |s m e] eqn:E; try reflexivity.
  - destruct s; reflexivity.
  - unfold SFeqb, SFcompare. cbn.
    assert (Pos.compare_cont Eq m m = Eq) as Hm by apply Pos.compare_cont_refl.
    destruct s; cbn; rewrite Z.compare_refl, Hm; reflexivity.
Qed.

Lemma SFadd_opp (x : spec_float) :
  SF_finite x = true ->
  SF64add (SF64add (SFopp x) (S754_zero false)) (SF64add (S754_zero false) x)
  = S754_zero false.
Proof.
  destruct x as [s|s| |s m e]; try discriminate; intros _.
  - destruct s; reflexivity.
  - cbn [SFopp SF64add SFadd].
    unfold SF64add, SFadd. rewrite Z.min_id. unfold shl_align. rewrite Z.sub_diag.
    cbn [fst].
    destruct s; cbn [negb cond_Zopp];
      rewrite ?Z.add_opp_diag_l, ?Z.add_opp_diag_r; reflexivity.
Qed.

(** A finite amount taken from one entry and given to another cancels. *)
Lemma cancel (v : float) :
  is_finite v = true -> (v * 1 * (-1) + 0) + (0 + v * 1) = 0.
Proof.
  intros Hf. rewrite is_finite_SF in Hf.
  rewrite mul_one, mul_minus_one.
  apply Prim2SF_inj. rewrite !FloatAxioms.add_spec, FloatAxioms.opp_spec.
  change (Prim2SF 0) with (S754_zero false).
  apply SFadd_opp, Hf.
Qed.

(** The square root of a negative number is NaN, and NaN absorbs. *)
Lemma sqrt_negative (d : float) : (d <? 0) = true -> PrimFloat.sqrt d = nan.
Proof.
  rewrite FloatAxioms.ltb_spec. change (Prim2SF 0) with (S754_zero false).
  intros H. apply Prim2SF_inj. rewrite FloatAxioms.sqrt_spec.
  change (Prim2SF nan) with S754_nan.
  destruct (Prim2SF d) as [s|s| |s m e]; try discriminate;
    destruct s; try discriminate; reflexivity.
Qed.

Lemma sub_nan (x : float) : x - nan = nan.
Proof.
  apply Prim2SF_inj. rewrite FloatAxioms.sub_spec. change (Prim2SF nan) with S754_nan.
  destruct (Prim2SF x) as [s|s| |s m e]; reflexivity.
Qed.

Lemma nan_mul (y : float) : nan * y = nan.
Proof.
  apply Prim2SF_inj. rewrite FloatAxioms.mul_spec. change (Prim2SF nan) with S754_nan.
  reflexivity.
Qed.

(** Zeros in a sum: the products of a diagonal matrix's zero entries with
    finite numbers do not change the one product on the diagonal. *)
Lemma is_zero_SF (x : float) : PrimFloat.is_zero x = SF_zero (Prim2SF x).
Proof.
  unfold PrimFloat.is_zero. rewrite FloatAxioms.eqb_spec.
  change (Prim2SF PrimFloat.zero) with (S754_zero false).
  destruct (Prim2SF x) as [s|s| |s m e]; try reflexivity; destruct s; reflexivity.
Qed.

Lemma zero_mul_finite (p : float) :
  is_finite p = true -> PrimFloat.is_zero (0 * p) = true.
Proof.
  rewrite is_finite_SF, is_zero_SF, FloatAxioms.mul_spec.
  change (Prim2SF 0) with (S754_zero false).
  destruct (Prim2SF p) as [s|s| |s m e]; try discriminate; reflexivity.
Qed.

Lemma add_zero_l (z x : float) : PrimFloat.is_zero z = true -> same (z + x) x.
Proof.
  rewrite is_zero_SF. intros Hz. unfold same. rewrite !is_zero_SF.
  assert (Prim2SF (z + x) = Prim2SF x \/
          (SF_zero (Prim2SF (z + x)) = true /\ SF_zero (Prim2SF x) = true)) as [H|H].
  { rewrite FloatAxioms.add_spec.
    destruct (Prim2SF z) as [sz|sz| |sz mz ez]; try discriminate.
    destruct (Prim2SF x) as [s|s| |s m e]; try (by left).
    right. by destruct sz, s. }
  - left. by apply Prim2SF_inj.
  - by right.
Qed.

Lemma add_zero_r (z x : float) : PrimFloat.is_zero z = true -> same (x + z) x.
Proof.
  rewrite is_zero_SF. intros Hz. unfold same. rewrite !is_zero_SF.
  assert (Prim2SF (x + z) = Prim2SF x \/
          (SF_zero (Prim2SF (x + z)) = true /\ SF_zero (Prim2SF x) = true)) as [H|H].
  { rewrite FloatAxioms.add_spec.
    destruct (Prim2SF z) as [sz|sz| |sz mz ez]; try discriminate.
    destruct (Prim2SF x) as [s|s| |s m e]; try (by left).
    right. by destruct sz, s. }
  - left. by apply Prim2SF_inj.
  - by right.
Qed.

Lemma same_refl (x : float) : same x x.
Proof. by left. Qed.

Lemma same_is_zero (a z : float) :
  same a z -> PrimFloat.is_zero z = true -> PrimFloat.is_zero a = true.
Proof. intros [->|[Ha _]] Hz; done. Qed.

Lemma same_trans (a b c : float) : same a b -> same b c -> same a c.
Proof.
  intros [->|[Ha Hb]] [->|[Hb' Hc]]; try (by left); try (by right).
Qed.

End Binary64.

(** ** Properties of the NumPy primitives *)

Lemma take_spec (a : list float) (idx : list nat) :
  Forall (fun i => (i < length a)%nat) idx ->
  exists v, Np.take a idx = Some v /\ length v = length idx /\
    forall i j, idx !! i = Some j -> v !! i = a !! j.
Proof.
  intros Hidx.
  assert (is_Some (Np.take a idx)) as [v Hv].
  { apply mapM_is_Some. eapply Forall_impl; [exact Hidx|].
    intros i Hi. by apply lookup_lt_is_Some_2. }
  exists v. split; [done|].
  apply mapM_Some in Hv. split; [symmetry; by eapply Forall2_length|].
  intros i j Hij.
  destruct (Forall2_lookup_l _ _ _ _ _ Hv Hij) as (y & Hy & Hay).
  congruence.
Qed.

Lemma vstack2_eq (a b : list float) :
  length b = length a -> Np.vstack [a; b] = Some [a; b].
Proof. intros H. unfold Np.vstack. cbn. rewrite H, Nat.eqb_refl. done. Qed.

Lemma vstack3_eq (a b c : list float) :
  length b = length a -> length c = length a ->
  Np.vstack [a; b; c] = Some [a; b; c].
Proof. intros H1 H2. unfold Np.vstack. cbn. rewrite H1, H2, Nat.eqb_refl. done. Qed.

Lemma sum_axis0_2 (a b : list float) :
  Np.sum_axis0 [a; b] = zip_with PrimFloat.add a b.
Proof. reflexivity. Qed.

Lemma sum_axis0_3 (a b c : list float) :
  Np.sum_axis0 [a; b; c] = zip_with PrimFloat.add (zip_with PrimFloat.add a b) c.
Proof. reflexivity. Qed.

Lemma prod_axis0_2 (a b : list float) :
  Np.prod_axis0 [a; b] = zip_with PrimFloat.mul a b.
Proof. reflexivity. Qed.

Ltac np_length :=
  unfold Np.divide_scalar, Np.subtract, Np.sqrt, Np.square, Np.scale, Np.zeros;
  repeat (rewrite ?length_fmap, ?length_zip_with, ?length_replicate, ?length_insert);
  try lia.

Ltac np_lookup :=
  unfold Np.divide_scalar, Np.subtract, Np.sqrt, Np.square, Np.scale;
  repeat (rewrite ?lookup_zip_with, ?list_lookup_fmap).

(** An indexed assignment keeps the length, leaves the entries that are not
    addressed alone, and at a repeated index keeps the value assigned
    last. *)
Lemma put_seq_length (idx : list nat) : forall (a vals b : list float),
  Np.put_seq a idx vals = Some b -> length b = length a.
Proof.
  induction idx as [|i idx IH]; intros a [|v vals] b; cbn; try done.
  - by intros [= <-].
  - case_decide; [|done]. intros Hp. apply IH in Hp. by rewrite length_insert in Hp.
Qed.

Lemma put_seq_other (idx : list nat) : forall (a vals b : list float) (j : nat),
  Np.put_seq a idx vals = Some b -> j ∉ idx -> b !! j = a !! j.
Proof.
  induction idx as [|i idx IH]; intros a [|v vals] b j; cbn; try done.
  - by intros [= <-].
  - case_decide; [|done]. intros Hp Hj.
    apply not_elem_of_cons in Hj as [Hji Hj].
    rewrite (IH _ _ _ _ Hp Hj). by apply list_lookup_insert_ne.
Qed.

Lemma put_seq_total (idx : list nat) : forall (a vals : list float),
  length vals = length idx -> Forall (fun i => (i < length a)%nat) idx ->
  is_Some (Np.put_seq a idx vals).
Proof.
  induction idx as [|i idx IH]; intros a [|v vals]; cbn; try done.
  intros [= Hlen] Hall. apply Forall_cons in Hall as [Hi Hall].
  case_decide; [|done]. apply IH; [done|].
  by rewrite length_insert.
Qed.

Lemma put_seq_last (idx : list nat) : forall (a vals b : list float) (i : nat) (v : float),
  Np.put_seq a (idx ++ [i]) (vals ++ [v]) = Some b ->
  length vals = length idx -> b !! i = Some v.
Proof.
  induction idx as [|j idx IH]; intros a [|w vals] b i v; cbn; try done.
  - case_decide; [|done]. intros [= <-] _. by apply list_lookup_insert_eq.
  - case_decide; [|done]. intros Hp [= Hlen]. by eapply IH.
Qed.

(** ** Michaelis-Menten velocities *)

(** The velocity vector in terms of the gathered substrate and enzyme
    concentrations. *)
Lemma velocities_vector (self : MichaelisMentenReactions) (c : list float) :
  well_shaped self (length c) ->
  exists sv ev,
    (length sv = length self.(substrate_indices) /\
     forall i j, self.(substrate_indices) !! i = Some j -> sv !! i = c !! j) /\
    (length ev = length self.(substrate_indices) /\
     forall i j, self.(enzyme_indices) !! i = Some j -> ev !! i = c !! j) /\
    let term1 := zip_with PrimFloat.add (zip_with PrimFloat.add sv ev) self.(Kms) in
    let t2 := Np.scale (zip_with PrimFloat.mul ev sv) 4 in
    let term2 := Np.sqrt (Np.subtract (Np.square term1) t2) in
    velocities self c
    = Some (zip_with PrimFloat.mul (Np.subtract term1 term2)
              (Np.divide_scalar self.(kcats) 2)).
Proof.
  intros [He Hk Hc Hs Hz].
  destruct (take_spec c _ Hs) as (sv & Hsv & Lsv & Ssv).
  destruct (take_spec c _ Hz) as (ev & Hev & Lev & Sev).
  exists sv, ev. split; [done|]. split; [split; [lia|done]|].
  unfold velocities. rewrite Hsv, Hev. cbn [mbind option_bind].
  rewrite vstack3_eq by lia. cbn [mbind option_bind].
  rewrite vstack2_eq by lia. cbn [mbind option_bind].
  rewrite sum_axis0_3, !prod_axis0_2.
  rewrite vstack2_eq by np_length.
  cbn [mbind option_bind]. by rewrite prod_axis0_2.
Qed.

(** C2.  For a Michaelis-Menten set whose per-reaction arrays agree in
    length and whose indices address the concentration vector,
    [compute_velocities] obtains the velocity of reaction [i] as
    [(term1 - term2) * (kcat / 2)] with [term1 = s + e + Km] and
    [term2 = sqrt (term1^2 - 4*e*s)], where [s] and [e] are the
    concentrations at the substrate and enzyme indices of reaction [i]. *)
Theorem velocities_formula (self : MichaelisMentenReactions) (c : list float) :
  well_shaped self (length c) ->
  exists vs, velocities self c = Some vs /\
    length vs = length self.(substrate_indices) /\
    forall i si ei s e Km0 kcat0,
      self.(substrate_indices) !! i = Some si ->
      self.(enzyme_indices) !! i = Some ei ->
      c !! si = Some s -> c !! ei = Some e ->
      self.(Kms) !! i = Some Km0 -> self.(kcats) !! i = Some kcat0 ->
      vs !! i =
        Some (let term1 := s + e + Km0 in
              let term2 := PrimFloat.sqrt (term1 * term1 - e * s * 4) in
              (term1 - term2) * (kcat0 / 2)).
Proof.
  intros Hws.
  destruct (velocities_vector self c Hws) as (sv & ev & [Lsv Ssv] & [Lev Sev] & Hvs).
  destruct Hws as [He Hk Hc Hs Hz].
  eexists. split; [exact Hvs|]. split; [np_length|].
  intros i si ei s e Km0 kcat0 Hsi Hei Hcs Hce HKm Hkcat.
  np_lookup.
  rewrite (Ssv _ _ Hsi), (Sev _ _ Hei), Hcs, Hce, HKm, Hkcat.
  reflexivity.
Qed.

Lemma one_reaction_shaped (Km0 kcat0 : float) : well_shaped (one_reaction Km0 kcat0) 3.
Proof. split; cbn; repeat constructor. Defined.

Lemma velocities_formula_witness :
  well_shaped (one_reaction 1 2) (length [4; 3; 0]) /\
  exists vs, velocities (one_reaction 1 2) [4; 3; 0] = Some vs /\
    length vs = length (one_reaction 1 2).(substrate_indices) /\
    forall i si ei s e Km0 kcat0,
      (one_reaction 1 2).(substrate_indices) !! i = Some si ->
      (one_reaction 1 2).(enzyme_indices) !! i = Some ei ->
      [4; 3; 0] !! si = Some s -> [4; 3; 0] !! ei = Some e ->
      (one_reaction 1 2).(Kms) !! i = Some Km0 ->
      (one_reaction 1 2).(kcats) !! i = Some kcat0 ->
      vs !! i =
        Some (let term1 := s + e + Km0 in
              let term2 := PrimFloat.sqrt (term1 * term1 - e * s * 4) in
              (term1 - term2) * (kcat0 / 2)).
Proof.
  split; [apply one_reaction_shaped|].
  apply (velocities_formula (one_reaction 1 2) [4; 3; 0]), one_reaction_shaped.
Defined.

(** The velocity vector of a well-shaped set with one or two reactions. *)
Lemma velocities_one (self : MichaelisMentenReactions) (c : list float)
  (si ei : nat) (s e Km0 kcat0 : float) :
  self.(substrate_indices) = [si] -> self.(enzyme_indices) = [ei] ->
  self.(Kms) = [Km0] -> self.(kcats) = [kcat0] ->
  c !! si = Some s -> c !! ei = Some e ->
  velocities self c = Some [mm_velocity s e Km0 kcat0].
Proof.
  intros Hs He Hk Hc Hcs Hce.
  unfold velocities, Np.take. rewrite Hs, He, Hk, Hc. cbn.
  rewrite Hcs, Hce. reflexivity.
Qed.

Lemma velocities_two (self : MichaelisMentenReactions) (c : list float)
  (s1 s2 e1 e2 : nat) (x1 x2 y1 y2 Km1 Km2 kcat1 kcat2 : float) :
  self.(substrate_indices) = [s1; s2] -> self.(enzyme_indices) = [e1; e2] ->
  self.(Kms) = [Km1; Km2] -> self.(kcats) = [kcat1; kcat2] ->
  c !! s1 = Some x1 -> c !! s2 = Some x2 ->
  c !! e1 = Some y1 -> c !! e2 = Some y2 ->
  velocities self c
  = Some [mm_velocity x1 y1 Km1 kcat1; mm_velocity x2 y2 Km2 kcat2].
Proof.
  intros Hs He Hk Hc H1 H2 H3 H4.
  unfold velocities, Np.take. rewrite Hs, He, Hk, Hc. cbn.
  rewrite H1, H2, H3, H4. reflexivity.
Qed.

Lemma put_one (n i : nat) (v : float) :
  (i < n)%nat -> Np.put (Np.zeros n) [i] [v] = Some (<[i := v]> (Np.zeros n)).
Proof.
  intros Hi. unfold Np.put, Np.zeros. cbn.
  rewrite length_replicate. by rewrite decide_True.
Qed.

Lemma put_two (n i j : nat) (v w : float) :
  (i < n)%nat -> (j < n)%nat ->
  Np.put (Np.zeros n) [i; j] [v; w] = Some (<[j := w]> (<[i := v]> (Np.zeros n))).
Proof.
  intros Hi Hj. unfold Np.put, Np.zeros. cbn.
  rewrite length_replicate, decide_True by done.
  rewrite length_insert, length_replicate. by rewrite decide_True.
Qed.

(** The derivative vector of a single reaction: one write per role. *)
Lemma compute_velocities_one (self : MichaelisMentenReactions) (c : list float)
  (si ei pi : nat) (ss ps : Z) (s e Km0 kcat0 : float) :
  single_reaction self si ei pi ss ps Km0 kcat0 ->
  c !! si = Some s -> c !! ei = Some e -> (pi < length c)%nat ->
  let v := mm_velocity s e Km0 kcat0 in
  compute_velocities self c
  = Some (zip_with PrimFloat.add
            (<[si := v * Np.float_of_int ss * (-1)]> (Np.zeros (length c)))
            (<[pi := v * Np.float_of_int ps]> (Np.zeros (length c)))).
Proof.
  intros [Hs He Hp Hss Hps Hk Hc] Hcs Hce Hpi v.
  unfold compute_velocities.
  rewrite (velocities_one self c si ei s e Km0 kcat0) by done.
  rewrite Hs, Hp, Hss, Hps. cbn [mbind option_bind fmap list_fmap].
  rewrite !(vstack2_eq [_] [_]) by done. cbn [mbind option_bind].
  rewrite !prod_axis0_2. cbn [zip_with Np.scale fmap list_fmap].
  rewrite !put_one by (done || by eapply lookup_lt_Some).
  cbn [mbind option_bind]. rewrite vstack2_eq by np_length.
  reflexivity.
Qed.

Lemma zeros_lookup (n i : nat) : (i < n)%nat -> Np.zeros n !! i = Some 0.
Proof. apply lookup_replicate_2. Qed.

(** C6 (as amended).  For a single Michaelis-Menten reaction with pairwise
    distinct substrate, enzyme and product indices, the derivative vector
    is zero at the enzyme index; and when both stoichiometries are 1 and
    the reaction's velocity is a finite number, the substrate and product
    entries sum to zero. *)
Theorem single_reaction_conservation (self : MichaelisMentenReactions)
  (c : list float) (si ei pi : nat) (ss ps : Z) (s e Km0 kcat0 : float) :
  single_reaction self si ei pi ss ps Km0 kcat0 ->
  si <> ei -> pi <> ei -> si <> pi ->
  c !! si = Some s -> c !! ei = Some e -> (pi < length c)%nat ->
  exists d, compute_velocities self c = Some d /\
    d !! ei = Some 0 /\
    (ss = 1%Z -> ps = 1%Z -> is_finite (mm_velocity s e Km0 kcat0) = true ->
     exists a b, d !! si = Some a /\ d !! pi = Some b /\ a + b = 0).
Proof.
  intros Hone Hse Hpe Hsp Hcs Hce Hpi.
  pose proof (lookup_lt_Some _ _ _ Hcs) as Hsi.
  pose proof (lookup_lt_Some _ _ _ Hce) as Hei.
  rewrite (compute_velocities_one self c si ei pi ss ps s e Km0 kcat0) by done.
  eexists. split; [reflexivity|]. split.
  - rewrite lookup_zip_with, !list_lookup_insert_ne, zeros_lookup by done.
    reflexivity.
  - intros -> -> Hfin.
    exists (mm_velocity s e Km0 kcat0 * 1 * (-1) + 0),
           (0 + mm_velocity s e Km0 kcat0 * 1).
    split; [|split].
    + rewrite lookup_zip_with, list_lookup_insert_eq by np_length.
      rewrite (list_lookup_insert_ne _ pi si) by congruence.
      rewrite zeros_lookup by done. reflexivity.
    + rewrite lookup_zip_with.
      rewrite (list_lookup_insert_ne _ si pi) by congruence.
      rewrite list_lookup_insert_eq by np_length.
      rewrite zeros_lookup by done. reflexivity.
    + by apply Binary64.cancel.
Qed.

Lemma one_reaction_single (Km0 kcat0 : float) :
  single_reaction (one_reaction Km0 kcat0) 0 1 2 1 1 Km0 kcat0.
Proof. split; reflexivity. Defined.

Lemma single_reaction_conservation_witness :
  single_reaction (one_reaction 1 2) 0 1 2 1 1 1 2 /\
  [4; 3; 0] !! 0%nat = Some 4 /\ [4; 3; 0] !! 1%nat = Some 3 /\
  is_finite (mm_velocity 4 3 1 2) = true /\
  exists d, compute_velocities (one_reaction 1 2) [4; 3; 0] = Some d /\
    d !! 1%nat = Some 0 /\
    (1%Z = 1%Z -> 1%Z = 1%Z -> is_finite (mm_velocity 4 3 1 2) = true ->
     exists a b, d !! 0%nat = Some a /\ d !! 2%nat = Some b /\ a + b = 0).
Proof.
  split; [apply one_reaction_single|].
  split; [reflexivity|]. split; [reflexivity|]. split; [reflexivity|].
  apply (single_reaction_conservation (one_reaction 1 2) [4; 3; 0] 0 1 2 1 1 4 3 1 2).
  - apply one_reaction_single.
  - discriminate.
  - discriminate.
  - discriminate.
  - reflexivity.
  - reflexivity.
  - cbn. lia.
Defined.

Lemma nan_neq_zero : nan <> 0.
Proof. intros H. apply (f_equal is_nan) in H. discriminate H. Qed.

(** C6, as stated, fails: with [Km = 0], [s = 1] and [e = 1 + 2^-52] the
    rounded discriminant is negative, the velocity is NaN, and so is the
    sum of the substrate and product entries. *)
Lemma single_reaction_conservation_counterexample :
  exists d a b,
    compute_velocities (one_reaction 0 1) [1; 0x1.0000000000001p0; 0] = Some d /\
    d !! 0%nat = Some a /\ d !! 2%nat = Some b /\ a + b <> 0.
Proof.
  exists [nan; 0; nan], nan, nan.
  split; [vm_compute; reflexivity|].
  split; [reflexivity|]. split; [reflexivity|].
  vm_compute. exact nan_neq_zero.
Qed.

(** ** Reactions that share a species *)

(** C3.  The claim asks for the contributions of reactions that share a
    substrate to be added up.  For two reactions with the same substrate
    index, which is not a product index, the substrate entry of the
    derivative holds the contribution of the second reaction alone: the
    velocity of the first does not reach it. *)
Theorem shared_substrate_keeps_last_write
  (self : MichaelisMentenReactions) (c : list float)
  (si e1 e2 p1 p2 : nat) (ss1 ss2 ps1 ps2 : Z)
  (x y1 y2 Km1 Km2 kcat1 kcat2 : float) :
  common_substrate self si e1 e2 p1 p2 ss1 ss2 ps1 ps2 Km1 Km2 kcat1 kcat2 ->
  c !! si = Some x -> c !! e1 = Some y1 -> c !! e2 = Some y2 ->
  (p1 < length c)%nat -> (p2 < length c)%nat -> p1 <> si -> p2 <> si ->
  exists d, compute_velocities self c = Some d /\
    velocities self c
    = Some [mm_velocity x y1 Km1 kcat1; mm_velocity x y2 Km2 kcat2] /\
    d !! si = Some (mm_velocity x y2 Km2 kcat2 * Np.float_of_int ss2 * (-1) + 0).
Proof.
  intros [Hs He Hp Hss Hps Hk Hc] Hx Hy1 Hy2 Hp1 Hp2 Hn1 Hn2.
  pose proof (lookup_lt_Some _ _ _ Hx) as Hsi.
  pose proof (velocities_two self c si si e1 e2 x x y1 y2 Km1 Km2 kcat1 kcat2
                Hs He Hk Hc Hx Hx Hy1 Hy2) as Hvs.
  unfold compute_velocities. rewrite Hvs.
  rewrite Hs, Hp, Hss, Hps. cbn [mbind option_bind fmap list_fmap].
  rewrite !(vstack2_eq [_; _] [_; _]) by done. cbn [mbind option_bind].
  rewrite !prod_axis0_2. cbn [zip_with Np.scale fmap list_fmap].
  rewrite !put_two by done.
  cbn [mbind option_bind]. rewrite vstack2_eq by np_length.
  eexists. split; [reflexivity|]. split; [reflexivity|].
  rewrite sum_axis0_2, lookup_zip_with.
  rewrite list_lookup_insert_eq by np_length.
  rewrite !list_lookup_insert_ne by done.
  rewrite zeros_lookup by done. reflexivity.
Qed.

Lemma shared_substrate_common :
  common_substrate shared_substrate 0 1 2 3 4 1 1 1 1 1 1 1 2.
Proof. split; reflexivity. Defined.

Lemma shared_substrate_keeps_last_write_witness :
  common_substrate shared_substrate 0 1 2 3 4 1 1 1 1 1 1 1 2 /\
  exists d, compute_velocities shared_substrate [4; 3; 3; 0; 0] = Some d /\
    velocities shared_substrate [4; 3; 3; 0; 0]
    = Some [mm_velocity 4 3 1 1; mm_velocity 4 3 1 2] /\
    d !! 0%nat = Some (mm_velocity 4 3 1 2 * Np.float_of_int 1 * (-1) + 0).
Proof.
  split; [exact shared_substrate_common|].
  apply (shared_substrate_keeps_last_write shared_substrate [4; 3; 3; 0; 0]
           0 1 2 3 4 1 1 1 1 4 3 3 1 1 1 2).
  - exact shared_substrate_common.
  - reflexivity.
  - reflexivity.
  - reflexivity.
  - cbn. lia.
  - cbn. lia.
  - discriminate.
  - discriminate.
Defined.

(** At the concentrations [S = 4], [E1 = E2 = 3] the two reactions of
    [shared_substrate] have the velocities 2 and 4, and the substrate entry
    of the derivative is [-4], not [-6]. *)
Example shared_substrate_evaluation :
  velocities shared_substrate [4; 3; 3; 0; 0] = Some [2; 4] /\
  compute_velocities shared_substrate [4; 3; 3; 0; 0] = Some [-4; 0; 0; 2; 4] /\
  (2 * 1 * (-1)) + (4 * 1 * (-1)) = -6.
Proof. repeat split; vm_compute; reflexivity. Qed.

(** ** The discriminant *)

(** C4, as stated, fails at the boundary it names: with [Km = 0] and
    [s = e = tiny] the discriminant that reaches the square root is
    negative, and the velocity is NaN. *)
Lemma discriminant_clamp_counterexample :
  (mm_discriminant tiny tiny 0 <? 0) = true /\
  velocities (one_reaction 0 1) [tiny; tiny; 0] = Some [nan].
Proof. split; vm_compute; reflexivity. Qed.

(** C4 (as amended).  [compute_velocities] raises no domain error and
    builds no complex number, and it does not clamp: the square root is
    taken of the discriminant as computed, and wherever that is negative
    the velocity of the reaction is NaN. *)
Theorem negative_discriminant_gives_nan
  (self : MichaelisMentenReactions) (c : list float) :
  well_shaped self (length c) ->
  exists vs, velocities self c = Some vs /\
    forall i si ei s e Km0 kcat0,
      self.(substrate_indices) !! i = Some si ->
      self.(enzyme_indices) !! i = Some ei ->
      c !! si = Some s -> c !! ei = Some e ->
      self.(Kms) !! i = Some Km0 -> self.(kcats) !! i = Some kcat0 ->
      (mm_discriminant s e Km0 <? 0) = true ->
      vs !! i = Some nan.
Proof.
  intros Hws.
  destruct (velocities_vector self c Hws) as (sv & ev & [Lsv Ssv] & [Lev Sev] & Hvs).
  eexists. split; [exact Hvs|].
  intros i si ei s e Km0 kcat0 Hsi Hei Hcs Hce HKm Hkcat Hneg.
  np_lookup.
  rewrite (Ssv _ _ Hsi), (Sev _ _ Hei), Hcs, Hce, HKm, Hkcat.
  cbn [mbind option_bind fmap option_fmap option_map]. f_equal.
  change (PrimFloat.sqrt _) with (PrimFloat.sqrt (mm_discriminant s e Km0)).
  by rewrite (Binary64.sqrt_negative _ Hneg), Binary64.sub_nan, Binary64.nan_mul.
Qed.

Lemma negative_discriminant_gives_nan_witness :
  well_shaped (one_reaction 0 1) (length [tiny; tiny; 0]) /\
  exists vs, velocities (one_reaction 0 1) [tiny; tiny; 0] = Some vs /\
    forall i si ei s e Km0 kcat0,
      (one_reaction 0 1).(substrate_indices) !! i = Some si ->
      (one_reaction 0 1).(enzyme_indices) !! i = Some ei ->
      [tiny; tiny; 0] !! si = Some s -> [tiny; tiny; 0] !! ei = Some e ->
      (one_reaction 0 1).(Kms) !! i = Some Km0 ->
      (one_reaction 0 1).(kcats) !! i = Some kcat0 ->
      (mm_discriminant s e Km0 <? 0) = true ->
      vs !! i = Some nan.
Proof.
  split; [apply one_reaction_shaped|].
  apply (negative_discriminant_gives_nan (one_reaction 0 1) [tiny; tiny; 0]),
    one_reaction_shaped.
Defined.

(** ** Mass-action rates *)

Lemma mapM_fmap_total {X Y} (f : X -> option Y) (g : X -> Y) (l : list X) :
  Forall (fun x => f x = Some (g x)) l -> mapM f l = Some (g <$> l).
Proof.
  intros H. apply mapM_Some_2, Forall2_fmap_r, Forall_Forall2_diag. exact H.
Qed.

Lemma SF2Prim_Prim2SF_add (x y : float) :
  SF2Prim (SF64add (Prim2SF x) (Prim2SF y)) = x + y.
Proof. rewrite <- FloatAxioms.add_spec. apply SF2Prim_Prim2SF. Qed.

Lemma fma_unfused (x y z : float) :
  Binary64.SF_finite (Prim2SF x) && Binary64.SF_finite (Prim2SF y)
  && negb (Binary64.SF_zero (Prim2SF x)) && negb (Binary64.SF_zero (Prim2SF y))
  = false ->
  Blas.fma x y z = x * y + z.
Proof.
  intros H. unfold Blas.fma, Blas.SFfma.
  rewrite <- SF2Prim_Prim2SF_add, FloatAxioms.mul_spec.
  destruct (Prim2SF x) as [sx|sx| |sx mx ex], (Prim2SF y) as [sy|sy| |sy my ey];
    try reflexivity; discriminate.
Qed.

Lemma fma_null (x y s : float) :
  null (x, y) -> Binary64.same (Blas.fma x y s) s.
Proof.
  intros [Hx Hy]. cbn in Hx, Hy. subst x.
  rewrite fma_unfused.
  2:{ change (Prim2SF 0) with (S754_zero false). cbn.
      by destruct (Binary64.SF_finite (Prim2SF y)). }
  apply Binary64.add_zero_l. by apply Binary64.zero_mul_finite.
Qed.

Lemma fma_from_zero (x y s : float) :
  PrimFloat.is_zero s = true -> Binary64.same (Blas.fma x y s) (x * y).
Proof.
  intros Hs.
  destruct (Binary64.SF_finite (Prim2SF x) && Binary64.SF_finite (Prim2SF y)
            && negb (Binary64.SF_zero (Prim2SF x))
            && negb (Binary64.SF_zero (Prim2SF y))) eqn:E.
  - left. unfold Blas.fma, Blas.SFfma.
    rewrite Binary64.is_zero_SF in Hs.
    destruct (Prim2SF x) as [sx|sx| |sx mx ex] eqn:Ex,
             (Prim2SF y) as [sy|sy| |sy my ey] eqn:Ey; try discriminate.
    destruct (Prim2SF s) as [ss|ss| |ss ms es]; try discriminate.
    rewrite <- Ex, <- Ey, <- FloatAxioms.mul_spec. apply SF2Prim_Prim2SF.
  - rewrite fma_unfused by exact E. by apply Binary64.add_zero_r.
Qed.

Lemma null_product (xy : float * float) :
  null xy -> PrimFloat.is_zero (xy.1 * xy.2) = true.
Proof. intros [-> Hy]. by apply Binary64.zero_mul_finite. Qed.

Lemma add_zeros (a b : float) :
  PrimFloat.is_zero a = true -> PrimFloat.is_zero b = true ->
  PrimFloat.is_zero (a + b) = true.
Proof.
  intros Ha Hb. eapply Binary64.same_is_zero; [|exact Ha].
  by apply Binary64.add_zero_r.
Qed.

Lemma same_add_zero_r (a b x : float) :
  Binary64.same a x -> PrimFloat.is_zero b = true -> Binary64.same (a + b) x.
Proof.
  intros Ha Hb. eapply Binary64.same_trans; [|exact Ha]. by apply Binary64.add_zero_r.
Qed.

Lemma same_add_zero_l (a b x : float) :
  PrimFloat.is_zero a = true -> Binary64.same b x -> Binary64.same (a + b) x.
Proof.
  intros Ha Hb. eapply Binary64.same_trans; [|exact Hb]. by apply Binary64.add_zero_l.
Qed.

Lemma Permutation_cons_cases {X} (x y : X) (l r : list X) :
  x :: l ≡ₚ y :: r ->
  (x = y /\ l ≡ₚ r) \/ (exists r', r ≡ₚ x :: r' /\ l ≡ₚ y :: r').
Proof.
  intros Hp.
  assert (x ∈ y :: r) as Hx by (rewrite <- Hp; by left).
  apply elem_of_cons in Hx as [->|Hx].
  - left. split; [done|]. by apply Permutation_cons_inv in Hp.
  - right. apply elem_of_Permutation in Hx as [r' Hr']. exists r'.
    split; [done|]. rewrite Hr' in Hp.
    rewrite (Permutation_swap x y r') in Hp. by apply Permutation_cons_inv in Hp.
Qed.

Lemma Permutation_app_cons_cases {X} (x : X) (l1 l2 r : list X) :
  l1 ++ l2 ≡ₚ x :: r ->
  (exists r1, l1 ≡ₚ x :: r1 /\ r ≡ₚ r1 ++ l2) \/
  (exists r2, l2 ≡ₚ x :: r2 /\ r ≡ₚ l1 ++ r2).
Proof.
  intros Hp.
  assert (x ∈ l1 ++ l2) as Hx by (rewrite Hp; by left).
  apply elem_of_app in Hx as [Hx|Hx];
    apply elem_of_Permutation in Hx as [r' Hr']; [left|right]; exists r';
    (split; [done|]); rewrite Hr' in Hp.
  - cbn in Hp. apply Permutation_cons_inv in Hp. by symmetry.
  - rewrite <- Permutation_middle in Hp. apply Permutation_cons_inv in Hp.
    by symmetry.
Qed.

(** Whatever the order, the grouping and the fusing: pairs whose product
    is a zero add up to a zero, and next to one other pair they leave the
    product of that pair, up to the sign of a zero. *)
Lemma inner_product_null (l : list (float * float)) (s : float) :
  Blas.inner_product l s ->
  (Forall null l -> PrimFloat.is_zero s = true) /\
  (forall x y rest, l ≡ₚ (x, y) :: rest -> Forall null rest ->
     Binary64.same s (x * y)).
Proof.
  induction 1 as [|x0 y0|x0 y0 l s Hl [IH0 IH1]
                  |l1 l2 s1 s2 H1 [IH10 IH11] H2 [IH20 IH21]
                  |l1 l2 s Hp Hl [IH0 IH1]].
  - split; [done|]. intros x y rest Hp. by apply Permutation_nil_cons in Hp.
  - split.
    + intros Hn. apply Forall_cons in Hn as [Hn _]. by apply (null_product (x0, y0)).
    + intros x y rest Hp _. apply Permutation_singleton_l in Hp.
      injection Hp as -> -> _. apply Binary64.same_refl.
  - split.
    + intros Hn. apply Forall_cons in Hn as [Hn Hl0].
      eapply Binary64.same_is_zero; [by apply fma_null|]. by apply IH0.
    + intros x y rest Hp Hrest.
      apply Permutation_cons_cases in Hp as [[[= -> ->] Hp]|(r' & Hr & Hp)].
      * apply fma_from_zero, IH0. by rewrite Hp.
      * rewrite Hr in Hrest. apply Forall_cons in Hrest as [Hn Hrest].
        eapply Binary64.same_trans; [by apply fma_null|]. by eapply IH1.
  - split.
    + intros Hn. apply Forall_app in Hn as [Hn1 Hn2]. apply add_zeros; auto.
    + intros x y rest Hp Hrest.
      apply Permutation_app_cons_cases in Hp as [(r & Hr & Hp)|(r & Hr & Hp)];
        rewrite Hp in Hrest; apply Forall_app in Hrest as [Hn1 Hn2].
      * apply same_add_zero_r; [by eapply IH11|by apply IH20].
      * apply same_add_zero_l; [by apply IH10|by eapply IH21].
  - split.
    + intros Hn. apply IH0. by rewrite Hp.
    + intros x y rest Hq Hrest. apply (IH1 x y rest); [|done]. by rewrite Hp.
Qed.

(** A row of the diagonal rate matrix against finite products. *)
Lemma inner_product_diag (n i : nat) (k pi s : float) (p : list float) :
  length p = n -> p !! i = Some pi ->
  Forall (fun x => is_finite x = true) p ->
  Blas.inner_product (zip (<[i := k]> (Np.zeros n)) p) s ->
  Binary64.same s (k * pi).
Proof.
  intros Hlen Hi Hfin Hs. unfold Np.zeros in Hs.
  pose proof (lookup_lt_Some _ _ _ Hi) as Hlt.
  rewrite <- (take_drop_middle p i pi Hi) in Hs.
  rewrite insert_replicate_lt in Hs by lia.
  rewrite zip_with_app in Hs by (rewrite length_replicate, length_take; lia).
  cbn [zip_with] in Hs.
  apply inner_product_null in Hs as [_ Hs].
  eapply Hs; [symmetry; apply Permutation_middle|].
  assert (forall (zs q : list float),
            Forall (fun z => z = 0) zs -> Forall (fun x => is_finite x = true) q ->
            Forall null (zip_with pair zs q)) as Hnull.
  { intros zs q Hzs Hq. apply Forall_forall. intros xy Hxy.
    apply elem_of_lookup_zip_with in Hxy as (j & z & x & -> & Hz & Hx).
    split; cbn.
    - rewrite Forall_forall in Hzs. apply Hzs. by eapply list_elem_of_lookup_2.
    - rewrite Forall_forall in Hq. apply Hq. by eapply list_elem_of_lookup_2. }
  apply Forall_app. split; apply Hnull.
  - apply Forall_forall. by intros z [-> _]%elem_of_replicate.
  - by apply Forall_take.
  - apply Forall_forall. by intros z [-> _]%elem_of_replicate.
  - by apply Forall_drop.
Qed.

(** Adding the products from left to right is one of the ways. *)
Lemma inner_product_fold (xs : list (float * float)) :
  forall (l : list (float * float)) (s : float),
  Blas.inner_product l s ->
  Blas.inner_product (l ++ xs)
    (fold_left PrimFloat.add ((fun xy => xy.1 * xy.2) <$> xs) s).
Proof.
  induction xs as [|[x y] xs IH]; intros l s Hl; cbn.
  - by rewrite app_nil_r.
  - change ((x, y) :: xs) with ([(x, y)] ++ xs). rewrite app_assoc.
    apply IH. apply Blas.inner_add; [done|apply Blas.inner_mul].
Qed.

Lemma inner_in_order (row v : list float) :
  Blas.inner_product (zip row v) (Np.inner row v).
Proof.
  unfold Np.inner.
  assert (zip_with PrimFloat.mul row v = (fun xy => xy.1 * xy.2) <$> zip row v) as ->.
  { revert v. induction row as [|x row IH]; intros [|y v]; cbn; try done.
    by rewrite IH. }
  destruct (zip row v) as [|[x y] xs]; cbn; [constructor|].
  apply (inner_product_fold xs [(x, y)]). constructor.
Qed.

Lemma in_order_faithful : Blas.faithful Blas.in_order.
Proof.
  intros m v _. unfold Blas.in_order.
  apply Forall2_fmap_r, Forall_Forall2_diag, Forall_forall.
  intros row _. apply inner_in_order.
Qed.

Lemma forallb_lengths (m : list (list float)) (n : nat) :
  forallb (fun row => Nat.eqb (length row) n) m = true
  <-> Forall (fun row => length row = n) m.
Proof.
  rewrite forallb_forall, Forall_forall.
  split; intros H row Hrow.
  - apply Nat.eqb_eq, H. by apply list_elem_of_In.
  - apply Nat.eqb_eq, H. by apply list_elem_of_In.
Qed.

(** With the products added from left to right, [Blas.dot] is [Np.dot]. *)
Lemma dot_in_order (m : list (list float)) (v : list float) :
  Blas.dot Blas.in_order m v = Np.dot m v.
Proof.
  unfold Blas.dot, Np.dot, Blas.in_order.
  induction m as [|row m IH]; [done|].
  cbn [forallb fmap list_fmap mapM].
  destruct (Nat.eqb_spec (length row) (length v)) as [Hrow|Hrow].
  - assert (Np.dot_row row v = Some (Np.inner row v)) as ->
      by (unfold Np.dot_row; by rewrite decide_True).
    cbn [andb mbind option_bind]. rewrite <- IH. by destruct (forallb _ m).
  - assert (Np.dot_row row v = None) as ->
      by (unfold Np.dot_row; by rewrite decide_False).
    done.
Qed.

Lemma compute_mass_action_rates_in_order (power : float -> float -> float)
  (self : MassActionReactions) (c : list float) :
  Blas.compute_mass_action_rates power Blas.in_order self c
  = compute_mass_action_rates power self c.
Proof.
  unfold Blas.compute_mass_action_rates, compute_mass_action_rates.
  destruct (np_power power c (A self)) as [p|]; [|done]. cbn [mbind option_bind].
  rewrite dot_in_order. destruct (Np.dot _ _) as [w|]; [|done].
  cbn [mbind option_bind]. apply dot_in_order.
Qed.

Section MassActionFacts.

Variable power : float -> float -> float.
Variable gemv : Np.mat -> Np.vec -> Np.vec.

Lemma np_power_rows (c : list float) (a : list (list float)) :
  Forall (fun row => length row = length c) a ->
  np_power power c a = Some (zip_with power c <$> a).
Proof.
  intros H. apply mapM_fmap_total. eapply Forall_impl; [exact H|].
  intros row Hrow. unfold power_row. by rewrite decide_True.
Qed.

Lemma dot_rows (m : list (list float)) (v : list float) :
  Forall (fun row => length row = length v) m ->
  Np.dot m v = Some ((fun row => Np.inner row v) <$> m).
Proof.
  intros H. apply mapM_fmap_total. eapply Forall_impl; [exact H|].
  intros row Hrow. unfold Np.dot_row. by rewrite decide_True.
Qed.

Lemma column_length (m : list (list float)) (j : nat) :
  length (Np.column m j) = length m.
Proof. unfold Np.column. by rewrite length_fmap. Qed.

Lemma transpose_rows (m : list (list float)) (n : nat) :
  m <> [] -> Forall (fun row => length row = n) m ->
  Np.transpose m = Np.column m <$> seq 0 n.
Proof.
  destruct m as [|r m]; [done|]. intros _ H.
  apply Forall_cons in H as [<- _]. reflexivity.
Qed.

(** The populated branch of [compute_mass_action_rates], entry by entry. *)
Lemma mass_action_entries (self : MassActionReactions) (c : list float) :
  ma_shaped self (length c) ->
  let p := mass_action_product power c <$> self.(A) in
  let w := (fun row => Np.inner row p) <$> self.(K) in
  exists d, compute_mass_action_rates power self c = Some d /\
    length d = length c /\
    forall j, (j < length c)%nat ->
      d !! j = Some (Np.inner (Np.column self.(N) j) w).
Proof.
  intros [HA HN HNA HN0 HKA HK] p w.
  unfold compute_mass_action_rates.
  rewrite np_power_rows by done. cbn [mbind option_bind].
  assert (Np.prod_axis1 (zip_with power c <$> A self) = p) as ->.
  { unfold Np.prod_axis1, p. rewrite <- list_fmap_compose. reflexivity. }
  rewrite dot_rows.
  2:{ eapply Forall_impl; [exact HK|]. intros row ->. unfold p. by rewrite length_fmap. }
  cbn [mbind option_bind]. fold w.
  rewrite (transpose_rows _ (length c)) by done.
  rewrite dot_rows.
  2:{ apply Forall_fmap, Forall_forall. intros j _. cbn.
      rewrite column_length. unfold w. rewrite length_fmap. congruence. }
  eexists. split; [reflexivity|]. split.
  - by rewrite !length_fmap, length_seq.
  - intros j Hj. rewrite !list_lookup_fmap, lookup_seq_lt by done. reflexivity.
Qed.

(** A species whose exponent is zero does not enter the product. *)
Lemma product_ignores_zero_exponent (c row : list float) (j : nat) (x : float) :
  (forall y, power y 0 = 1) -> row !! j = Some 0 ->
  mass_action_product power (<[j := x]> c) row = mass_action_product power c row.
Proof.
  intros Hpow Hrow. unfold mass_action_product. f_equal.
  apply list_eq. intros i. rewrite !lookup_zip_with.
  destruct (decide (j = i)) as [<-|Hne].
  - rewrite Hrow. destruct (c !! j) as [y|] eqn:Hc.
    + rewrite list_lookup_insert_eq by (by eapply lookup_lt_Some).
      cbn. by rewrite !Hpow.
    + rewrite list_insert_ge by (by apply lookup_ge_None). by rewrite Hc.
  - by rewrite list_lookup_insert_ne.
Qed.

Lemma init_populated (rs rn : list string) (a n : list (list float))
  (ks : list float) (self : MassActionReactions) :
  MassActionReactions_init (PyList rs) (PyList a) (PyList n) (PyList rn) (PyList ks)
  = Some (Populated self) ->
  self.(A) = a /\ self.(N) = n /\ self.(K) = Np.diag ks /\ n <> [].
Proof.
  unfold MassActionReactions_init. cbn [type_of types_all forallb pytype_eqb andb].
  destruct (Np.vstack n) as [n'|] eqn:Hn; [|done]. cbn [mbind option_bind].
  destruct (Np.vstack a) as [a'|] eqn:Ha; [|done]. cbn [mbind option_bind].
  intros [= <-]. cbn.
  unfold Np.vstack in Hn, Ha.
  destruct n as [|r n]; [done|]. destruct a as [|r' a]; [done|].
  case_match; [|done]. case_match; [|done].
  by simplify_eq.
Qed.

Lemma diag_shape (ks : list float) :
  length (Np.diag ks) = length ks /\
  Forall (fun row => length row = length ks) (Np.diag ks) /\
  forall i k, ks !! i = Some k ->
    Np.diag ks !! i = Some (<[i := k]> (Np.zeros (length ks))).
Proof.
  unfold Np.diag. split; [by rewrite length_imap|]. split.
  - apply Forall_forall. intros row Hrow.
    apply elem_of_lookup_imap in Hrow as (i & k & -> & _). np_length.
  - intros i k Hk. by rewrite list_lookup_imap, Hk.
Qed.

Lemma dot_faithful (m : list (list float)) (v : list float) :
  Blas.faithful gemv ->
  Forall (fun row => length row = length v) m ->
  exists w, Blas.dot gemv m v = Some w /\ length w = length m /\
    forall i row, m !! i = Some row ->
      exists s, w !! i = Some s /\ Blas.inner_product (zip row v) s.
Proof.
  intros Hgemv Hm. exists (gemv m v). unfold Blas.dot.
  rewrite (proj2 (forallb_lengths m (length v)) Hm). split; [done|].
  pose proof (Hgemv m v Hm) as Hf. split.
  - symmetry. by eapply Forall2_length.
  - intros i row Hrow.
    destruct (Forall2_lookup_l _ _ _ _ _ Hf Hrow) as (s & Hs & Hin). by exists s.
Qed.

(** C1 (as amended).  For a set built by the constructor from [R] rows of
    [S] exponents, [R] rows of net stoichiometries and [R] rate constants,
    and a vector [c] of [S] concentrations, the mass-action contribution is
    [N^T . (K . p)], where [K] is the diagonal matrix of the rate constants
    and [p_i] is the product over the species of [c_j ^ A[i,j]]: entry [i]
    of [w = K . p] is an inner product of row [i] of [K] with [p], and
    entry [j] of the result is an inner product of column [j] of [N] with
    [w], each as the BLAS library adds it up, in whatever order and
    grouping.  The rate constant enters once, through [K]: when every
    product is finite, entry [i] of [K . p] is [rate_constant_i * p_i], up
    to the sign of a zero.  A species whose exponent in reaction [i] is
    zero contributes the factor 1 and so does not affect [p_i]. *)
Theorem mass_action_rates_formula
  (rs rn : list string) (a n : list (list float)) (ks : list float)
  (self : MassActionReactions) (c : list float) :
  (forall y, power y 0 = 1) ->
  Blas.faithful gemv ->
  MassActionReactions_init (PyList rs) (PyList a) (PyList n) (PyList rn) (PyList ks)
  = Some (Populated self) ->
  Forall (fun row => length row = length c) a ->
  Forall (fun row => length row = length c) n ->
  length n = length a -> length ks = length a ->
  let p := mass_action_product power c <$> a in
  (exists w d,
     Blas.dot gemv (Np.diag ks) p = Some w /\
     Blas.compute_mass_action_rates power gemv self c = Some d /\
     length w = length ks /\ length d = length c /\
     (forall i row, Np.diag ks !! i = Some row ->
        exists wi, w !! i = Some wi /\ Blas.inner_product (zip row p) wi) /\
     (forall j, (j < length c)%nat ->
        exists dj, d !! j = Some dj /\
                   Blas.inner_product (zip (Np.column n j) w) dj) /\
     (Forall (fun x => is_finite x = true) p ->
      forall i k, ks !! i = Some k ->
        exists wi pi, w !! i = Some wi /\ p !! i = Some pi /\
                      Binary64.same wi (k * pi))) /\
  (forall i k, ks !! i = Some k ->
     Np.diag ks !! i = Some (<[i := k]> (Np.zeros (length ks)))) /\
  (forall row j x, row ∈ a -> row !! j = Some 0 ->
     mass_action_product power (<[j := x]> c) row = mass_action_product power c row).
Proof.
  intros Hpow Hgemv Hinit Ha Hn Hna Hka p.
  destruct (init_populated _ _ _ _ _ _ Hinit) as (HA & HN & HK & Hn0).
  destruct (diag_shape ks) as (Hd1 & Hd2 & Hd3).
  assert (length p = length ks) as Hp by (unfold p; by rewrite length_fmap).
  split; [|split].
  - destruct (dot_faithful (Np.diag ks) p Hgemv) as (w & Hw & Hwlen & Hwent).
    { by rewrite Hp. }
    rewrite Hd1 in Hwlen.
    destruct (dot_faithful (Np.transpose n) w Hgemv) as (d & Hd & Hdlen & Hdent).
    { rewrite (transpose_rows _ (length c)) by done.
      apply Forall_fmap, Forall_forall. intros j _. cbn.
      rewrite column_length. congruence. }
    rewrite (transpose_rows _ (length c)), length_fmap, length_seq in Hdlen by done.
    exists w, d. split; [done|]. split.
    { unfold Blas.compute_mass_action_rates. rewrite HA, HN, HK.
      rewrite np_power_rows by done. cbn [mbind option_bind].
      assert (Np.prod_axis1 (zip_with power c <$> a) = p) as ->.
      { unfold Np.prod_axis1, p. rewrite <- list_fmap_compose. reflexivity. }
      rewrite Hw. cbn [mbind option_bind]. exact Hd. }
    split; [done|]. split; [done|]. split; [exact Hwent|]. split.
    + intros j Hj. apply Hdent.
      rewrite (transpose_rows _ (length c)) by done.
      by rewrite list_lookup_fmap, lookup_seq_lt.
    + intros Hfin i k Hk.
      destruct (lookup_lt_is_Some_2 p i) as [pi Hpi].
      { rewrite Hp. by eapply lookup_lt_Some. }
      destruct (Hwent i _ (Hd3 i k Hk)) as (wi & Hwi & Hin).
      exists wi, pi. split; [done|]. split; [done|].
      exact (inner_product_diag (length ks) i k pi wi p Hp Hpi Hfin Hin).
  - exact Hd3.
  - intros row j x _ Hrow. by apply product_ignores_zero_exponent.
Qed.

End MassActionFacts.

Lemma pow_01_zero (y : float) : pow_01 y 0 = 1.
Proof. reflexivity. Defined.

Lemma mass_action_rates_formula_witness :
  (forall y, pow_01 y 0 = 1) /\
  Blas.faithful Blas.in_order /\
  MassActionReactions_init (PyList ["A -> B"%string]) (PyList [[1; 0]])
    (PyList [[-1; 1]]) (PyList ["k"%string]) (PyList [2])
  = Some (Populated a_to_b) /\
  let c := [3; 5] in
  let p := mass_action_product pow_01 c <$> [[1; 0]] in
  (exists w d,
     Blas.dot Blas.in_order (Np.diag [2]) p = Some w /\
     Blas.compute_mass_action_rates pow_01 Blas.in_order a_to_b c = Some d /\
     length w = length [2] /\ length d = length c /\
     (forall i row, Np.diag [2] !! i = Some row ->
        exists wi, w !! i = Some wi /\ Blas.inner_product (zip row p) wi) /\
     (forall j, (j < length c)%nat ->
        exists dj, d !! j = Some dj /\
                   Blas.inner_product (zip (Np.column [[-1; 1]] j) w) dj) /\
     (Forall (fun x => is_finite x = true) p ->
      forall i k, [2] !! i = Some k ->
        exists wi pi, w !! i = Some wi /\ p !! i = Some pi /\
                      Binary64.same wi (k * pi))) /\
  (forall i k, [2] !! i = Some k ->
     Np.diag [2] !! i = Some (<[i := k]> (Np.zeros (length [2])))) /\
  (forall row j x, row ∈ [[1; 0]] -> row !! j = Some 0 ->
     mass_action_product pow_01 (<[j := x]> c) row = mass_action_product pow_01 c row).
Proof.
  split; [exact pow_01_zero|]. split; [exact in_order_faithful|].
  split; [reflexivity|].
  apply (mass_action_rates_formula pow_01 Blas.in_order ["A -> B"%string]
           ["k"%string] [[1; 0]] [[-1; 1]] [2] a_to_b [3; 5]).
  - exact pow_01_zero.
  - exact in_order_faithful.
  - reflexivity.
  - repeat constructor.
  - repeat constructor.
  - reflexivity.
  - reflexivity.
Defined.

Lemma float_list_neq (x y : float) (l k : list float) :
  (x =? y) = false -> is_nan x = false -> Some (x :: l) <> Some (y :: k).
Proof.
  intros Hxy Hx [= -> _]. unfold is_nan in Hx. by rewrite Hxy in Hx.
Qed.

(** C1, as stated, fails: for [A -> B] with rate constant 2 at [A = 3] the
    code returns [-6; 6], while [N^T . (K . r)] with the rate constant also
    inside [r] is [-12; 12]. *)
Lemma mass_action_rates_counterexample :
  compute_mass_action_rates pow_01 a_to_b [3; 5] = Some [-6; 6] /\
  claimed_mass_action_rates pow_01 a_to_b [3; 5] = Some [-12; 12] /\
  compute_mass_action_rates pow_01 a_to_b [3; 5]
  <> claimed_mass_action_rates pow_01 a_to_b [3; 5].
Proof.
  split; [vm_compute; reflexivity|]. split; [vm_compute; reflexivity|].
  vm_compute. by apply float_list_neq.
Qed.

(** ** Constructors *)

(** C9.  The claim asks for a construction error when the arguments are
    neither all [None] nor all lists.  Both constructors return normally
    instead, and leave an object without attributes. *)
Theorem invalid_arguments_raise_nothing
  (reactions rate_names0 : pyarg string) (A0 N0 : pyarg (list float))
  (rates0 : pyarg float)
  (reactions' : pyarg string) (substrates products : pyarg (nat * Z))
  (enzymes : pyarg nat) (Kms0 kcats0 : pyarg (string * float)) :
  let types := [type_of reactions; type_of A0; type_of N0;
                type_of rate_names0; type_of rates0] in
  let types' := [type_of reactions'; type_of substrates; type_of enzymes;
                 type_of products; type_of Kms0; type_of kcats0] in
  types_all NoneType types = false -> types_all ListType types = false ->
  types_all NoneType types' = false -> types_all ListType types' = false ->
  MassActionReactions_init reactions A0 N0 rate_names0 rates0 = Some Unset /\
  MichaelisMentenReactions_init reactions' substrates enzymes products Kms0 kcats0
  = Some Unset.
Proof.
  intros types types' H1 H2 H3 H4. split.
  - unfold MassActionReactions_init. fold types. by rewrite H1, H2.
  - unfold MichaelisMentenReactions_init. fold types'. by rewrite H3, H4.
Qed.

Lemma invalid_arguments_raise_nothing_witness :
  let types := [ListType; NoneType; NoneType; NoneType; NoneType] in
  let types' := [ListType; OtherType; NoneType; NoneType; NoneType; NoneType] in
  (types_all NoneType types = false /\ types_all ListType types = false /\
   types_all NoneType types' = false /\ types_all ListType types' = false) /\
  MassActionReactions_init (PyList ["A -> B"%string]) PyNone PyNone PyNone PyNone
  = Some Unset /\
  MichaelisMentenReactions_init (PyList ["E + S -> E + P"%string]) PyOther PyNone
    PyNone PyNone PyNone
  = Some Unset.
Proof.
  split; [repeat split|].
  apply (invalid_arguments_raise_nothing
           (PyList ["A -> B"%string]) PyNone PyNone PyNone PyNone
           (PyList ["E + S -> E + P"%string]) PyOther PyNone PyNone PyNone PyNone);
    reflexivity.
Defined.

(** ** Reversible reactions *)

Lemma setitem_fresh {V} (d : list (string * V)) (k : string) (v : V) :
  k ∉ Py.keys d -> Py.setitem d k v = d ++ [(k, v)].
Proof.
  induction d as [|[k' v'] d IH]; cbn; [done|].
  intros Hk. apply not_elem_of_cons in Hk as [Hne Hk].
  destruct (String.eqb_spec k' k) as [->|_]; [done|].
  by rewrite IH.
Qed.

Lemma index_is_Some (x : string) (l : list string) :
  x ∈ l -> is_Some (Py.index x l).
Proof.
  induction l as [|y l IH]; [by intros ?%elem_of_nil|].
  intros Hx. cbn. destruct (String.eqb_spec y x) as [->|Hne]; [by eexists|].
  apply elem_of_cons in Hx as [->|Hx]; [done|].
  destruct (IH Hx) as [i ->]. by eexists.
Qed.

Lemma index_replace_first (x new : string) (l : list string) (i : nat) :
  Py.index x l = Some i -> <[i := new]> l = replace_first x new l.
Proof.
  revert i. induction l as [|y l IH]; intros i; cbn; [done|].
  destruct (String.eqb_spec y x) as [->|Hne].
  - by intros [= <-].
  - destruct (Py.index x l) as [j|]; [|done]. cbn. intros [= <-]. cbn.
    f_equal. by apply IH.
Qed.

(** One reversible entry stores its forward and then its reverse equation. *)
Lemma process_reaction_reversible (acc : list (string * list (string * float)))
  (reaction f r : string) (fv rv : float) :
  Py.contains "<->" reaction = true ->
  "<->"%string ∈ Py.split " " reaction -> f <> r ->
  process_reaction acc reaction [(f, fv); (r, rv)]
  = Some (Py.setitem (Py.setitem acc (forward_equation reaction) [(f, fv)])
            (reverse_equation reaction) [(r, rv)]).
Proof.
  intros Hc Htok Hfr. unfold process_reaction. rewrite Hc. cbn [Py.keys fmap list_fmap fst].
  destruct (index_is_Some _ _ Htok) as [i Hi]. rewrite Hi. cbn [mbind option_bind].
  rewrite (index_replace_first _ _ _ _ Hi).
  cbn [Py.getitem]. rewrite String.eqb_refl. cbn [mbind option_bind].
  destruct (String.eqb_spec f r) as [?|_]; [done|].
  rewrite String.eqb_refl. reflexivity.
Qed.

Lemma process_reactions_concat (items : list (string * list (string * float))) :
  forall acc,
    Forall well_formed_entry items ->
    NoDup (Py.keys acc ++ Py.keys (flat_map split_entry items)) ->
    process_reactions acc items = Some (acc ++ flat_map split_entry items).
Proof.
  induction items as [|[reaction constants] items IH]; intros acc Hwf Hnd.
  - cbn. by rewrite app_nil_r.
  - apply Forall_cons in Hwf as [Hentry Hwf].
    cbn [process_reactions flat_map split_entry] in *.
    destruct (Py.contains "<->" reaction) eqn:Hc.
    + destruct (Hentry Hc) as (Htok & f & fv & r & rv & Hconst & Hfr).
      cbn in Hconst. subst constants.
      rewrite process_reaction_reversible by done. cbn [mbind option_bind].
      unfold Py.keys in Hnd. cbn [app fmap list_fmap fst] in Hnd.
      fold (@Py.keys (list (string * float))) in Hnd.
      assert (forward_equation reaction ∉ Py.keys acc) as Hf.
      { intros Hin. apply NoDup_app in Hnd as (_ & Hdis & _).
        apply (Hdis _ Hin). unfold Py.keys. cbn. left. }
      rewrite (setitem_fresh acc) by done.
      assert (reverse_equation reaction
              ∉ Py.keys (acc ++ [(forward_equation reaction, [(f, fv)])])) as Hr.
      { unfold Py.keys. rewrite fmap_app. cbn. intros Hin.
        apply NoDup_app in Hnd as (_ & Hdis & Hnd').
        apply elem_of_app in Hin as [Hin|Hin].
        - apply (Hdis _ Hin). unfold Py.keys. cbn. right. left.
        - apply list_elem_of_singleton in Hin.
          unfold Py.keys in Hnd'. cbn in Hnd'.
          apply NoDup_cons in Hnd' as [Hnotin _].
          apply Hnotin. rewrite <- Hin. left. }
      rewrite setitem_fresh by done.
      rewrite IH; [by rewrite <- !app_assoc|done|].
      unfold Py.keys in *. cbn in Hnd. rewrite !fmap_app. cbn.
      by rewrite <- !app_assoc.
    + unfold process_reaction. rewrite Hc. cbn [mbind option_bind].
      unfold Py.keys in Hnd. cbn [app fmap list_fmap fst] in Hnd.
      fold (@Py.keys (list (string * float))) in Hnd.
      assert (reaction ∉ Py.keys acc) as Hk.
      { intros Hin. apply NoDup_app in Hnd as (_ & Hdis & _).
        apply (Hdis _ Hin). unfold Py.keys. cbn. left. }
      rewrite setitem_fresh by done.
      rewrite IH; [by rewrite <- app_assoc|done|].
      unfold Py.keys in *. cbn in Hnd. rewrite fmap_app. cbn.
      by rewrite <- app_assoc.
Qed.

(** C5 (as amended).  When every reversible entry has ['<->'] as one of its
    space-separated tokens and maps two distinct names to rates, and the
    equations written out are pairwise distinct, the splitter returns, in
    order, for each reversible entry its forward equation with the first
    rate and its reverse equation with the second, each as a singleton
    entry, and every other entry unchanged. *)
Theorem process_reaction_dict_splits
  (reaction_dict : list (string * list (string * float))) :
  Forall well_formed_entry reaction_dict ->
  NoDup (Py.keys (flat_map split_entry reaction_dict)) ->
  _process_reaction_dict reaction_dict = Some (flat_map split_entry reaction_dict).
Proof.
  intros Hwf Hnd. unfold _process_reaction_dict.
  by rewrite process_reactions_concat.
Qed.

Lemma process_reaction_dict_splits_witness :
  let d := [("A <-> B"%string, [("k1"%string, 1); ("k2"%string, 2)]);
            ("B -> C"%string, [("k3"%string, 3)])] in
  Forall well_formed_entry d /\
  NoDup (Py.keys (flat_map split_entry d)) /\
  _process_reaction_dict d
  = Some [("A -> B"%string, [("k1"%string, 1)]);
          ("B -> A"%string, [("k2"%string, 2)]);
          ("B -> C"%string, [("k3"%string, 3)])].
Proof.
  intros d.
  assert (Forall well_formed_entry d) as Hwf.
  { apply Forall_cons. split; [|apply Forall_cons; split; [|constructor]].
    - intros _. split.
      + apply (bool_decide_unpack _). vm_compute. reflexivity.
      + exists "k1"%string, 1, "k2"%string, 2. split; [reflexivity|discriminate].
    - intros H. vm_compute in H. discriminate H. }
  assert (NoDup (Py.keys (flat_map split_entry d))) as Hnd.
  { apply (bool_decide_unpack _). vm_compute. reflexivity. }
  split; [exact Hwf|]. split; [exact Hnd|].
  exact (process_reaction_dict_splits d Hwf Hnd).
Defined.

(** C5, as stated, fails: the entry ["A <-> A"] reads the same in both
    directions, its reverse equation overwrites its forward one, and one
    entry comes out where the claim has two. *)
Lemma process_reaction_dict_counterexample :
  let d := [("A <-> A"%string, [("k1"%string, 1); ("k2"%string, 2)])] in
  _process_reaction_dict d = Some [("A -> A"%string, [("k2"%string, 2)])] /\
  flat_map split_entry d
  = [("A -> A"%string, [("k1"%string, 1)]); ("A -> A"%string, [("k2"%string, 2)])].
Proof. split; vm_compute; reflexivity. Qed.

(** ** Species discovery *)

(** The species are the tokens that are neither syntax nor numbers, each
    once, and the tokens are cut at single spaces. *)
Lemma discover_species_elem (ma mm : list string) (x : string) :
  x ∈ discover_species ma mm <->
  (exists key, key ∈ merged_keys ma mm /\ x ∈ Py.split " " key) /\ is_specie x = true.
Proof.
  unfold discover_species.
  rewrite elem_of_elements, elem_of_list_to_set, list_elem_of_filter.
  rewrite list_elem_of_join. split.
  - intros (Hs & toks & Hx & Htoks). split; [|done].
    apply list_elem_of_fmap in Htoks as (key & -> & Hkey). eauto.
  - intros ((key & Hkey & Hx) & Hs). split; [done|].
    exists (Py.split " " key). split; [done|].
    apply list_elem_of_fmap. eauto.
Qed.

Lemma discover_species_NoDup (ma mm : list string) : NoDup (discover_species ma mm).
Proof. apply NoDup_elements. Qed.

(** C8.  The claim asks for the same species list whatever the whitespace.
    With one more space in ["A -> B"] the empty token between the two
    spaces becomes a third species, and without spaces the whole equation
    becomes the only species; the equation parser reads the three
    spellings alike. *)
Theorem species_depend_on_whitespace :
  discover_species ["A -> B"%string] [] ≡ₚ ["A"%string; "B"%string] /\
  discover_species ["A  -> B"%string] [] ≡ₚ ["A"%string; "B"%string; ""%string] /\
  discover_species ["A->B"%string] [] = ["A->B"%string] /\
  discover_species ["A  -> B"%string] [] <> discover_species ["A -> B"%string] [] /\
  parse_sides "A -> B" = Some ([["A"%string]], [["B"%string]]) /\
  parse_sides "A  -> B" = Some ([["A"%string]], [["B"%string]]) /\
  parse_sides "A->B" = Some ([["A"%string]], [["B"%string]]).
Proof.
  assert (discover_species ["A -> B"%string] [] = ["A"%string; "B"%string]) as E1
    by (vm_compute; reflexivity).
  assert (discover_species ["A  -> B"%string] []
          = ["A"%string; "B"%string; ""%string]) as E2
    by (vm_compute; reflexivity).
  rewrite E1, E2. split; [reflexivity|]. split; [reflexivity|].
  split; [vm_compute; reflexivity|]. split; [discriminate|].
  repeat split; vm_compute; reflexivity.
Qed.

(** ** The update dictionary *)

Lemma insert_all_lookup {V} (kvs : list (string * V)) :
  forall (acc : gmap string V) (k : string) (v : V),
    insert_all kvs acc !! k = Some v -> (k, v) ∈ kvs \/ acc !! k = Some v.
Proof.
  induction kvs as [|[k' v'] kvs IH]; intros acc k v; cbn; [by right|].
  intros H. apply IH in H as [H|H]; [left; by right|].
  destruct (decide (k' = k)) as [->|Hne].
  - rewrite lookup_insert_eq in H. injection H as ->. left. left.
  - rewrite lookup_insert_ne in H by done. by right.
Qed.

Lemma insert_all_is_Some {V} (kvs : list (string * V)) :
  forall (acc : gmap string V) (k : string),
    k ∈ kvs.*1 \/ is_Some (acc !! k) -> is_Some (insert_all kvs acc !! k).
Proof.
  induction kvs as [|[k' v'] kvs IH]; intros acc k; cbn.
  - intros [H|H]; [by apply elem_of_nil in H|done].
  - intros [H|H]; apply IH.
    + apply elem_of_cons in H as [->|H]; [right|by left].
      rewrite lookup_insert_eq. by eexists.
    + right. destruct (decide (k' = k)) as [->|Hne].
      * rewrite lookup_insert_eq. by eexists.
      * by rewrite lookup_insert_ne.
Qed.

Lemma fold_enumerate {X} (tk : token) (l : list X) (name : X -> string) :
  forall (f : nat -> nat) (acc : gmap string (nat * token)),
    fold_left (fun d '(i, x) => <[name x := (i, tk)]> d)
      (imap (fun i x => (f i, x)) l) acc
    = insert_all (imap (fun i x => (name x, (f i, tk))) l) acc.
Proof.
  induction l as [|x l IH]; intros f acc; [done|]. cbn.
  exact (IH (f ∘ S) _).
Qed.

Lemma fold_enumerate2 (l : list (string * string)) :
  forall (f : nat -> nat) (acc : gmap string (nat * token)),
    fold_left
      (fun d '(index, (Km_name, kcat_name)) =>
         <[kcat_name := _make_update_function index T_kcat]>
           (<[Km_name := _make_update_function index T_Km]> d))
      (imap (fun i x => (f i, x)) l) acc
    = insert_all
        (mjoin (imap (fun i x => [(x.1, (f i, T_Km)); (x.2, (f i, T_kcat))]) l)) acc.
Proof.
  induction l as [|[a b] l IH]; intros f acc; [done|]. cbn.
  exact (IH (f ∘ S) _).
Qed.

Lemma initial_concen_update_eq (sp : list string) :
  initial_concen_update sp
  = insert_all (imap (fun i x => (x, (i, T_initial_concentration))) sp) ∅.
Proof. exact (fold_enumerate T_initial_concentration sp id id ∅). Qed.

Lemma initial_concen_update_lookup (sp : list string) (k : string)
  (i : nat) (tk : token) :
  initial_concen_update sp !! k = Some (i, tk) ->
  tk = T_initial_concentration /\ sp !! i = Some k.
Proof.
  rewrite initial_concen_update_eq. intros H.
  apply insert_all_lookup in H as [H|H]; [|by rewrite lookup_empty in H].
  apply elem_of_lookup_imap in H as (j & x & [= -> -> ->] & Hx). done.
Qed.

Lemma initial_concen_update_is_Some (sp : list string) (k : string) :
  k ∈ sp -> is_Some (initial_concen_update sp !! k).
Proof.
  rewrite initial_concen_update_eq. intros Hk.
  apply insert_all_is_Some. left.
  apply list_elem_of_lookup in Hk as [i Hi].
  apply list_elem_of_fmap. exists (k, (i, T_initial_concentration)).
  split; [done|]. apply elem_of_lookup_imap. eauto.
Qed.

Lemma mass_action_update_lookup (ma : instance MassActionReactions)
  (a : gmap string (nat * token)) (k : string) (i : nat) (tk : token) :
  mass_action_update ma = Some a -> a !! k = Some (i, tk) ->
  tk = T_rate_constant /\
  exists r, ma = Populated r /\ r.(rate_names) !! i = Some k.
Proof.
  destruct ma as [|r|]; cbn; [| |done].
  - intros [= <-]. by rewrite lookup_empty.
  - intros [= <-]. destruct (truthy (ma_reactions r)); [|by rewrite lookup_empty].
    change (fold_left _ _ _)
      with (fold_left (fun d '(i, x) => <[id x := (i, T_rate_constant)]> d)
              (imap (fun i x => (id i, x)) r.(rate_names)) (∅ : gmap string (nat * token))).
    rewrite fold_enumerate. intros H.
    apply insert_all_lookup in H as [H|H]; [|by rewrite lookup_empty in H].
    apply elem_of_lookup_imap in H as (j & x & [= -> -> ->] & Hx). eauto.
Qed.

Lemma michaelis_menten_update_lookup (mm : instance MichaelisMentenReactions)
  (b : gmap string (nat * token)) (k : string) (i : nat) (tk : token) :
  michaelis_menten_update mm = Some b -> b !! k = Some (i, tk) ->
  exists r, mm = Populated r /\
    ((tk = T_Km /\ r.(Km_names) !! i = Some k) \/
     (tk = T_kcat /\ r.(kcat_names) !! i = Some k)).
Proof.
  destruct mm as [|r|]; cbn; [| |done].
  - intros [= <-]. by rewrite lookup_empty.
  - intros [= <-]. destruct (truthy (mm_reactions r)); [|by rewrite lookup_empty].
    change (fold_left _ _ _)
      with (fold_left
              (fun d '(index, (Km_name, kcat_name)) =>
                 <[kcat_name := _make_update_function index T_kcat]>
                   (<[Km_name := _make_update_function index T_Km]> d))
              (imap (fun i x => (id i, x)) (zip r.(Km_names) r.(kcat_names)))
              (∅ : gmap string (nat * token))).
    rewrite fold_enumerate2. intros H.
    apply insert_all_lookup in H as [H|H]; [|by rewrite lookup_empty in H].
    apply list_elem_of_join in H as (l & Hl & Hin).
    apply elem_of_lookup_imap in Hin as (j & [x y] & -> & Hxy).
    apply lookup_zip_Some in Hxy as [Hx Hy]. cbn in Hl.
    exists r. split; [done|].
    apply elem_of_cons in Hl as [[= -> -> ->]|Hl]; [by left|].
    apply list_elem_of_singleton in Hl as [= -> -> ->]. by right.
Qed.

(** Where an entry of the merged dictionary comes from. *)
Lemma update_dictionary_origin (self : ChemicalReactionNetwork)
  (d : gmap string (nat * token)) (k : string) (i : nat) (tk : token) :
  _create_update_dictionary self = Some d -> d !! k = Some (i, tk) ->
  (tk = T_initial_concentration /\ self.(species) !! i = Some k) \/
  ((k ∉ self.(species)) /\
   ((tk = T_rate_constant /\
     exists r, self.(mass_action_reactions) = Populated r /\
               r.(rate_names) !! i = Some k) \/
    (exists r, self.(michaelis_menten_reactions) = Populated r /\
       ((tk = T_Km /\ r.(Km_names) !! i = Some k) \/
        (tk = T_kcat /\ r.(kcat_names) !! i = Some k))))).
Proof.
  unfold _create_update_dictionary, merge3.
  destruct (mass_action_update _) as [a|] eqn:Ha; [|done]. cbn [mbind option_bind].
  destruct (michaelis_menten_update _) as [b|] eqn:Hb; [|done]. cbn [mbind option_bind].
  intros [= <-] Hk.
  apply lookup_union_Some_raw in Hk as [Hk|[Hnone Hk]].
  { left. by apply initial_concen_update_lookup. }
  right. split.
  { intros Hin. apply initial_concen_update_is_Some in Hin as [x Hx]. congruence. }
  apply lookup_union_Some_raw in Hk as [Hk|[_ Hk]].
  - right. by eapply michaelis_menten_update_lookup.
  - left. by eapply mass_action_update_lookup.
Qed.

Lemma setitem2_other (m m' : list (list float)) (i j : nat) (v : float) :
  setitem2 m j j v = Some m' -> i <> j -> m' !! i = m !! i.
Proof.
  unfold setitem2. destruct (m !! j) as [row|]; [|done]. cbn.
  destruct (setitem row j v) as [row'|]; [|done]. cbn.
  intros [= <-] Hij. by apply list_lookup_insert_ne.
Qed.

Lemma setitem_other (a a' : list float) (i j : nat) (v : float) :
  setitem a j v = Some a' -> i <> j -> a' !! i = a !! i.
Proof.
  unfold setitem. case_decide; [|done].
  intros [= <-] Hij. by apply list_lookup_insert_ne.
Qed.

(** C10.  When a rate-constant name, a Km name or a kcat name is also a
    species name, the update dictionary holds under that key the setter of
    the species' initial concentration; no key of the dictionary holds the
    setter of that rate constant, Km or kcat; and no setter of the
    dictionary changes its value. *)
Theorem species_name_shadows_parameter (self : ChemicalReactionNetwork)
  (name : string) :
  self.(mass_action_reactions) <> Unset ->
  self.(michaelis_menten_reactions) <> Unset ->
  name ∈ self.(species) ->
  exists d, _create_update_dictionary self = Some d /\
    (exists j, self.(species) !! j = Some name /\
               d !! name = Some (j, T_initial_concentration)) /\
    (forall i r, self.(mass_action_reactions) = Populated r ->
       r.(rate_names) !! i = Some name ->
       (forall k, d !! k <> Some (i, T_rate_constant)) /\
       (forall k f v self', d !! k = Some f -> update self f v = Some self' ->
          rate_constant_at self' i = rate_constant_at self i)) /\
    (forall i r, self.(michaelis_menten_reactions) = Populated r ->
       r.(Km_names) !! i = Some name ->
       (forall k, d !! k <> Some (i, T_Km)) /\
       (forall k f v self', d !! k = Some f -> update self f v = Some self' ->
          Km_at self' i = Km_at self i)) /\
    (forall i r, self.(michaelis_menten_reactions) = Populated r ->
       r.(kcat_names) !! i = Some name ->
       (forall k, d !! k <> Some (i, T_kcat)) /\
       (forall k f v self', d !! k = Some f -> update self f v = Some self' ->
          kcat_at self' i = kcat_at self i)).
Proof.
  intros Hma Hmm Hname.
  destruct (_create_update_dictionary self) as [d|] eqn:Hd.
  2:{ unfold _create_update_dictionary in Hd.
      destruct (mass_action_reactions self), (michaelis_menten_reactions self);
        cbn in Hd; done. }
  exists d. split; [done|].
  assert (forall k i tk, d !! k = Some (i, tk) -> tk <> T_initial_concentration ->
            k <> name) as Hother.
  { intros k i tk Hk Htk ->.
    destruct (update_dictionary_origin self d name i tk Hd Hk) as [[? _]|[? _]]; done. }
  split; [|split; [|split]].
  - assert (is_Some (d !! name)) as [[j tk] Hj].
    { unfold _create_update_dictionary, merge3 in Hd.
      destruct (mass_action_update _) as [a|]; [|done].
      destruct (michaelis_menten_update _) as [b|]; [|done].
      cbn in Hd. injection Hd as <-.
      destruct (initial_concen_update_is_Some _ _ Hname) as [x Hx].
      exists x. by apply lookup_union_Some_l. }
    destruct (update_dictionary_origin self d name j tk Hd Hj)
      as [[-> Hs]|[? _]]; [|done].
    by exists j.
  - intros i r Hr Hi.
    assert (forall k, d !! k <> Some (i, T_rate_constant)) as Hno.
    { intros k Hk. pose proof (Hother k i _ Hk ltac:(done)) as Hkn.
      destruct (update_dictionary_origin self d k i _ Hd Hk)
        as [[? _]|[_ [[_ (r' & Hr' & Hi')]|(r' & _ & [[? _]|[? _]])]]]; try done.
      congruence. }
    split; [exact Hno|].
    intros k [i' tk] v self' Hk Hup. unfold update in Hup.
    destruct tk.
    + rewrite Hr in Hup.
      destruct (setitem2 (K r) i' i' v) as [k'|] eqn:Hset; [|done].
      injection Hup as <-. unfold rate_constant_at. rewrite Hr. cbn.
      rewrite (setitem2_other _ _ i i' v Hset); [done|].
      intros ->. by apply (Hno k).
    + destruct (michaelis_menten_reactions self); try done.
      destruct (setitem _ _ _); [|done]. by injection Hup as <-.
    + destruct (michaelis_menten_reactions self); try done.
      destruct (setitem _ _ _); [|done]. by injection Hup as <-.
    + destruct (setitem _ _ _); [|done]. by injection Hup as <-.
  - intros i r Hr Hi.
    assert (forall k, d !! k <> Some (i, T_Km)) as Hno.
    { intros k Hk. pose proof (Hother k i _ Hk ltac:(done)) as Hkn.
      destruct (update_dictionary_origin self d k i _ Hd Hk)
        as [[? _]|[_ [[? _]|(r' & Hr' & [[_ Hi']|[? _]])]]]; try done.
      congruence. }
    split; [exact Hno|].
    intros k [i' tk] v self' Hk Hup. unfold update in Hup.
    destruct tk.
    + destruct (mass_action_reactions self); try done.
      destruct (setitem2 _ _ _ _); [|done]. by injection Hup as <-.
    + rewrite Hr in Hup.
      destruct (setitem (Kms r) i' v) as [k'|] eqn:Hset; [|done].
      injection Hup as <-. unfold Km_at. rewrite Hr. cbn.
      apply (setitem_other _ _ i i' v Hset).
      intros ->. by apply (Hno k).
    + rewrite Hr in Hup.
      destruct (setitem _ _ _); [|done]. injection Hup as <-.
      unfold Km_at. by rewrite Hr.
    + destruct (setitem _ _ _); [|done]. by injection Hup as <-.
  - intros i r Hr Hi.
    assert (forall k, d !! k <> Some (i, T_kcat)) as Hno.
    { intros k Hk. pose proof (Hother k i _ Hk ltac:(done)) as Hkn.
      destruct (update_dictionary_origin self d k i _ Hd Hk)
        as [[? _]|[_ [[? _]|(r' & Hr' & [[? _]|[_ Hi']])]]]; try done.
      congruence. }
    split; [exact Hno|].
    intros k [i' tk] v self' Hk Hup. unfold update in Hup.
    destruct tk.
    + destruct (mass_action_reactions self); try done.
      destruct (setitem2 _ _ _ _); [|done]. by injection Hup as <-.
    + rewrite Hr in Hup.
      destruct (setitem _ _ _); [|done]. injection Hup as <-.
      unfold kcat_at. by rewrite Hr.
    + rewrite Hr in Hup.
      destruct (setitem (kcats r) i' v) as [k'|] eqn:Hset; [|done].
      injection Hup as <-. unfold kcat_at. rewrite Hr. cbn.
      apply (setitem_other _ _ i i' v Hset).
      intros ->. by apply (Hno k).
    + destruct (setitem _ _ _); [|done]. by injection Hup as <-.
Qed.

Lemma species_name_shadows_parameter_witness :
  colliding_network.(mass_action_reactions) <> Unset /\
  colliding_network.(michaelis_menten_reactions) <> Unset /\
  "k"%string ∈ colliding_network.(species) /\
  exists d, _create_update_dictionary colliding_network = Some d /\
    (exists j, colliding_network.(species) !! j = Some "k"%string /\
               d !! "k"%string = Some (j, T_initial_concentration)) /\
    (forall i r, colliding_network.(mass_action_reactions) = Populated r ->
       r.(rate_names) !! i = Some "k"%string ->
       (forall k, d !! k <> Some (i, T_rate_constant)) /\
       (forall k f v self', d !! k = Some f ->
          update colliding_network f v = Some self' ->
          rate_constant_at self' i = rate_constant_at colliding_network i)) /\
    (forall i r, colliding_network.(michaelis_menten_reactions) = Populated r ->
       r.(Km_names) !! i = Some "k"%string ->
       (forall k, d !! k <> Some (i, T_Km)) /\
       (forall k f v self', d !! k = Some f ->
          update colliding_network f v = Some self' ->
          Km_at self' i = Km_at colliding_network i)) /\
    (forall i r, colliding_network.(michaelis_menten_reactions) = Populated r ->
       r.(kcat_names) !! i = Some "k"%string ->
       (forall k, d !! k <> Some (i, T_kcat)) /\
       (forall k f v self', d !! k = Some f ->
          update colliding_network f v = Some self' ->
          kcat_at self' i = kcat_at colliding_network i)).
Proof.
  split; [discriminate|]. split; [discriminate|].
  assert ("k"%string ∈ colliding_network.(species)) as Hin.
  { apply (bool_decide_unpack _). vm_compute. reflexivity. }
  split; [exact Hin|].
  apply (species_name_shadows_parameter colliding_network "k"%string);
    [discriminate|discriminate|exact Hin].
Defined.

(** In [colliding_network] the dictionary has four entries, all of them
    initial-concentration setters. *)
Example colliding_network_dictionary :
  _create_update_dictionary colliding_network
  = Some (<["S"%string := (0%nat, T_initial_concentration)]>
         (<["E"%string := (1%nat, T_initial_concentration)]>
         (<["P"%string := (2%nat, T_initial_concentration)]>
         (<["k"%string := (3%nat, T_initial_concentration)]> ∅)))).
Proof. vm_compute. reflexivity. Qed.

(** ** Evaluating the derivative function in the store *)

Section StoreFacts.

Import Store.

Lemma lookup_old (h k : list ndarray) (l : nat) (a : ndarray) :
  h !! l = Some a -> (h ++ k) !! l = Some a.
Proof. intros H. by apply lookup_app_l_Some. Qed.

Lemma lookup_new (h k : list ndarray) (i : nat) (a : ndarray) :
  k !! i = Some a -> (h ++ k) !! (length h + i)%nat = Some a.
Proof. intros H. by rewrite lookup_app_r, Nat.add_sub' by lia. Qed.

Lemma bind_load1 {X} (f : list float -> St X) (h : list ndarray) (l : nat)
  (v : list float) :
  h !! l = Some (Arr1 v) -> Store.bind (load1 l) f h = f v h.
Proof. intros H. unfold Store.bind, load1. by rewrite H. Qed.

Lemma bind_load2 {X} (f : list (list float) -> St X) (h : list ndarray) (l : nat)
  (m : list (list float)) :
  h !! l = Some (Arr2 m) -> Store.bind (load2 l) f h = f m h.
Proof. intros H. unfold Store.bind, load2. by rewrite H. Qed.

Lemma bind_alloc {X} (f : nat -> St X) (h k : list ndarray) (a : ndarray) :
  Store.bind (alloc a) f (h ++ k) = f (length h + length k)%nat (h ++ (k ++ [a])).
Proof. unfold Store.bind, alloc. by rewrite length_app, app_assoc. Qed.

Lemma bind_lift {X Y} (f : X -> St Y) (h : list ndarray) (o : option X) :
  Store.bind (lift o) f h = match o with Some x => f x h | None => None end.
Proof. unfold Store.bind, lift. by destruct o. Qed.

Lemma bind_bind {X Y Z} (m : St X) (f : X -> St Y) (g : Y -> St Z) (h : list ndarray) :
  Store.bind (Store.bind m f) g h = Store.bind m (fun x => Store.bind (f x) g) h.
Proof. unfold Store.bind. by destruct (m h) as [[x h']|]. Qed.

Lemma bind_ret {X Y} (x : X) (f : X -> St Y) (h : list ndarray) :
  Store.bind (Store.ret x) f h = f x h.
Proof. reflexivity. Qed.

Lemma bind_store1 {X} (f : unit -> St X) (h k : list ndarray) (i : nat)
  (v w : list float) :
  k !! i = Some (Arr1 w) ->
  Store.bind (store1 (length h + i) v) f (h ++ k) = f tt (h ++ <[i := Arr1 v]> k).
Proof.
  intros H. unfold Store.bind, store1. rewrite (lookup_new _ _ _ _ H).
  f_equal. rewrite insert_app_r_alt, Nat.add_sub' by lia. done.
Qed.

End StoreFacts.

Ltac st_lookup :=
  first [ apply lookup_new; reflexivity
        | apply lookup_old; eassumption ].

Ltac st_step :=
  first
    [ rewrite bind_bind
    | rewrite bind_ret
    | rewrite bind_alloc; cbn [length app]
    | erewrite bind_load1 by st_lookup
    | erewrite bind_load2 by st_lookup
    | erewrite bind_store1 by reflexivity; cbn [insert list_insert]
    | rewrite bind_lift
    | progress cbn [Store.operands Store.operand1] ].

Ltac st_case :=
  match goal with
  | |- context [match ?o with Some _ => _ | None => None end] =>
      destruct o eqn:?; cbn [mbind option_bind]; [|exact I]
  end.

Ltac st_run := repeat (repeat st_step; try st_case).

Lemma alloc_agrees (h k : list Store.ndarray) (d : list float) :
  agrees h (Some d) (Store.alloc (Store.Arr1 d) (h ++ k)).
Proof.
  unfold agrees, Store.alloc. split.
  - exists (k ++ [Store.Arr1 d]). by rewrite app_assoc.
  - by apply list_lookup_middle.
Qed.

Ltac st_done := apply alloc_agrees.

(** The stored [compute_velocities] against the pure one.  Its two indexed
    assignments land in the two arrays of zeros it has just allocated. *)
Lemma compute_velocities_run (r : Store.MichaelisMentenRef) (cl : nat)
  (h : list Store.ndarray) (c : list float) (self : MichaelisMentenReactions) :
  h !! cl = Some (Store.Arr1 c) ->
  Store.michaelis_menten_at h r = Some self ->
  agrees h (compute_velocities self c) (Store.compute_velocities r cl h).
Proof.
  intros Hc Hself.
  unfold Store.michaelis_menten_at, Store.get1 in Hself.
  destruct (h !! Store.ref_Kms r) as [[kms|]|] eqn:Hkm; try done.
  destruct (h !! Store.ref_kcats r) as [[kcs|]|] eqn:Hkc; try done.
  cbn in Hself. injection Hself as <-.
  unfold compute_velocities, velocities.
  cbn [substrate_indices enzyme_indices Kms kcats
       substrate_stoichiometries product_stoichiometries product_indices].
  replace (Store.compute_velocities r cl h)
    with (Store.compute_velocities r cl (h ++ [])) by (by rewrite app_nil_r).
  unfold Store.compute_velocities, Store.zeros, Store.take, Store.vstack,
    Store.map1, Store.map2, Store.reduce2, Store.put.
  st_run. st_done.
Qed.

Lemma mass_action_run (power : float -> float -> float)
  (r : Store.MassActionRef) (cl : nat)
  (h : list Store.ndarray) (c : list float) (self : MassActionReactions) :
  h !! cl = Some (Store.Arr1 c) ->
  Store.mass_action_at h r = Some self ->
  agrees h (compute_mass_action_rates power self c)
    (Store.compute_mass_action_rates power r cl h).
Proof.
  intros Hc Hself.
  unfold Store.mass_action_at, Store.get2 in Hself.
  destruct (h !! Store.ref_N r) as [[|n]|] eqn:Hn; try done.
  destruct (h !! Store.ref_A r) as [[|a]|] eqn:Ha; try done.
  destruct (h !! Store.ref_K r) as [[|k]|] eqn:Hk; try done.
  cbn in Hself. injection Hself as <-.
  unfold compute_mass_action_rates. cbn [A K N].
  replace (Store.compute_mass_action_rates power r cl h)
    with (Store.compute_mass_action_rates power r cl (h ++ []))
    by (by rewrite app_nil_r).
  unfold Store.compute_mass_action_rates, Store.power2, Store.reduce2, Store.dot.
  st_run. st_done.
Qed.

(** Allocation does not disturb what a closure stands for. *)
Lemma get1_old (h k : list Store.ndarray) (l : nat) (v : list float) :
  Store.get1 h l = Some v -> Store.get1 (h ++ k) l = Some v.
Proof.
  unfold Store.get1. destruct (h !! l) as [[v'|]|] eqn:E; try done.
  intros [= <-]. by rewrite (lookup_old _ _ _ _ E).
Qed.

Lemma get2_old (h k : list Store.ndarray) (l : nat) (m : list (list float)) :
  Store.get2 h l = Some m -> Store.get2 (h ++ k) l = Some m.
Proof.
  unfold Store.get2. destruct (h !! l) as [[|m']|] eqn:E; try done.
  intros [= <-]. by rewrite (lookup_old _ _ _ _ E).
Qed.

Lemma mass_action_at_old (h k : list Store.ndarray) (r : Store.MassActionRef)
  (self : MassActionReactions) :
  Store.mass_action_at h r = Some self ->
  Store.mass_action_at (h ++ k) r = Some self.
Proof.
  unfold Store.mass_action_at.
  destruct (Store.get2 h (Store.ref_N r)) as [n|] eqn:Hn; [|done].
  destruct (Store.get2 h (Store.ref_A r)) as [a|] eqn:Ha; [|done].
  destruct (Store.get2 h (Store.ref_K r)) as [k'|] eqn:Hk; [|done].
  by rewrite (get2_old _ k _ _ Hn), (get2_old _ k _ _ Ha), (get2_old _ k _ _ Hk).
Qed.

Lemma michaelis_menten_at_old (h k : list Store.ndarray)
  (r : Store.MichaelisMentenRef) (self : MichaelisMentenReactions) :
  Store.michaelis_menten_at h r = Some self ->
  Store.michaelis_menten_at (h ++ k) r = Some self.
Proof.
  unfold Store.michaelis_menten_at.
  destruct (Store.get1 h (Store.ref_Kms r)) as [kms|] eqn:Hkm; [|done].
  destruct (Store.get1 h (Store.ref_kcats r)) as [kcs|] eqn:Hkc; [|done].
  by rewrite (get1_old _ k _ _ Hkm), (get1_old _ k _ _ Hkc).
Qed.

Lemma represents_old (h k : list Store.ndarray) (env : Store.closure)
  (self : ChemicalReactionNetwork) :
  represents h env self -> represents (h ++ k) env self.
Proof.
  intros [Hma Hmm]. split.
  - inversion Hma as [r p Hv Hf Hs|e He Hf Hs].
    + apply repr_compute. by apply mass_action_at_old.
    + apply repr_empty. by apply lookup_old.
  - inversion Hmm as [r p Hv Hf Hs|e He Hf Hs].
    + apply repr_compute. by apply michaelis_menten_at_old.
    + apply repr_empty. by apply lookup_old.
Qed.

(** One rate function of the closure against its pure counterpart. *)
Lemma call_run {R P} (view : R -> option P) (h : list Store.ndarray) (n : nat)
  (f : Store.rate_function R) (set : instance P)
  (pcompute : P -> option (list float)) (scompute : R -> Store.St nat) :
  rate_repr view h n f set ->
  (forall r p, view r = Some p -> agrees h (pcompute p) (scompute r h)) ->
  agrees h (contribution set n pcompute) (Store.call f scompute h).
Proof.
  intros Hrepr Hcompute. destruct Hrepr as [r p Hv|e He]; cbn.
  - by apply Hcompute.
  - split; [|done]. exists []. by rewrite app_nil_r.
Qed.

Lemma agrees_bind (h : list Store.ndarray) (p : option (list float))
  (m : Store.St nat) (q : list float -> option (list float))
  (g : nat -> Store.St nat) :
  agrees h p (m h) ->
  (forall d l k, (h ++ k) !! l = Some (Store.Arr1 d) ->
     agrees (h ++ k) (q d) (g l (h ++ k))) ->
  agrees h (p ≫= q) (Store.bind m g h).
Proof.
  intros Hm Hg. unfold Store.bind.
  destruct p as [d|], (m h) as [[l h1]|]; cbn in *; try done.
  destruct Hm as [[k ->] Hl].
  specialize (Hg d l k Hl).
  destruct (q d) as [d'|], (g l (h ++ k)) as [[l' h2]|]; cbn in *; try done.
  destruct Hg as [[k' ->] Hl']. split; [|done].
  exists (k ++ k'). by rewrite app_assoc.
Qed.

(** The derivative function in the store against the pure one. *)
Lemma ODEs_run (power : float -> float -> float) (h : list Store.ndarray)
  (env : Store.closure) (self : ChemicalReactionNetwork)
  (cl : nat) (c : list float) (t : float) :
  represents h env self -> h !! cl = Some (Store.Arr1 c) ->
  agrees h (ODEs power self c t) (Store.ODEs power env cl t h).
Proof.
  intros Hrepr Hc. unfold ODEs, Store.ODEs.
  apply agrees_bind.
  { eapply call_run; [apply Hrepr|].
    intros r p Hv. by apply compute_velocities_run. }
  intros dmm lmm k1 Hmm.
  pose proof (represents_old h k1 env self Hrepr) as Hrepr1.
  pose proof (lookup_old h k1 cl _ Hc) as Hc1.
  apply agrees_bind.
  { eapply call_run; [apply Hrepr1|].
    intros r p Hv. by apply mass_action_run. }
  intros dma lma k2 Hma.
  pose proof (lookup_old _ k2 _ _ Hmm) as Hmm2.
  replace (((h ++ k1) ++ k2)) with (((h ++ k1) ++ k2) ++ []) at 2
    by (by rewrite app_nil_r).
  unfold Store.vstack, Store.reduce2.
  st_run. st_done.
Qed.

Lemma evaluate_all_run (power : float -> float -> float)
  (env : Store.closure) (self : ChemicalReactionNetwork)
  (cl : nat) (c d : list float) (ts : list float) :
  (forall t, ODEs power self c t = Some d) ->
  forall h, represents h env self -> h !! cl = Some (Store.Arr1 c) ->
  exists ls h',
    evaluate_all power env cl ts h = Some (ls, h') /\
    (exists k, h' = h ++ k) /\
    length ls = length ts /\
    Forall (fun l => h' !! l = Some (Store.Arr1 d)) ls.
Proof.
  intros Hpure. induction ts as [|t ts IH]; intros h Hrepr Hc.
  - exists [], h. split; [done|]. split; [|done]. exists []. by rewrite app_nil_r.
  - pose proof (ODEs_run power h env self cl c t Hrepr Hc) as Hrun.
    rewrite (Hpure t) in Hrun. cbn [evaluate_all]. unfold Store.bind at 1.
    destruct (Store.ODEs power env cl t h) as [[l h1]|]; [|done].
    destruct Hrun as [[k ->] Hl].
    destruct (IH (h ++ k)) as (ls & h2 & Hev & [k' ->] & Hlen & Hall).
    { by apply represents_old. }
    { by apply lookup_old. }
    exists (l :: ls), ((h ++ k) ++ k'). unfold Store.bind. rewrite Hev. cbn.
    split; [done|]. split; [exists (k ++ k'); by rewrite app_assoc|].
    split; [by rewrite Hlen|].
    apply Forall_cons. split; [by apply lookup_old|done].
Qed.

(** [integrate] builds a closure that stands for the network it is given. *)
Lemma integrate_prepare_represents (h : list Store.ndarray)
  (ref : Store.NetworkRef) (self : ChemicalReactionNetwork)
  (env : Store.closure) (h' : list Store.ndarray) :
  stored h ref self ->
  Store.integrate_prepare ref h = Some (env, h') ->
  (exists k, h' = h ++ k) /\ represents h' env self.
Proof.
  intros [Hn Hma Hmm _]. unfold set_stored in Hma, Hmm.
  unfold Store.integrate_prepare, Store.select, Store.zeros.
  destruct (Store.ref_mass_action_reactions ref) as [|r|],
           (mass_action_reactions self) as [|p|] eqn:Ema; try done;
  destruct (Store.ref_michaelis_menten_reactions ref) as [|r'|],
           (michaelis_menten_reactions self) as [|p'|] eqn:Emm; try done;
  replace h with (h ++ []) at 1 by (by rewrite app_nil_r);
  repeat st_step; unfold Store.ret; intros [= <- <-];
  (split; [by eexists|]); split; cbn; rewrite ?Ema, ?Emm, <- ?Hn.
  - apply repr_empty. by apply (lookup_new h [_; _] 0).
  - apply repr_empty. by apply (lookup_new h [_; _] 1).
  - apply repr_empty. by apply (lookup_new h [_] 0).
  - apply repr_compute. by apply michaelis_menten_at_old.
  - apply repr_compute. by apply mass_action_at_old.
  - apply repr_empty. by apply (lookup_new h [_] 0).
  - apply repr_compute. by apply mass_action_at_old.
  - apply repr_compute. by apply michaelis_menten_at_old.
Qed.

Lemma stored_old (h k : list Store.ndarray) (ref : Store.NetworkRef)
  (self : ChemicalReactionNetwork) :
  stored h ref self -> stored (h ++ k) ref self.
Proof.
  intros [Hn Hma Hmm Hic]. split; [done| | |by apply lookup_old].
  - unfold set_stored in *.
    destruct (Store.ref_mass_action_reactions ref),
             (mass_action_reactions self); try done.
    by apply mass_action_at_old.
  - unfold set_stored in *.
    destruct (Store.ref_michaelis_menten_reactions ref),
             (michaelis_menten_reactions self); try done.
    by apply michaelis_menten_at_old.
Qed.

(** C7.  Evaluating the derivative function that [integrate] hands to the
    solver only adds arrays to the store: every array that was there is as
    before, so the store still holds the same [K], [N], [A], [Kms],
    [kcats] and initial concentrations, and the same argument.
    Consequently any sequence of evaluations on the same concentrations,
    at whatever times, returns arrays that all hold the one result of the
    pure derivative function. *)
Theorem ODEs_leaves_network_unchanged (power : float -> float -> float)
  (h0 h : list Store.ndarray) (ref : Store.NetworkRef)
  (self : ChemicalReactionNetwork) (env : Store.closure)
  (cl : nat) (c d : list float) (t0 : float) (ts : list float) :
  stored h0 ref self ->
  Store.integrate_prepare ref h0 = Some (env, h) ->
  h !! cl = Some (Store.Arr1 c) ->
  ODEs power self c t0 = Some d ->
  exists ls h',
    evaluate_all power env cl ts h = Some (ls, h') /\
    stored h' ref self /\
    h' !! cl = Some (Store.Arr1 c) /\
    (forall a x, h !! a = Some x -> h' !! a = Some x) /\
    length ls = length ts /\
    Forall (fun l => h' !! l = Some (Store.Arr1 d)) ls.
Proof.
  intros Hst Hprep Hc Hpure.
  destruct (integrate_prepare_represents h0 ref self env h Hst Hprep)
    as [[k0 ->] Hrepr].
  destruct (evaluate_all_run power env self cl c d ts (fun _ => Hpure)
              (h0 ++ k0) Hrepr Hc)
    as (ls & h' & Hev & [k ->] & Hlen & Hall).
  exists ls, ((h0 ++ k0) ++ k). split; [done|].
  split; [by do 2 apply stored_old|].
  split; [by apply lookup_old|].
  split; [intros a x; apply lookup_old|].
  done.
Qed.

Lemma stored_network_stored : stored stored_heap stored_ref stored_network.
Proof. split; reflexivity. Defined.

Lemma ODEs_leaves_network_unchanged_witness :
  let h := stored_heap ++ [Store.Arr1 [0; 0; 0]] in
  stored stored_heap stored_ref stored_network /\
  Store.integrate_prepare stored_ref stored_heap = Some (stored_closure, h) /\
  h !! 3%nat = Some (Store.Arr1 [4; 3; 0]) /\
  ODEs pow_01 stored_network [4; 3; 0] 0 = Some [-4; 0; 4] /\
  exists ls h',
    evaluate_all pow_01 stored_closure 3 [0; 0.5; 1] h = Some (ls, h') /\
    stored h' stored_ref stored_network /\
    h' !! 3%nat = Some (Store.Arr1 [4; 3; 0]) /\
    (forall a x, h !! a = Some x -> h' !! a = Some x) /\
    length ls = length [0; 0.5; 1] /\
    Forall (fun l => h' !! l = Some (Store.Arr1 [-4; 0; 4])) ls.
Proof.
  intros h.
  split; [exact stored_network_stored|]. split; [reflexivity|].
  split; [reflexivity|]. split; [vm_compute; reflexivity|].
  apply (ODEs_leaves_network_unchanged pow_01 stored_heap h stored_ref
           stored_network stored_closure 3 [4; 3; 0] [-4; 0; 4] 0 [0; 0.5; 1]).
  - exact stored_network_stored.
  - reflexivity.
  - reflexivity.
  - vm_compute. reflexivity.
Defined.

(** ** Michaelis-Menten rates: shape and range *)

Lemma zeros_length (n : nat) : length (Np.zeros n) = n.
Proof. apply length_replicate. Qed.

Lemma put_seq_range (idx : list nat) : forall (a vals b : list float),
  Np.put_seq a idx vals = Some b -> Forall (fun i => (i < length a)%nat) idx.
Proof.
  induction idx as [|i idx IH]; intros a [|v vals] b; cbn; try done.
  case_decide; [|done]. intros Hp. constructor; [done|].
  apply IH in Hp. by rewrite length_insert in Hp.
Qed.

Lemma take_range (a : list float) (idx : list nat) (v : list float) :
  Np.take a idx = Some v -> Forall (fun i => (i < length a)%nat) idx.
Proof.
  intros Hv. apply mapM_Some in Hv. apply Forall_forall. intros i Hi.
  apply list_elem_of_lookup in Hi as [k Hk].
  destruct (Forall2_lookup_l _ _ _ _ _ Hv Hk) as (y & _ & Hy).
  by eapply lookup_lt_Some.
Qed.

Lemma compute_velocities_puts (self : MichaelisMentenReactions) (c : list float) :
  fully_shaped self (length c) ->
  exists vs sv pv,
    velocities self c = Some vs /\
    length vs = length self.(substrate_indices) /\
    Np.put (Np.zeros (length c)) self.(substrate_indices)
      (Np.scale (zip_with PrimFloat.mul vs
                   (Np.float_of_int <$> self.(substrate_stoichiometries))) (-1))
    = Some sv /\
    Np.put (Np.zeros (length c)) self.(product_indices)
      (zip_with PrimFloat.mul vs (Np.float_of_int <$> self.(product_stoichiometries)))
    = Some pv /\
    compute_velocities self c = Some (zip_with PrimFloat.add sv pv).
Proof.
  intros [Hws Hss Hp Hps Hpr].
  destruct (velocities_vector self c Hws) as (sv0 & ev0 & [Hsv _] & [Hev _] & Hvs).
  cbn zeta in Hvs.
  pose proof Hws as [He HKm Hkc _ _].
  match type of Hvs with _ = Some ?v => set (vs := v) in * end.
  assert (length vs = length self.(substrate_indices)) as Hlen.
  { subst vs. np_length. }
  destruct (put_seq_total self.(substrate_indices) (Np.zeros (length c))
              (Np.scale (zip_with PrimFloat.mul vs
                 (Np.float_of_int <$> self.(substrate_stoichiometries))) (-1)))
    as [sv Hput1].
  { np_length. }
  { destruct Hws. by rewrite zeros_length. }
  destruct (put_seq_total self.(product_indices) (Np.zeros (length c))
              (zip_with PrimFloat.mul vs
                 (Np.float_of_int <$> self.(product_stoichiometries))))
    as [pv Hput2].
  { np_length. }
  { by rewrite zeros_length. }
  exists vs, sv, pv. repeat split; try done.
  unfold compute_velocities. rewrite Hvs. cbn [mbind option_bind].
  rewrite !(vstack2_eq vs) by (rewrite length_fmap; lia).
  cbn [mbind option_bind]. rewrite !prod_axis0_2.
  unfold Np.put in *. rewrite Hput1. cbn [mbind option_bind].
  rewrite Hput2. cbn [mbind option_bind].
  rewrite vstack2_eq.
  - cbn [mbind option_bind]. by rewrite sum_axis0_2.
  - apply put_seq_length in Hput1, Hput2. congruence.
Qed.

(** X1.  On a set whose arrays agree in length and whose indices are in
    range, [compute_velocities] returns a vector with one entry per
    concentration, and the entry of every species that is neither a
    substrate nor a product of some reaction is zero. *)
Theorem compute_velocities_untouched (self : MichaelisMentenReactions)
  (c : list float) :
  fully_shaped self (length c) ->
  exists d, compute_velocities self c = Some d /\
    length d = length c /\
    forall j, (j < length c)%nat ->
      j ∉ self.(substrate_indices) -> j ∉ self.(product_indices) ->
      d !! j = Some 0.
Proof.
  intros Hfs.
  destruct (compute_velocities_puts self c Hfs)
    as (vs & sv & pv & _ & _ & Hsv & Hpv & ->).
  unfold Np.put in *.
  pose proof (put_seq_length _ _ _ _ Hsv) as Hl1.
  pose proof (put_seq_length _ _ _ _ Hpv) as Hl2.
  rewrite zeros_length in Hl1, Hl2.
  eexists. split; [done|]. split.
  { rewrite length_zip_with. lia. }
  intros j Hj Hjs Hjp.
  rewrite lookup_zip_with.
  rewrite (put_seq_other _ _ _ _ _ Hsv Hjs), (put_seq_other _ _ _ _ _ Hpv Hjp).
  rewrite zeros_lookup by done. reflexivity.
Qed.

Lemma one_reaction_fully_shaped (Km0 kcat0 : float) :
  fully_shaped (one_reaction Km0 kcat0) 3.
Proof.
  split; cbn; try done.
  - apply one_reaction_shaped.
  - repeat constructor.
Qed.

Lemma compute_velocities_untouched_witness :
  fully_shaped (one_reaction 1 2) (length [4; 3; 0]) /\
  exists d, compute_velocities (one_reaction 1 2) [4; 3; 0] = Some d /\
    length d = length [4; 3; 0] /\
    forall j, (j < length [4; 3; 0])%nat ->
      j ∉ (one_reaction 1 2).(substrate_indices) ->
      j ∉ (one_reaction 1 2).(product_indices) ->
      d !! j = Some 0.
Proof.
  split; [apply one_reaction_fully_shaped|].
  apply (compute_velocities_untouched (one_reaction 1 2) [4; 3; 0]).
  apply one_reaction_fully_shaped.
Defined.

(** X2.  A species index beyond the concentration vector, be it of a
    substrate, an enzyme or a product, makes [compute_velocities] raise. *)
Theorem compute_velocities_index_error (self : MichaelisMentenReactions)
  (c : list float) (i : nat) :
  i ∈ self.(substrate_indices) ++ self.(enzyme_indices) ++ self.(product_indices) ->
  (length c <= i)%nat ->
  compute_velocities self c = None.
Proof.
  intros Hi Hle.
  destruct (compute_velocities self c) as [d|] eqn:Hd; [exfalso|done].
  unfold compute_velocities in Hd.
  destruct (velocities self c) as [vs|] eqn:Hvs; [|done].
  cbn [mbind option_bind] in Hd.
  assert (Forall (fun i => (i < length c)%nat)
            (self.(substrate_indices) ++ self.(enzyme_indices))) as Hse.
  { unfold velocities in Hvs.
    destruct (Np.take c (substrate_indices self)) as [sv|] eqn:Hsv; [|done].
    cbn [mbind option_bind] in Hvs.
    destruct (Np.take c (enzyme_indices self)) as [ev|] eqn:Hev; [|done].
    apply Forall_app. split; by eapply take_range. }
  assert (Forall (fun i => (i < length c)%nat) self.(product_indices)) as Hp.
  { repeat match type of Hd with
           | (?o ≫= _) = Some _ =>
               let E := fresh "E" in
               destruct o eqn:E; [cbn [mbind option_bind] in Hd|done]
           end.
    match goal with
    | E : Np.put _ (product_indices self) _ = Some _ |- _ =>
        apply put_seq_range in E; by rewrite zeros_length in E
    end. }
  rewrite app_assoc in Hi. apply elem_of_app in Hi as [Hi|Hi].
  - eapply Forall_forall in Hse; [|exact Hi]. lia.
  - eapply Forall_forall in Hp; [|exact Hi]. lia.
Qed.

Lemma compute_velocities_index_error_witness :
  compute_velocities (one_reaction 1 2) [4; 3] = None.
Proof.
  apply (compute_velocities_index_error (one_reaction 1 2) [4; 3] 2).
  - cbn. set_solver.
  - cbn. lia.
Defined.

(** ** The derivative of a network with a dummy set *)

Lemma vstack_Some (rows m : list (list float)) :
  Np.vstack rows = Some m ->
  m = rows /\ forall r1 r2, r1 ∈ rows -> r2 ∈ rows -> length r1 = length r2.
Proof.
  unfold Np.vstack. destruct rows as [|r rs]; [done|].
  destruct (forallb _ rs) eqn:Hall; [|done]. intros [= <-]. split; [done|].
  assert (forall r', r' ∈ r :: rs -> length r' = length r) as Hlen.
  { intros r' [->|Hr']%elem_of_cons; [done|].
    rewrite forallb_forall in Hall. apply Nat.eqb_eq, Hall.
    by apply list_elem_of_In. }
  intros r1 r2 H1 H2. by rewrite (Hlen r1), (Hlen r2).
Qed.

Lemma compute_velocities_length (self : MichaelisMentenReactions)
  (c d : list float) :
  compute_velocities self c = Some d -> length d = length c.
Proof.
  unfold compute_velocities. intros Hd.
  repeat match type of Hd with
         | (?o ≫= _) = Some _ =>
             let E := fresh "E" in
             destruct o eqn:E; [cbn [mbind option_bind] in Hd|done]
         end.
  injection Hd as <-.
  match goal with E : Np.vstack [_; _] = Some ?m |- context [Np.sum_axis0 ?m] =>
    apply vstack_Some in E as [-> _] end.
  rewrite sum_axis0_2, length_zip_with.
  repeat match goal with
         | E : Np.put _ _ _ = Some _ |- _ =>
             apply put_seq_length in E; rewrite zeros_length in E
         end.
  lia.
Qed.

Lemma add_zeros_r (v : list float) : forall n,
  length v = n ->
  Forall2 Binary64.same (zip_with PrimFloat.add v (Np.zeros n)) v.
Proof.
  induction v as [|x v IH]; intros [|n] Hn; cbn in *; try lia; constructor.
  - by apply Binary64.add_zero_r.
  - apply IH. lia.
Qed.

Lemma add_zeros_l (v : list float) : forall n,
  length v = n ->
  Forall2 Binary64.same (zip_with PrimFloat.add (Np.zeros n) v) v.
Proof.
  induction v as [|x v IH]; intros [|n] Hn; cbn in *; try lia; constructor.
  - by apply Binary64.add_zero_l.
  - apply IH. lia.
Qed.

Lemma add_zeros_zeros (n : nat) :
  zip_with PrimFloat.add (Np.zeros n) (Np.zeros n) = Np.zeros n.
Proof. induction n as [|n IH]; [done|]. cbn. f_equal. exact IH. Qed.

(** X3.  A set without reactions contributes nothing to the derivative:
    with a dummy mass-action set [ODEs] returns the Michaelis-Menten
    velocities, with a dummy Michaelis-Menten set the mass-action rates
    (up to the sign of a zero, in both cases), and with two dummy sets the
    zero vector. *)
Theorem dummy_set_contributes_nothing (power : float -> float -> float)
  (self : ChemicalReactionNetwork) (c : list float) (t : float) :
  length c = length self.(species) ->
  (forall r v,
     self.(mass_action_reactions) = Dummy ->
     self.(michaelis_menten_reactions) = Populated r ->
     compute_velocities r c = Some v ->
     exists d, ODEs power self c t = Some d /\ Forall2 Binary64.same d v) /\
  (forall r v,
     self.(michaelis_menten_reactions) = Dummy ->
     self.(mass_action_reactions) = Populated r ->
     compute_mass_action_rates power r c = Some v -> length v = length c ->
     exists d, ODEs power self c t = Some d /\ Forall2 Binary64.same d v) /\
  (self.(mass_action_reactions) = Dummy ->
   self.(michaelis_menten_reactions) = Dummy ->
   ODEs power self c t = Some (Np.zeros (length c))).
Proof.
  intros Hc. repeat split.
  - intros r v Hma Hmm Hv. unfold ODEs. rewrite Hma, Hmm.
    cbn [contribution]. rewrite Hv. cbn [mbind option_bind].
    pose proof (compute_velocities_length _ _ _ Hv) as Hlen.
    rewrite vstack2_eq by (rewrite zeros_length; lia).
    cbn [mbind option_bind]. eexists. split; [done|].
    rewrite sum_axis0_2. apply add_zeros_r. lia.
  - intros r v Hmm Hma Hv Hlen. unfold ODEs. rewrite Hma, Hmm.
    cbn [contribution]. rewrite Hv. cbn [mbind option_bind].
    rewrite vstack2_eq by (rewrite zeros_length; lia).
    cbn [mbind option_bind]. eexists. split; [done|].
    rewrite sum_axis0_2. apply add_zeros_l. lia.
  - intros Hma Hmm. unfold ODEs. rewrite Hma, Hmm. cbn [contribution mbind option_bind].
    rewrite vstack2_eq by done. cbn [mbind option_bind].
    by rewrite sum_axis0_2, add_zeros_zeros, Hc.
Qed.

Lemma dummy_set_contributes_nothing_witness :
  (forall r v,
     stored_network.(mass_action_reactions) = Dummy ->
     stored_network.(michaelis_menten_reactions) = Populated r ->
     compute_velocities r [4; 3; 0] = Some v ->
     exists d, ODEs pow_01 stored_network [4; 3; 0] 0 = Some d /\
               Forall2 Binary64.same d v) /\
  (forall r v,
     stored_network.(michaelis_menten_reactions) = Dummy ->
     stored_network.(mass_action_reactions) = Populated r ->
     compute_mass_action_rates pow_01 r [4; 3; 0] = Some v ->
     length v = length [4; 3; 0] ->
     exists d, ODEs pow_01 stored_network [4; 3; 0] 0 = Some d /\
               Forall2 Binary64.same d v) /\
  (stored_network.(mass_action_reactions) = Dummy ->
   stored_network.(michaelis_menten_reactions) = Dummy ->
   ODEs pow_01 stored_network [4; 3; 0] 0 = Some (Np.zeros (length [4; 3; 0]))).
Proof.
  apply (dummy_set_contributes_nothing pow_01 stored_network [4; 3; 0] 0).
  reflexivity.
Defined.

(** ** The setters *)

Lemma setitem_same (a a' : list float) (i : nat) (v : float) :
  setitem a i v = Some a' -> a' !! i = Some v.
Proof.
  unfold setitem. case_decide; [|done]. intros [= <-].
  by apply list_lookup_insert_eq.
Qed.


Lemma setitem2_same (m m' : list (list float)) (i : nat) (v : float) :
  setitem2 m i i v = Some m' -> m' !! i ≫= (fun row => row !! i) = Some v.
Proof.
  unfold setitem2. destruct (m !! i) as [row|] eqn:Hrow; [|done]. cbn.
  destruct (setitem row i v) as [row'|] eqn:Hrow'; [|done]. cbn.
  intros [= <-]. rewrite list_lookup_insert_eq by (by eapply lookup_lt_Some).
  cbn. by eapply setitem_same.
Qed.


Ltac update_cbn :=
  unfold parameter_at, rate_constant_at, Km_at, kcat_at;
  cbn [parameter_at rate_constant_at Km_at kcat_at with_sets with_K with_Kms
       with_kcats mass_action_reactions michaelis_menten_reactions
       initial_concentrations species time update_dictionary K N A rate_names
       Kms kcats substrate_indices enzyme_indices product_indices
       substrate_stoichiometries product_stoichiometries].

(** What a setter does with the value it stores. *)
Lemma update_stores (self self' : ChemicalReactionNetwork)
  (f : nat * token) (v : float) :
  update self f v = Some self' ->
  parameter_at self' f = Some v /\
  (forall g, g <> f -> parameter_at self' g = parameter_at self g) /\
  self'.(species) = self.(species) /\
  self'.(time) = self.(time) /\
  self'.(update_dictionary) = self.(update_dictionary) /\
  match self'.(mass_action_reactions), self.(mass_action_reactions) with
  | Populated r', Populated r =>
      r'.(N) = r.(N) /\ r'.(A) = r.(A) /\ r'.(rate_names) = r.(rate_names)
  | Dummy, Dummy | Unset, Unset => True
  | _, _ => False
  end /\
  match self'.(michaelis_menten_reactions), self.(michaelis_menten_reactions) with
  | Populated r', Populated r =>
      r'.(substrate_indices) = r.(substrate_indices) /\
      r'.(enzyme_indices) = r.(enzyme_indices) /\
      r'.(product_indices) = r.(product_indices) /\
      r'.(substrate_stoichiometries) = r.(substrate_stoichiometries) /\
      r'.(product_stoichiometries) = r.(product_stoichiometries)
  | Dummy, Dummy | Unset, Unset => True
  | _, _ => False
  end.
Proof.
  destruct f as [i tk]. unfold update.
  destruct tk.
  - destruct (mass_action_reactions self) as [|r|] eqn:Hma; try done.
    destruct (setitem2 (K r) i i v) as [k|] eqn:Hk; [|done].
    cbn [mbind option_bind]. intros [= <-]. update_cbn.
    split; [by eapply setitem2_same|]. split.
    { intros [j tk'] Hg. destruct tk'; update_cbn; rewrite ?Hma; try done.
      assert (j <> i) as Hji by congruence.
      by rewrite (setitem2_other _ _ j i v Hk Hji). }
    repeat split; try done. by destruct (michaelis_menten_reactions self).
  - destruct (michaelis_menten_reactions self) as [|r|] eqn:Hmm; try done.
    destruct (setitem (Kms r) i v) as [a|] eqn:Ha; [|done].
    cbn [mbind option_bind]. intros [= <-]. update_cbn.
    split; [by eapply setitem_same|]. split.
    { intros [j tk'] Hg. destruct tk'; update_cbn; rewrite ?Hmm; try done.
      assert (j <> i) as Hji by congruence.
      by rewrite (setitem_other _ _ j i v Ha Hji). }
    repeat split; try done. by destruct (mass_action_reactions self).
  - destruct (michaelis_menten_reactions self) as [|r|] eqn:Hmm; try done.
    destruct (setitem (kcats r) i v) as [a|] eqn:Ha; [|done].
    cbn [mbind option_bind]. intros [= <-]. update_cbn.
    split; [by eapply setitem_same|]. split.
    { intros [j tk'] Hg. destruct tk'; update_cbn; rewrite ?Hmm; try done.
      assert (j <> i) as Hji by congruence.
      by rewrite (setitem_other _ _ j i v Ha Hji). }
    repeat split; try done. by destruct (mass_action_reactions self).
  - destruct (setitem (initial_concentrations self) i v) as [a|] eqn:Ha; [|done].
    cbn [mbind option_bind]. intros [= <-]. update_cbn.
    split; [by eapply setitem_same|]. split.
    { intros [j tk'] Hg. destruct tk'; update_cbn; try done.
      assert (j <> i) as Hji by congruence.
      by rewrite (setitem_other _ _ j i v Ha Hji). }
    repeat split; try done.
    + by destruct (mass_action_reactions self).
    + by destruct (michaelis_menten_reactions self).
Qed.

Lemma typed_update_Some (ty : Typed.dtypes) (self self' : ChemicalReactionNetwork)
  (f : nat * token) (v : float) :
  Typed.update ty self f v = Some self' ->
  exists stored, Typed.cast (Typed.dtype_of ty f.2) v = Some stored /\
                 update self f stored = Some self'.
Proof.
  unfold Typed.update. intros H.
  destruct (Typed.cast _ v) as [stored|]; [|done]. by exists stored.
Qed.

(** X4.  A setter that returns has stored in the scalar it addresses what
    the element type of the array makes of the new value, the value itself
    in a [float64] array and its integer part in an [int64] array, and has
    changed no other scalar that a setter addresses, nor the species, the
    time points, the update dictionary, the stoichiometric matrices or the
    species indices of either set. *)
Theorem update_writes_one_scalar (ty : Typed.dtypes)
  (self self' : ChemicalReactionNetwork) (f : nat * token) (v : float) :
  Typed.update ty self f v = Some self' ->
  (exists stored,
     Typed.cast (Typed.dtype_of ty f.2) v = Some stored /\
     parameter_at self' f = Some stored) /\
  (Typed.dtype_of ty f.2 = Typed.float64 -> parameter_at self' f = Some v) /\
  (forall g, g <> f -> parameter_at self' g = parameter_at self g) /\
  self'.(species) = self.(species) /\
  self'.(time) = self.(time) /\
  self'.(update_dictionary) = self.(update_dictionary) /\
  match self'.(mass_action_reactions), self.(mass_action_reactions) with
  | Populated r', Populated r =>
      r'.(N) = r.(N) /\ r'.(A) = r.(A) /\ r'.(rate_names) = r.(rate_names)
  | Dummy, Dummy | Unset, Unset => True
  | _, _ => False
  end /\
  match self'.(michaelis_menten_reactions), self.(michaelis_menten_reactions) with
  | Populated r', Populated r =>
      r'.(substrate_indices) = r.(substrate_indices) /\
      r'.(enzyme_indices) = r.(enzyme_indices) /\
      r'.(product_indices) = r.(product_indices) /\
      r'.(substrate_stoichiometries) = r.(substrate_stoichiometries) /\
      r'.(product_stoichiometries) = r.(product_stoichiometries)
  | Dummy, Dummy | Unset, Unset => True
  | _, _ => False
  end.
Proof.
  intros H. apply typed_update_Some in H as (stored & Hcast & H).
  destruct (update_stores self self' f stored H) as (Hv & Hrest).
  split; [by exists stored|]. split; [|exact Hrest].
  intros Hty. rewrite Hty in Hcast. cbn in Hcast. congruence.
Qed.

(** In an [int64] array of Michaelis constants, [0.5] is stored as [0]. *)
Lemma update_writes_one_scalar_witness :
  let ty := {| Typed.K_dtype := Typed.float64; Typed.Kms_dtype := Typed.int64;
               Typed.kcats_dtype := Typed.float64;
               Typed.initial_concentrations_dtype := Typed.float64 |} in
  exists self',
    Typed.update ty stored_network (0%nat, T_Km) 0.5 = Some self' /\
    parameter_at self' (0%nat, T_Km) = Some 0 /\
    parameter_at self' (0%nat, T_kcat) = Some 2 /\
    exists self'',
      Typed.update ty stored_network (0%nat, T_kcat) 0.5 = Some self'' /\
      parameter_at self'' (0%nat, T_kcat) = Some 0.5.
Proof.
  intros ty. eexists. split; [vm_compute; reflexivity|].
  pose proof (update_writes_one_scalar ty stored_network _ (0%nat, T_Km) 0.5 eq_refl)
    as ((stored & Hcast & Hv) & _ & Hother & _).
  split; [|split].
  - transitivity (Some stored); [exact Hv|]. rewrite <- Hcast. reflexivity.
  - transitivity (parameter_at stored_network (0%nat, T_kcat)); [|reflexivity].
    refine (Hother (0%nat, T_kcat) _). discriminate.
  - eexists. split; [vm_compute; reflexivity|].
    pose proof (update_writes_one_scalar ty stored_network _ (0%nat, T_kcat) 0.5 eq_refl)
      as (_ & Hfloat & _).
    by apply Hfloat.
Defined.


(** ** The update dictionary of a network with distinct names *)

Lemma mass_action_update_is_Some (r : MassActionReactions)
  (a : gmap string (nat * token)) (k : string) :
  mass_action_update (Populated r) = Some a ->
  r.(ma_reactions) <> [] -> k ∈ r.(rate_names) -> is_Some (a !! k).
Proof.
  cbn. intros [= <-] Hne Hk.
  destruct (ma_reactions r) as [|x xs]; [done|]. cbn [truthy].
  change (fold_left _ _ _)
    with (fold_left (fun d '(i, x) => <[id x := (i, T_rate_constant)]> d)
            (imap (fun i x => (id i, x)) r.(rate_names)) (∅ : gmap string (nat * token))).
  rewrite fold_enumerate. apply insert_all_is_Some. left.
  apply list_elem_of_lookup in Hk as [i Hi].
  apply list_elem_of_fmap. exists (k, (i, T_rate_constant)).
  split; [done|]. apply elem_of_lookup_imap. eauto.
Qed.

Lemma michaelis_menten_update_is_Some (r : MichaelisMentenReactions)
  (b : gmap string (nat * token)) (i : nat) (km kc : string) :
  michaelis_menten_update (Populated r) = Some b ->
  r.(mm_reactions) <> [] ->
  r.(Km_names) !! i = Some km -> r.(kcat_names) !! i = Some kc ->
  is_Some (b !! km) /\ is_Some (b !! kc).
Proof.
  cbn. intros [= <-] Hne Hkm Hkc.
  destruct (mm_reactions r) as [|x xs]; [done|]. cbn [truthy].
  change (fold_left _ _ _)
    with (fold_left
            (fun d '(index, (Km_name, kcat_name)) =>
               <[kcat_name := _make_update_function index T_kcat]>
                 (<[Km_name := _make_update_function index T_Km]> d))
            (imap (fun i x => (id i, x)) (zip r.(Km_names) r.(kcat_names)))
            (∅ : gmap string (nat * token))).
  rewrite fold_enumerate2.
  assert ([(km, (i, T_Km)); (kc, (i, T_kcat))]
          ∈ imap (fun i x => [(x.1, (id i, T_Km)); (x.2, (id i, T_kcat))])
              (zip r.(Km_names) r.(kcat_names))) as Hin.
  { apply elem_of_lookup_imap. exists i, (km, kc). split; [done|].
    by apply lookup_zip_Some. }
  split; apply insert_all_is_Some; left; apply list_elem_of_fmap.
  - exists (km, (i, T_Km)). split; [done|].
    apply list_elem_of_join. eexists. split; [|exact Hin]. left.
  - exists (kc, (i, T_kcat)). split; [done|].
    apply list_elem_of_join. eexists. split; [|exact Hin]. right. left.
Qed.

Lemma NoDup_lookup_inj (l : list string) (i j : nat) (k : string) :
  NoDup l -> l !! i = Some k -> l !! j = Some k -> i = j.
Proof. intros Hnd Hi Hj. by eapply NoDup_lookup. Qed.

(** X6.  When the rate-constant names, the Km names, the kcat names and
    the species are pairwise distinct, the update dictionary holds under
    every one of these names the setter of the very parameter it names:
    the rate constant, Km or kcat of that reaction, or the initial
    concentration of that species. *)
Theorem distinct_names_resolve (self : ChemicalReactionNetwork)
  (d : gmap string (nat * token)) :
  _create_update_dictionary self = Some d ->
  NoDup (rate_constant_names self.(mass_action_reactions)
         ++ michaelis_menten_names self.(michaelis_menten_reactions)
         ++ self.(species)) ->
  (forall r i k, self.(mass_action_reactions) = Populated r ->
     r.(ma_reactions) <> [] -> r.(rate_names) !! i = Some k ->
     d !! k = Some (i, T_rate_constant)) /\
  (forall r i km kc, self.(michaelis_menten_reactions) = Populated r ->
     r.(mm_reactions) <> [] ->
     r.(Km_names) !! i = Some km -> r.(kcat_names) !! i = Some kc ->
     d !! km = Some (i, T_Km) /\ d !! kc = Some (i, T_kcat)) /\
  (forall i k, self.(species) !! i = Some k ->
     d !! k = Some (i, T_initial_concentration)).
Proof.
  intros Hd Hnd.
  apply NoDup_app in Hnd as (Hnd_ma & Hma_other & Hnd).
  apply NoDup_app in Hnd as (Hnd_mm & Hmm_sp & Hnd_sp).
  pose proof Hd as Hd'. unfold _create_update_dictionary, merge3 in Hd'.
  destruct (mass_action_update _) as [a|] eqn:Ha; [|done].
  cbn [mbind option_bind] in Hd'.
  destruct (michaelis_menten_update _) as [b|] eqn:Hb; [|done].
  cbn [mbind option_bind] in Hd'. injection Hd' as Hd'.
  assert (forall k, is_Some (a !! k) \/ is_Some (b !! k) -> is_Some (d !! k)) as Hsome.
  { intros k Hk. subst d. rewrite !lookup_union_is_Some. tauto. }
  split; [|split; [intros r i km kc Hmm Hne Hkm Hkc; split|]].
  - intros r i k Hma Hne Hi. rewrite Hma in *. cbn [rate_constant_names] in *.
    assert (k ∈ rate_names r) as Hk by (by eapply list_elem_of_lookup_2).
    destruct (Hsome k) as [[j tk] Hjk].
    { left. by eapply mass_action_update_is_Some. }
    rewrite Hjk.
    destruct (update_dictionary_origin self d k j tk Hd Hjk)
      as [[_ Hsp]|[_ [[-> (r' & Hr' & Hj)]|(r' & Hr' & Hj)]]].
    + exfalso. apply (Hma_other k Hk). apply elem_of_app. right.
      by eapply list_elem_of_lookup_2.
    + rewrite Hma in Hr'. injection Hr' as <-.
      by rewrite (NoDup_lookup_inj _ _ _ _ Hnd_ma Hi Hj).
    + exfalso. apply (Hma_other k Hk). apply elem_of_app. left.
      rewrite Hr'. cbn [michaelis_menten_names]. apply elem_of_app.
      destruct Hj as [[_ Hj]|[_ Hj]]; [left|right]; by eapply list_elem_of_lookup_2.
  - rewrite Hmm in *. cbn [michaelis_menten_names] in *.
    destruct (michaelis_menten_update_is_Some r b i km kc Hb Hne Hkm Hkc) as [Hbkm _].
    assert (km ∈ Km_names r ++ kcat_names r) as Hin.
    { apply elem_of_app. left. by eapply list_elem_of_lookup_2. }
    destruct (Hsome km) as [[j tk] Hjk]; [by right|].
    rewrite Hjk.
    destruct (update_dictionary_origin self d km j tk Hd Hjk)
      as [[_ Hsp]|[_ [[-> (r' & Hr' & Hj)]|(r' & Hr' & Hj)]]].
    + exfalso. apply (Hmm_sp km Hin). by eapply list_elem_of_lookup_2.
    + exfalso. apply (Hma_other km).
      * rewrite Hr'. cbn [rate_constant_names]. by eapply list_elem_of_lookup_2.
      * apply elem_of_app. by left.
    + rewrite Hmm in Hr'. injection Hr' as <-.
      destruct Hj as [[-> Hj]|[-> Hj]].
      * f_equal. f_equal.
        eapply (NoDup_lookup_inj (Km_names r ++ kcat_names r) j i km Hnd_mm);
          by apply lookup_app_l_Some.
      * exfalso.
        apply NoDup_app in Hnd_mm as (_ & Hdisj & _).
        apply (Hdisj km); by eapply list_elem_of_lookup_2.
  - rewrite Hmm in *. cbn [michaelis_menten_names] in *.
    destruct (michaelis_menten_update_is_Some r b i km kc Hb Hne Hkm Hkc) as [_ Hbkc].
    assert (kc ∈ Km_names r ++ kcat_names r) as Hin.
    { apply elem_of_app. right. by eapply list_elem_of_lookup_2. }
    destruct (Hsome kc) as [[j tk] Hjk]; [by right|].
    rewrite Hjk.
    destruct (update_dictionary_origin self d kc j tk Hd Hjk)
      as [[_ Hsp]|[_ [[-> (r' & Hr' & Hj)]|(r' & Hr' & Hj)]]].
    + exfalso. apply (Hmm_sp kc Hin). by eapply list_elem_of_lookup_2.
    + exfalso. apply (Hma_other kc).
      * rewrite Hr'. cbn [rate_constant_names]. by eapply list_elem_of_lookup_2.
      * apply elem_of_app. by left.
    + rewrite Hmm in Hr'. injection Hr' as <-.
      apply NoDup_app in Hnd_mm as (_ & Hdisj & Hnd_kc).
      destruct Hj as [[-> Hj]|[-> Hj]].
      * exfalso. apply (Hdisj kc); by eapply list_elem_of_lookup_2.
      * by rewrite (NoDup_lookup_inj _ _ _ _ Hnd_kc Hkc Hj).
  - intros i k Hi.
    assert (k ∈ species self) as Hk by (by eapply list_elem_of_lookup_2).
    assert (is_Some (d !! k)) as [[j tk] Hjk].
    { subst d. rewrite lookup_union_is_Some. left.
      by apply initial_concen_update_is_Some. }
    rewrite Hjk.
    destruct (update_dictionary_origin self d k j tk Hd Hjk)
      as [[-> Hsp]|[Hnot _]]; [|done].
    by rewrite (NoDup_lookup_inj _ _ _ _ Hnd_sp Hi Hsp).
Qed.

Lemma distinct_names_resolve_witness :
  exists d,
    _create_update_dictionary stored_network = Some d /\
    d !! "Km"%string = Some (0%nat, T_Km) /\
    d !! "kcat"%string = Some (0%nat, T_kcat) /\
    d !! "P"%string = Some (2%nat, T_initial_concentration).
Proof.
  eexists. split; [reflexivity|].
  assert (NoDup (rate_constant_names stored_network.(mass_action_reactions)
                 ++ michaelis_menten_names stored_network.(michaelis_menten_reactions)
                 ++ stored_network.(species))) as Hnd.
  { apply (bool_decide_unpack _). vm_compute. reflexivity. }
  destruct (distinct_names_resolve stored_network _ eq_refl Hnd) as (_ & Hmm & Hsp).
  assert ((one_reaction 1 2).(mm_reactions) <> []) as Hne by discriminate.
  destruct (Hmm (one_reaction 1 2) 0%nat "Km"%string "kcat"%string
              eq_refl Hne eq_refl eq_refl) as [Hkm Hkc].
  split; [exact Hkm|]. split; [exact Hkc|].
  exact (Hsp 2%nat "P"%string eq_refl).
Defined.

(** ** The splitter: failures and the species of its output *)

Lemma index_Some_elem (x : string) (l : list string) (i : nat) :
  Py.index x l = Some i -> x ∈ l.
Proof.
  revert i. induction l as [|y l IH]; intros i; cbn; [done|].
  destruct (String.eqb_spec y x) as [->|Hne]; [intros _; left|].
  destruct (Py.index x l) as [j|]; [|done]. intros _. right. by eapply IH.
Qed.

Lemma process_reactions_None (items : list (string * list (string * float)))
  (reaction : string) (constants : list (string * float)) :
  (reaction, constants) ∈ items ->
  (forall acc, process_reaction acc reaction constants = None) ->
  forall acc, process_reactions acc items = None.
Proof.
  intros Hin Hfail. induction items as [|[r c] items IH]; intros acc.
  { by apply elem_of_nil in Hin. }
  cbn [process_reactions].
  apply elem_of_cons in Hin as [[= <- <-]|Hin].
  - by rewrite Hfail.
  - destruct (process_reaction acc r c); [|done]. cbn [mbind option_bind].
    by apply IH.
Qed.

(** X7.  An entry whose equation contains ['<->'] makes the splitter raise
    when its rate mapping does not hold exactly two rate constants, and
    when ['<->'] is not one of the space-separated tokens of the
    equation. *)
Theorem malformed_reversible_entry_raises
  (reaction_dict : list (string * list (string * float)))
  (reaction : string) (constants : list (string * float)) :
  (reaction, constants) ∈ reaction_dict ->
  Py.contains "<->" reaction = true ->
  length constants <> 2%nat \/ "<->"%string ∉ Py.split " " reaction ->
  _process_reaction_dict reaction_dict = None.
Proof.
  intros Hin Hc Hbad. unfold _process_reaction_dict.
  apply (process_reactions_None _ reaction constants Hin).
  intros acc. unfold process_reaction. rewrite Hc.
  destruct constants as [|[f fv] [|[r rv] [|? ?]]];
    cbn [Py.keys fmap list_fmap fst]; try done.
  destruct Hbad as [Hlen|Htok]; [done|].
  destruct (Py.index "<->" (Py.split " " reaction)) as [i|] eqn:Hi; [|done].
  by apply index_Some_elem in Hi.
Qed.

Lemma malformed_reversible_entry_raises_witness :
  _process_reaction_dict
    [("B -> C"%string, [("k3"%string, 3)]);
     ("A<->B"%string, [("k1"%string, 1); ("k2"%string, 2)])] = None.
Proof.
  apply (malformed_reversible_entry_raises _ "A<->B"
           [("k1"%string, 1); ("k2"%string, 2)]).
  - right. left.
  - reflexivity.
  - right. apply (bool_decide_unpack _). vm_compute. reflexivity.
Defined.

(** Cutting at a character and joining with it are inverse to each other
    on tokens free of that character. *)
Lemma split_no_sep (sep : ascii) (s : string) :
  sep ∉ list_ascii_of_string s -> Py.split sep s = [s].
Proof.
  induction s as [|c s IH]; cbn; [done|]. intros Hc.
  apply not_elem_of_cons in Hc as [Hne Hc].
  destruct (Ascii.eqb_spec c sep) as [->|_]; [done|].
  by rewrite IH.
Qed.

Lemma split_app_sep (sep : ascii) (s rest : string) :
  sep ∉ list_ascii_of_string s ->
  Py.split sep (s +:+ String sep rest) = s :: Py.split sep rest.
Proof.
  induction s as [|c s IH]; simpl.
  - intros _. by rewrite Ascii.eqb_refl.
  - intros Hc. apply not_elem_of_cons in Hc as [Hne Hc].
    destruct (Ascii.eqb_spec c sep) as [->|_]; [done|].
    by rewrite IH.
Qed.

Lemma split_tokens_no_sep (sep : ascii) (s : string) :
  Forall (fun tok => sep ∉ list_ascii_of_string tok) (Py.split sep s).
Proof.
  induction s as [|c s IH]; cbn.
  - constructor; [|constructor]. cbn. apply not_elem_of_nil.
  - destruct (Ascii.eqb_spec c sep) as [->|Hne].
    + constructor; [|done]. cbn. apply not_elem_of_nil.
    + destruct (Py.split sep s) as [|tok toks].
      * constructor; [|constructor]. cbn.
        apply not_elem_of_cons. split; [done|apply not_elem_of_nil].
      * apply Forall_cons in IH as [Htok Htoks]. constructor; [|done].
        cbn. apply not_elem_of_cons. split; [done|exact Htok].
Qed.

Lemma split_nonempty (sep : ascii) (s : string) : Py.split sep s <> [].
Proof.
  destruct s as [|c s]; cbn; [done|].
  destruct (Ascii.eqb c sep); [done|]. by destruct (Py.split sep s).
Qed.

Lemma split_join (l : list string) :
  l <> [] -> Forall (fun tok => " "%char ∉ list_ascii_of_string tok) l ->
  Py.split " " (Py.join " " l) = l.
Proof.
  induction l as [|x l IH]; [done|]. intros _ Hall.
  apply Forall_cons in Hall as [Hx Hall].
  destruct l as [|y l].
  - cbn. by apply split_no_sep.
  - change (Py.join " " (x :: y :: l))
      with (x +:+ String " " (Py.join " " (y :: l))).
    rewrite split_app_sep by done. f_equal. by apply IH.
Qed.

Lemma rev_is_reverse {X} (l : list X) : rev l = reverse l.
Proof. by rewrite rev_alt. Qed.

Lemma replace_first_no_sep (l : list string) :
  Forall (fun tok => " "%char ∉ list_ascii_of_string tok) l ->
  Forall (fun tok => " "%char ∉ list_ascii_of_string tok)
    (replace_first "<->" "->" l).
Proof.
  induction 1 as [|x l Hx Hl IH]; cbn; [constructor|].
  destruct (String.eqb x "<->"); constructor; try done.
  cbn. intros Hin.
  repeat (apply elem_of_cons in Hin as [Hin|Hin]; [discriminate|]).
  by apply elem_of_nil in Hin.
Qed.

Lemma replace_first_nonempty (old new : string) (l : list string) :
  l <> [] -> replace_first old new l <> [].
Proof. destruct l as [|x l]; [done|]. cbn. by destruct (String.eqb x old). Qed.

Lemma replace_first_elem (old new x : string) (l : list string) :
  x <> old -> x <> new -> x ∈ replace_first old new l <-> x ∈ l.
Proof.
  intros Ho Hn. induction l as [|y l IH]; cbn; [done|].
  destruct (String.eqb_spec y old) as [->|Hne].
  - rewrite !elem_of_cons. tauto.
  - rewrite !elem_of_cons, IH. done.
Qed.

Lemma is_specie_not_arrow (x : string) :
  is_specie x = true -> x <> "<->"%string /\ x <> "->"%string.
Proof.
  unfold is_specie. intros [Hc _]%andb_true_iff.
  apply negb_true_iff, bool_decide_eq_false in Hc.
  split; intros ->; apply Hc; unfold characters.
  - do 3 right. left.
  - right. left.
Qed.

(** The species tokens of the two equations written for a reversible
    entry are those of the entry. *)
Lemma forward_tokens_species (reaction x : string) :
  is_specie x = true ->
  (x ∈ Py.split " " (forward_equation reaction) <-> x ∈ Py.split " " reaction) /\
  (x ∈ Py.split " " (reverse_equation reaction) <-> x ∈ Py.split " " reaction).
Proof.
  intros [Hx1 Hx2]%is_specie_not_arrow.
  unfold forward_equation, reverse_equation, forward_tokens.
  pose proof (split_tokens_no_sep " " reaction) as Hns.
  pose proof (split_nonempty " " reaction) as Hne.
  split.
  - rewrite split_join.
    + by apply replace_first_elem.
    + by apply replace_first_nonempty.
    + by apply replace_first_no_sep.
  - rewrite split_join.
    + rewrite rev_is_reverse, elem_of_reverse. by apply replace_first_elem.
    + intros Hnil. apply (f_equal (@rev string)) in Hnil.
      rewrite rev_involutive in Hnil. by eapply replace_first_nonempty.
    + rewrite rev_is_reverse. apply Forall_reverse. by apply replace_first_no_sep.
Qed.

Lemma setitem_keys {V} (d : list (string * V)) (k k' : string) (v : V) :
  k ∈ Py.keys (Py.setitem d k' v) <-> k ∈ Py.keys d \/ k = k'.
Proof.
  induction d as [|[k0 v0] d IH]; cbn.
  - unfold Py.keys. cbn. rewrite list_elem_of_singleton, elem_of_nil. tauto.
  - destruct (String.eqb_spec k0 k') as [->|Hne]; unfold Py.keys in *; cbn.
    + rewrite !elem_of_cons. tauto.
    + rewrite !elem_of_cons, IH. tauto.
Qed.

(** The equations an entry contributes to the splitter's output. *)
Lemma process_reaction_keys (acc acc' : list (string * list (string * float)))
  (reaction : string) (constants : list (string * float)) (k : string) :
  process_reaction acc reaction constants = Some acc' ->
  k ∈ Py.keys acc' <->
  k ∈ Py.keys acc \/
  (if Py.contains "<->" reaction
   then k = forward_equation reaction \/ k = reverse_equation reaction
   else k = reaction).
Proof.
  unfold process_reaction. destruct (Py.contains "<->" reaction).
  - destruct (Py.keys constants) as [|f [|r [|? ?]]]; try done.
    destruct (Py.index "<->" (Py.split " " reaction)) as [i|] eqn:Hi; [|done].
    cbn [mbind option_bind]. rewrite (index_replace_first _ _ _ _ Hi).
    destruct (Py.getitem constants f) as [fv|]; [|done]. cbn [mbind option_bind].
    destruct (Py.getitem constants r) as [rv|]; [|done]. cbn [mbind option_bind].
    intros [= <-]. rewrite !setitem_keys.
    unfold forward_equation, reverse_equation, forward_tokens. tauto.
  - intros [= <-]. by rewrite setitem_keys.
Qed.

Lemma process_reactions_species (items : list (string * list (string * float)))
  (x : string) :
  is_specie x = true ->
  forall acc d,
    process_reactions acc items = Some d ->
    (exists key, key ∈ Py.keys d /\ x ∈ Py.split " " key) <->
    (exists key, key ∈ Py.keys acc ++ Py.keys items /\ x ∈ Py.split " " key).
Proof.
  intros Hx. induction items as [|[reaction constants] items IH]; intros acc d.
  - cbn. intros [= <-]. unfold Py.keys. cbn. by rewrite app_nil_r.
  - cbn [process_reactions].
    destruct (process_reaction acc reaction constants) as [acc'|] eqn:Hacc; [|done].
    cbn [mbind option_bind]. intros Hd. rewrite (IH _ _ Hd).
    destruct (forward_tokens_species reaction x Hx) as [Hf Hr].
    unfold Py.keys at 4. cbn [fmap list_fmap fst].
    fold (@Py.keys (list (string * float)) items).
    split; intros (key & Hkey & Hin).
    + apply elem_of_app in Hkey as [Hkey|Hkey].
      * apply (process_reaction_keys _ _ _ _ key Hacc) in Hkey as [Hkey|Hkey].
        { exists key. split; [|done]. apply elem_of_app. by left. }
        exists reaction. split; [apply elem_of_app; right; left|].
        destruct (Py.contains "<->" reaction).
        -- destruct Hkey as [->| ->]; tauto.
        -- by subst key.
      * exists key. split; [|done]. apply elem_of_app. right. by right.
    + apply elem_of_app in Hkey as [Hkey|Hkey].
      * exists key. split; [|done]. apply elem_of_app. left.
        apply (process_reaction_keys _ _ _ _ key Hacc). by left.
      * apply elem_of_cons in Hkey as [->|Hkey].
        -- destruct (Py.contains "<->" reaction) eqn:Hc.
           ++ exists (forward_equation reaction). split; [|tauto].
              apply elem_of_app. left.
              apply (process_reaction_keys _ _ _ _ _ Hacc). rewrite Hc. tauto.
           ++ exists reaction. split; [|done]. apply elem_of_app. left.
              apply (process_reaction_keys _ _ _ _ _ Hacc). rewrite Hc. tauto.
        -- exists key. split; [|done]. apply elem_of_app. by right.
Qed.

Lemma merged_keys_elem (a b : list string) (k : string) :
  k ∈ merged_keys a b <-> k ∈ a \/ k ∈ b.
Proof.
  unfold merged_keys. rewrite elem_of_app, list_elem_of_filter.
  destruct (decide (k ∈ a)); tauto.
Qed.

(** X8.  The splitter neither adds nor removes a species: the species
    discovered from the equations it returns are those discovered from the
    equations it was given. *)
Theorem splitter_preserves_species
  (reaction_dict processed : list (string * list (string * float)))
  (michaelis_menten_keys : list string) (x : string) :
  _process_reaction_dict reaction_dict = Some processed ->
  x ∈ discover_species (Py.keys processed) michaelis_menten_keys <->
  x ∈ discover_species (Py.keys reaction_dict) michaelis_menten_keys.
Proof.
  intros Hp. rewrite !discover_species_elem.
  destruct (is_specie x) eqn:Hx; [|by split; intros [_ ?]].
  pose proof (process_reactions_species reaction_dict x Hx [] processed Hp) as Hk.
  unfold Py.keys at 2 in Hk. cbn [fmap list_fmap app] in Hk.
  setoid_rewrite merged_keys_elem.
  split; intros [(key & [Hkey|Hkey] & Hin) _]; (split; [|done]).
  - destruct Hk as [Hk _]. destruct Hk as (key' & ? & ?); eauto.
  - eauto.
  - destruct Hk as [_ Hk]. destruct Hk as (key' & ? & ?); eauto.
  - eauto.
Qed.

Lemma splitter_preserves_species_witness :
  "B"%string ∈ discover_species ["A -> B"; "B -> A"]%string [] <->
  "B"%string ∈ discover_species ["A <-> B"]%string [].
Proof.
  apply (splitter_preserves_species
           [("A <-> B"%string, [("k1"%string, 1); ("k2"%string, 2)])]
           [("A -> B"%string, [("k1"%string, 1)]);
            ("B -> A"%string, [("k2"%string, 2)])] [] "B").
  reflexivity.
Defined.

(** ** The equation parser and whitespace *)

Lemma remove_spaces_idemp (s : string) :
  Py.remove_spaces (Py.remove_spaces s) = Py.remove_spaces s.
Proof.
  induction s as [|c s IH]; [done|]. cbn.
  destruct (Py.is_space c) eqn:Hc; [done|]. cbn. by rewrite Hc, IH.
Qed.

Lemma split_remove_spaces (sep : ascii) (s : string) :
  Py.is_space sep = false ->
  Py.split sep (Py.remove_spaces s) = Py.remove_spaces <$> Py.split sep s.
Proof.
  intros Hsep. induction s as [|c s IH]; [done|].
  cbn [Py.remove_spaces Py.split].
  destruct (Ascii.eqb_spec c sep) as [->|Hne].
  - rewrite Hsep. cbn [Py.split]. rewrite Ascii.eqb_refl, IH. done.
  - pose proof (split_nonempty sep s) as Hs.
    destruct (Py.split sep s) as [|tok toks] eqn:Htoks; [done|].
    destruct (Py.is_space c) eqn:Hc.
    + rewrite IH. cbn [fmap list_fmap Py.remove_spaces]. by rewrite Hc.
    + cbn [Py.split]. destruct (Ascii.eqb_spec c sep) as [?|_]; [done|].
      rewrite IH. cbn [fmap list_fmap Py.remove_spaces]. by rewrite Hc.
Qed.

Lemma parse_side_remove_spaces (side : string) :
  parse_side (Py.remove_spaces side) = parse_side side.
Proof.
  unfold parse_side. rewrite split_remove_spaces by done.
  rewrite <- list_fmap_compose. apply list_fmap_ext. intros _ term _.
  cbn. by rewrite remove_spaces_idemp.
Qed.

(** X10.  Whitespace inside one side of an equation never matters to the
    parser: a side and the same side with all its whitespace removed are
    cut into the same terms. *)
Theorem parse_side_ignores_whitespace (side : string) :
  parse_side (Py.remove_spaces side) = parse_side side.
Proof. apply parse_side_remove_spaces. Qed.

(** ** The mass-action parser *)

Lemma setitem_length (a a' : list float) (i : nat) (v : float) :
  setitem a i v = Some a' -> length a' = length a.
Proof.
  unfold setitem. case_decide; [|done]. intros [= <-]. apply length_insert.
Qed.

Lemma assign_term_length (sp : list string) (row row' : list float)
  (term : list string) :
  assign_term sp row term = Some row' -> length row' = length row.
Proof.
  unfold assign_term. intros H.
  repeat match type of H with
         | (?o ≫= _) = Some _ =>
             destruct o; [cbn [mbind option_bind] in H|done]
         end.
  by eapply setitem_length.
Qed.

Lemma assign_terms_length (sp : list string) (skip : list string -> bool)
  (terms : list (list string)) : forall (row row' : list float),
  assign_terms sp skip row terms = Some row' -> length row' = length row.
Proof.
  induction terms as [|t terms IH]; intros row row'; cbn.
  - by intros [= <-].
  - destruct (skip t); [apply IH|].
    destruct (assign_term sp row t) as [row1|] eqn:H1; [|done].
    cbn [mbind option_bind]. intros H. apply IH in H.
    apply assign_term_length in H1. congruence.
Qed.

Lemma parse_mass_action_reaction_shape (sp : list string) (reaction : string)
  (constants : list (string * float)) (name : string) (rate : float)
  (a n : list float) :
  parse_mass_action_reaction sp reaction constants = Some (name, rate, a, n) ->
  length a = length sp /\ length n = length sp.
Proof.
  unfold parse_mass_action_reaction. intros H.
  destruct (head constants) as [[rate_name rate0]|]; [|done].
  cbn [mbind option_bind] in H.
  destruct (parse_sides reaction) as [[subs prods]|]; [|done].
  cbn [mbind option_bind] in H.
  destruct (assign_terms sp no_term _ subs) as [a0|] eqn:Ha; [|done].
  cbn [mbind option_bind] in H.
  destruct (assign_terms sp zero_term _ prods) as [b0|] eqn:Hb; [|done].
  cbn [mbind option_bind] in H. injection H as <- <- <- <-.
  apply assign_terms_length in Ha, Hb. rewrite zeros_length in Ha, Hb.
  unfold Np.subtract. rewrite length_zip_with. lia.
Qed.

Lemma vstack_rectangular (rows : list (list float)) (n : nat) :
  rows <> [] -> Forall (fun row => length row = n) rows ->
  Np.vstack rows = Some rows.
Proof.
  intros Hne Hall. destruct rows as [|r rs]; [done|]. unfold Np.vstack.
  apply Forall_cons in Hall as [Hr Hrs].
  replace (forallb _ rs) with true; [done|]. symmetry.
  apply forallb_forall. intros r' Hr'. apply Nat.eqb_eq.
  apply list_elem_of_In in Hr'. rewrite Forall_forall in Hrs.
  rewrite Hr. by apply Hrs.
Qed.

(** What [_parse_mass_action] returns. *)
Lemma parse_mass_action_shape
  (mass_action_dict : list (string * list (string * float)))
  (sp : list string) (set : instance MassActionReactions) :
  _parse_mass_action mass_action_dict sp = Some set ->
  match set with
  | Dummy => mass_action_dict = []
  | Populated r =>
      mass_action_dict <> [] /\
      r.(ma_reactions) = Py.keys mass_action_dict /\
      length r.(rate_names) = length mass_action_dict /\
      length r.(A) = length mass_action_dict /\
      ma_shaped r (length sp)
  | Unset => False
  end.
Proof.
  unfold _parse_mass_action. case_decide as Hlen.
  { cbn. intros [= <-]. by apply nil_length_inv. }
  destruct (mapM _ _) as [rows|] eqn:Hrows; [|done].
  cbn [mbind option_bind].
  assert (mass_action_dict <> []) as Hne by (by intros ->).
  apply mapM_Some in Hrows.
  pose proof (Forall2_length _ _ _ Hrows) as Hlenrows.
  unfold Py.keys in Hlenrows. rewrite length_fmap in Hlenrows.
  assert (Forall (fun row => length row.1.2 = length sp /\ length row.2 = length sp)
            rows) as Hshape.
  { apply Forall_forall. intros row Hrow.
    apply list_elem_of_lookup in Hrow as [i Hi].
    destruct (Forall2_lookup_r _ _ _ _ _ Hrows Hi) as (reaction & _ & Hr).
    destruct (Py.getitem mass_action_dict reaction) as [constants|]; [|done].
    cbn [mbind option_bind] in Hr. destruct row as [[[name rate] a] n].
    by eapply parse_mass_action_reaction_shape. }
  assert (rows <> []) as Hrne.
  { intros ->. cbn in Hlenrows. by destruct mass_action_dict. }
  unfold MassActionReactions_init. cbn [type_of types_all forallb pytype_eqb andb].
  rewrite (vstack_rectangular _ (length sp)).
  2: { intros Hnil. apply fmap_nil_inv in Hnil. done. }
  2: { apply Forall_fmap. eapply Forall_impl; [exact Hshape|]. intros ? [? ?]; by cbn. }
  cbn [mbind option_bind].
  rewrite (vstack_rectangular _ (length sp)).
  2: { intros Hnil. apply fmap_nil_inv in Hnil. done. }
  2: { apply Forall_fmap. eapply Forall_impl; [exact Hshape|]. intros ? [? ?]; by cbn. }
  cbn [mbind option_bind]. intros [= <-].
  split; [done|]. split; [done|]. cbn [rate_names A].
  rewrite !length_fmap. split; [done|]. split; [done|].
  destruct (diag_shape ((fun row => row.1.1.2) <$> rows)) as (HK1 & HK2 & _).
  rewrite length_fmap in HK1, HK2.
  split; cbn [A N K]; rewrite ?length_fmap; try done.
  - apply Forall_fmap. eapply Forall_impl; [exact Hshape|]. intros ? [? ?]; by cbn.
  - apply Forall_fmap. eapply Forall_impl; [exact Hshape|]. intros ? [? ?]; by cbn.
  - intros Hnil. apply fmap_nil_inv in Hnil. done.
Qed.

(** X11.  [_parse_mass_action] never leaves an object without attributes.
    It returns the dummy exactly for an empty dictionary; for any other
    dictionary it returns, if at all, a set that lists the dictionary's
    equations in order, with one rate name per equation, a square rate
    matrix of that size, and in [A] and [N] one row per equation with one
    entry per species. *)
Theorem parse_mass_action_result
  (mass_action_dict : list (string * list (string * float)))
  (sp : list string) (set : instance MassActionReactions) :
  _parse_mass_action mass_action_dict sp = Some set ->
  match set with
  | Dummy => mass_action_dict = []
  | Populated r =>
      mass_action_dict <> [] /\
      r.(ma_reactions) = Py.keys mass_action_dict /\
      length r.(rate_names) = length mass_action_dict /\
      length r.(A) = length mass_action_dict /\
      ma_shaped r (length sp)
  | Unset => False
  end.
Proof. apply parse_mass_action_shape. Qed.

Lemma parse_mass_action_result_witness :
  exists r,
    _parse_mass_action [("2*A + B -> C"%string, [("k"%string, 2)])]
      ["A"; "B"; "C"]%string = Some (Populated r) /\
    r.(ma_reactions) = ["2*A + B -> C"%string] /\
    length r.(rate_names) = 1%nat /\
    length r.(A) = 1%nat /\
    ma_shaped r 3.
Proof.
  eexists. split; [reflexivity|].
  pose proof (parse_mass_action_result
                [("2*A + B -> C"%string, [("k"%string, 2)])]
                ["A"; "B"; "C"]%string _ eq_refl) as (_ & H1 & H2 & H3 & H4).
  done.
Defined.

Lemma index_Some_lookup (x : string) (l : list string) (i : nat) :
  Py.index x l = Some i -> l !! i = Some x.
Proof.
  revert i. induction l as [|y l IH]; intros i; cbn; [done|].
  destruct (String.eqb_spec y x) as [->|Hne]; [by intros [= <-]|].
  destruct (Py.index x l) as [j|]; [|done]. cbn. intros [= <-]. by apply IH.
Qed.

Lemma index_None (x : string) (l : list string) :
  x ∉ l -> Py.index x l = None.
Proof.
  intros Hx. destruct (Py.index x l) as [i|] eqn:Hi; [|done].
  by apply index_Some_elem in Hi.
Qed.

Lemma assign_terms_app (sp : list string) (skip : list string -> bool)
  (t1 t2 : list (list string)) : forall row : list float,
  assign_terms sp skip row (t1 ++ t2)
  = assign_terms sp skip row t1 ≫= fun row' => assign_terms sp skip row' t2.
Proof.
  induction t1 as [|t t1 IH]; intros row; cbn; [done|].
  destruct (skip t); [apply IH|].
  destruct (assign_term sp row t); cbn [mbind option_bind]; [apply IH|done].
Qed.

Lemma assign_term_other (sp : list string) (row row' : list float)
  (t : list string) (x : string) (i : nat) :
  assign_term sp row t = Some row' ->
  term_name t <> Some x -> Py.index x sp = Some i ->
  row' !! i = row !! i.
Proof.
  unfold assign_term. intros H Hname Hi.
  destruct (term_name t) as [name|]; [|done]. cbn [mbind option_bind] in H.
  destruct (term_coeff t) as [z|]; [|done]. cbn [mbind option_bind] in H.
  destruct (Py.index name sp) as [j|] eqn:Hj; [|done].
  cbn [mbind option_bind] in H.
  destruct (float_of_pyint z) as [v|]; [|done]. cbn [mbind option_bind] in H.
  apply (setitem_other _ _ i j v H).
  intros ->. apply index_Some_lookup in Hi, Hj. congruence.
Qed.

Lemma assign_terms_other (sp : list string) (skip : list string -> bool)
  (x : string) (i : nat) (terms : list (list string)) :
  forall row row' : list float,
  assign_terms sp skip row terms = Some row' ->
  Forall (fun t => term_name t <> Some x) terms -> Py.index x sp = Some i ->
  row' !! i = row !! i.
Proof.
  induction terms as [|t terms IH]; intros row row'; cbn.
  - by intros [= <-].
  - intros H Hall Hi. apply Forall_cons in Hall as [Ht Hall].
    destruct (skip t); [by apply IH|].
    destruct (assign_term sp row t) as [row1|] eqn:H1; [|done].
    cbn [mbind option_bind] in H. rewrite (IH _ _ H Hall Hi).
    by eapply assign_term_other.
Qed.

Lemma assign_terms_last (sp : list string) (x : string) (z : Z) (i : nat)
  (before after : list (list string)) (t : list string) (row row' : list float) :
  assign_terms sp no_term row (before ++ t :: after) = Some row' ->
  term_name t = Some x -> term_coeff t = Some z ->
  Forall (fun t' => term_name t' <> Some x) after ->
  Py.index x sp = Some i ->
  exists v, float_of_pyint z = Some v /\ row' !! i = Some v.
Proof.
  intros H Hx Hz Hafter Hi. rewrite assign_terms_app in H.
  destruct (assign_terms sp no_term row before) as [a0|]; [|done].
  cbn [mbind option_bind assign_terms no_term] in H.
  destruct (assign_term sp a0 t) as [a1|] eqn:Ha1; [|done].
  cbn [mbind option_bind] in H.
  rewrite (assign_terms_other _ _ x i _ _ _ H Hafter Hi).
  unfold assign_term in Ha1. rewrite Hx, Hz in Ha1. cbn [mbind option_bind] in Ha1.
  rewrite Hi in Ha1. cbn [mbind option_bind] in Ha1.
  destruct (float_of_pyint z) as [v|]; [|done]. cbn [mbind option_bind] in Ha1.
  exists v. split; [done|]. by eapply setitem_same.
Qed.

(** X12.  The row of reaction orders that the parser builds for an
    equation is determined term by term: a species has the coefficient of
    the last term of the substrate side that names it, whatever terms stand
    before and after (the coefficients are assigned, not added up: in
    ['A + 2*A + C -> B'] the order of [A] is 2), and a species that no
    term of the substrate side names has order 0. *)
Theorem repeated_species_keeps_last_coefficient (sp : list string)
  (reaction : string) (constants : list (string * float))
  (name : string) (rate : float) (a n : list float)
  (subs prods : list (list string)) :
  parse_mass_action_reaction sp reaction constants = Some (name, rate, a, n) ->
  parse_sides reaction = Some (subs, prods) ->
  (forall before t after x z i,
     subs = before ++ t :: after ->
     term_name t = Some x -> term_coeff t = Some z ->
     Forall (fun t' => term_name t' <> Some x) after ->
     Py.index x sp = Some i ->
     exists v, float_of_pyint z = Some v /\ a !! i = Some v) /\
  (forall x i,
     Forall (fun t => term_name t <> Some x) subs ->
     Py.index x sp = Some i ->
     a !! i = Some 0).
Proof.
  unfold parse_mass_action_reaction. intros H Hsides.
  destruct (head constants) as [[rate_name rate0]|]; [|done].
  cbn [mbind option_bind] in H. rewrite Hsides in H.
  cbn [mbind option_bind] in H.
  destruct (assign_terms sp no_term _ subs) as [a0|] eqn:Ha0; [|done].
  cbn [mbind option_bind] in H.
  destruct (assign_terms sp zero_term _ prods) as [b0|]; [|done].
  cbn [mbind option_bind] in H. injection H as _ _ <- _.
  split.
  - intros before t after x z i -> Hx Hz Hafter Hi.
    by eapply assign_terms_last.
  - intros x i Hall Hi.
    rewrite (assign_terms_other _ _ x i _ _ _ Ha0 Hall Hi).
    apply lookup_replicate. split; [done|].
    apply index_Some_lookup in Hi. by eapply lookup_lt_Some.
Qed.

Lemma repeated_species_keeps_last_coefficient_witness :
  parse_mass_action_reaction ["A"; "B"; "C"]%string "A + 2*A + C -> B"
    [("k"%string, 1)]
  = Some ("k"%string, 1, [2; 0; 1], [-2; 1; -1]) /\
  (exists v, float_of_pyint 2 = Some v /\ [2; 0; 1] !! 0%nat = Some v) /\
  [2; 0; 1] !! 1%nat = Some 0.
Proof.
  split; [reflexivity|].
  destruct (repeated_species_keeps_last_coefficient ["A"; "B"; "C"]%string
              "A + 2*A + C -> B" [("k"%string, 1)] "k" 1 [2; 0; 1] [-2; 1; -1]
              [["A"]; ["2"; "A"]; ["C"]]%string [["B"%string]]
              eq_refl eq_refl) as [Hlast Hnone].
  split.
  - apply (Hlast [["A"%string]] ["2"; "A"]%string [["C"%string]] "A"%string 2%Z 0%nat);
      try reflexivity.
    repeat constructor. discriminate.
  - apply (Hnone "B"%string 1%nat); [|reflexivity].
    repeat constructor; discriminate.
Defined.

Lemma assign_terms_None (sp : list string) (skip : list string -> bool)
  (terms : list (list string)) (t : list string) :
  t ∈ terms -> skip t = false ->
  (forall row, assign_term sp row t = None) ->
  forall row, assign_terms sp skip row terms = None.
Proof.
  intros Hin Hskip Hfail. induction terms as [|t' terms IH]; intros row.
  { by apply elem_of_nil in Hin. }
  cbn. apply elem_of_cons in Hin as [<-|Hin].
  - by rewrite Hskip, Hfail.
  - destruct (skip t'); [by apply IH|].
    destruct (assign_term sp row t'); cbn [mbind option_bind]; [by apply IH|done].
Qed.

Lemma assign_term_fails (sp : list string) (t : list string) :
  term_coeff t = None \/ (exists x, term_name t = Some x /\ x ∉ sp) ->
  forall row, assign_term sp row t = None.
Proof.
  intros Hbad row. unfold assign_term.
  destruct (term_name t) as [name|]; [|done]. cbn [mbind option_bind].
  destruct Hbad as [->|(x & [= ->] & Hsp)]; [done|].
  destruct (term_coeff t); cbn [mbind option_bind]; [|done].
  by rewrite index_None.
Qed.

Lemma parse_mass_action_reaction_None (sp : list string) (reaction : string) :
  (forall constants, parse_mass_action_reaction sp reaction constants = None) ->
  forall d : list (string * list (string * float)),
    reaction ∈ Py.keys d -> _parse_mass_action d sp = None.
Proof.
  intros Hfail d Hin. unfold _parse_mass_action. case_decide as Hlen.
  { apply nil_length_inv in Hlen. subst d. by apply elem_of_nil in Hin. }
  destruct (mapM _ _) as [rows|] eqn:Hrows; [|done]. exfalso.
  apply mapM_Some in Hrows. apply list_elem_of_lookup in Hin as [i Hi].
  destruct (Forall2_lookup_l _ _ _ _ _ Hrows Hi) as (row & _ & Hrow).
  destruct (Py.getitem d reaction); [|done]. cbn [mbind option_bind] in Hrow.
  by rewrite Hfail in Hrow.
Qed.

Lemma unparsable_reaction (sp : list string) (reaction : string) :
  parse_sides reaction = None \/
  (exists subs prods t,
     parse_sides reaction = Some (subs, prods) /\
     (t ∈ subs \/ (t ∈ prods /\ t <> ["0"%string])) /\
     (term_coeff t = None \/ exists x, term_name t = Some x /\ x ∉ sp)) ->
  forall constants, parse_mass_action_reaction sp reaction constants = None.
Proof.
  intros Hbad constants. unfold parse_mass_action_reaction.
  destruct (head constants) as [[rate_name rate]|]; [|done].
  cbn [mbind option_bind].
  destruct Hbad as [->|(subs & prods & t & -> & Ht & Hfail)]; [done|].
  cbn [mbind option_bind].
  destruct Ht as [Ht|[Ht Hzero]].
  - rewrite (assign_terms_None sp no_term subs t); try done.
    by apply assign_term_fails.
  - destruct (assign_terms sp no_term _ subs); [|done]. cbn [mbind option_bind].
    rewrite (assign_terms_None sp zero_term prods t); try done.
    + unfold zero_term. by apply bool_decide_eq_false.
    + by apply assign_term_fails.
Qed.

(** X13.  [_parse_mass_action] raises when an equation of the dictionary
    is not cut in two by ['->'], when the coefficient of a term is not an
    integer literal, and when a term names a species that is not in the
    species list; only the product term ['0'] is passed over. *)
Theorem parse_mass_action_raises
  (mass_action_dict : list (string * list (string * float)))
  (sp : list string) (reaction : string) :
  reaction ∈ Py.keys mass_action_dict ->
  parse_sides reaction = None \/
  (exists subs prods t,
     parse_sides reaction = Some (subs, prods) /\
     (t ∈ subs \/ (t ∈ prods /\ t <> ["0"%string])) /\
     (term_coeff t = None \/ exists x, term_name t = Some x /\ x ∉ sp)) ->
  _parse_mass_action mass_action_dict sp = None.
Proof.
  intros Hin Hbad. apply (parse_mass_action_reaction_None sp reaction); [|done].
  by apply unparsable_reaction.
Qed.

Lemma parse_mass_action_raises_witness :
  _parse_mass_action [("A -> B -> C"%string, [("k"%string, 1)])]
    ["A"; "B"; "C"]%string = None /\
  _parse_mass_action [("A -> D"%string, [("k"%string, 1)])]
    ["A"; "B"; "C"]%string = None /\
  _parse_mass_action [("B -> A * 2"%string, [("k"%string, 1)])]
    ["A"; "B"; "C"]%string = None.
Proof.
  split; [|split].
  - apply (parse_mass_action_raises _ _ "A -> B -> C"); [left|by left].
  - apply (parse_mass_action_raises _ _ "A -> D"); [left|right].
    exists [["A"%string]], [["D"%string]], ["D"%string].
    split; [reflexivity|]. split.
    + right. split; [left|discriminate].
    + right. exists "D"%string. split; [reflexivity|].
      apply (bool_decide_unpack _). vm_compute. reflexivity.
  - apply (parse_mass_action_raises _ _ "B -> A * 2"); [left|right].
    exists [["B"%string]], [["A"; "2"]%string], ["A"; "2"]%string.
    split; [reflexivity|]. split.
    + right. split; [left|discriminate].
    + left. reflexivity.
Defined.

(** ** A single reaction, from its equation to its rates *)

Lemma SFmul_comm (x y : spec_float) : SF64mul x y = SF64mul y x.
Proof.
  unfold SF64mul, SFmul.
  destruct x as [sx|sx| |sx mx ex], y as [sy|sy| |sy my ey];
    try reflexivity; try (by rewrite xorb_comm).
  by rewrite xorb_comm, Pos.mul_comm, Z.add_comm.
Qed.

Lemma float_mul_comm (x y : float) : x * y = y * x.
Proof.
  apply Prim2SF_inj. rewrite !FloatAxioms.mul_spec. apply SFmul_comm.
Qed.

Lemma one_mul (x : float) : 1 * x = x.
Proof. rewrite float_mul_comm. apply Binary64.mul_one. Qed.

Lemma minus_one_mul (x : float) : (-1) * x = - x.
Proof. rewrite float_mul_comm. apply Binary64.mul_minus_one. Qed.

(** The assignment of one term. *)
Lemma assign_term_eq (sp : list string) (row : list float) (t : list string)
  (x : string) (z : Z) (v : float) (i : nat) :
  term_name t = Some x -> term_coeff t = Some z -> float_of_pyint z = Some v ->
  Py.index x sp = Some i -> (i < length row)%nat ->
  assign_term sp row t = Some (<[i := v]> row).
Proof.
  intros Hx Hz Hv Hi Hlt. unfold assign_term.
  rewrite Hx, Hz. cbn [mbind option_bind]. rewrite Hi. cbn [mbind option_bind].
  rewrite Hv. cbn [mbind option_bind]. unfold setitem. by case_decide.
Qed.

Section SingleReaction.

Variable power : float -> float -> float.
Hypothesis power_0 : forall y, power y 0 = 1.

Lemma fold_zero_orders (c : list float) : forall (n : nat) (acc : float),
  length c = n ->
  fold_left PrimFloat.mul (zip_with power c (Np.zeros n)) acc = acc.
Proof.
  induction c as [|x c IH]; intros [|n] acc Hn; cbn in *; try done.
  rewrite power_0, Binary64.mul_one. apply IH. lia.
Qed.

Lemma fold_one_order (c : list float) : forall (n i : nat) (ci v acc : float),
  length c = n -> c !! i = Some ci ->
  fold_left PrimFloat.mul (zip_with power c (<[i := v]> (Np.zeros n))) acc
  = acc * power ci v.
Proof.
  induction c as [|x c IH]; intros [|n] i ci v acc Hn Hi; cbn in *; try done.
  destruct i as [|i]; cbn in *.
  - injection Hi as ->. apply fold_zero_orders. lia.
  - rewrite power_0, Binary64.mul_one. apply IH; [lia|done].
Qed.

(** With a single species of non-zero order, the product of the powers is
    the power of that species' concentration. *)
Lemma product_one_order (c : list float) (n i : nat) (ci v : float) :
  length c = n -> c !! i = Some ci ->
  mass_action_product power c (<[i := v]> (Np.zeros n)) = power ci v.
Proof.
  unfold mass_action_product. intros Hn Hi.
  destruct c as [|x c]; [done|]. destruct n as [|n]; [done|].
  destruct i as [|i]; cbn in *.
  - injection Hi as ->. apply fold_zero_orders. lia.
  - rewrite power_0, (fold_one_order c n i ci v) by (done || lia).
    apply one_mul.
Qed.




Hypothesis power_1 : forall y, power y 1 = y.


End SingleReaction.

Lemma pow_01_one (y : float) : pow_01 y 1 = y.
Proof. reflexivity. Qed.




(** ** The Michaelis-Menten parser *)

Lemma first_of_singleton (s : gset string) (x : string) :
  (forall z, z ∈ s <-> z = x) -> first_of s = Some x.
Proof.
  intros Hs. unfold first_of.
  assert (s = {[x]}) as ->.
  { apply set_eq. intros z. rewrite elem_of_singleton. apply Hs. }
  by rewrite elements_singleton.
Qed.

Lemma first_of_empty (s : gset string) :
  (forall z, z ∉ s) -> first_of s = None.
Proof.
  intros Hs. unfold first_of.
  assert (s = ∅) as ->.
  { apply set_eq. intros z. split; [by intros ?%Hs|by intros ?%not_elem_of_empty]. }
  by rewrite elements_empty.
Qed.

Lemma mapM_length {X Y} (f : X -> option Y) (l : list X) (k : list Y) :
  mapM f l = Some k -> length k = length l.
Proof. intros H. apply mapM_Some in H. symmetry. by eapply Forall2_length. Qed.

Lemma getitem_first_key (sub : string) (rate : list (string * float)) (key : string) :
  first_key_with sub rate = Some key -> is_Some (Py.getitem rate key).
Proof.
  unfold first_key_with. intros Hk.
  assert (key ∈ Py.keys rate) as Hin.
  { apply head_Some_elem_of in Hk. by apply list_elem_of_filter in Hk as [_ ?]. }
  clear Hk. induction rate as [|[k' v'] rate IH]; [by apply elem_of_nil in Hin|].
  cbn. destruct (String.eqb_spec k' key) as [->|Hne]; [by eexists|].
  apply IH. unfold Py.keys in Hin. cbn in Hin.
  by apply elem_of_cons in Hin as [?|?].
Qed.

(** X17.  The roles in a Michaelis-Menten equation are read off the sets
    of species of its two sides, not off the positions of its terms: when
    the sides share exactly the species [E], the left side holds besides
    it only [S] and the right side only [P], the parser returns the
    indices of [S], [E] and [P] in the species list as substrate, enzyme
    and product, each with the coefficient of a term that names it, and
    the rate constants found under the first key that contains ['Km'] and
    the first that contains ['kcat']. *)
Theorem parse_michaelis_menten_reaction_roles (sp : list string)
  (reaction : string) (rate : list (string * float))
  (Km_key kcat_key : string) (left' right' : list (list string))
  (ls rs : list string) (E S P : string) (si ei pi : nat) :
  first_key_with "Km" rate = Some Km_key ->
  first_key_with "kcat" rate = Some kcat_key ->
  parse_sides reaction = Some (left', right') ->
  mapM term_name left' = Some ls -> is_Some (mapM term_coeff left') ->
  mapM term_name right' = Some rs -> is_Some (mapM term_coeff right') ->
  (forall z, z ∈ ls /\ z ∈ rs <-> z = E) ->
  (forall z, z ∈ ls /\ z <> E <-> z = S) ->
  (forall z, z ∈ rs /\ z <> E <-> z = P) ->
  Py.index S sp = Some si -> Py.index E sp = Some ei -> Py.index P sp = Some pi ->
  exists ss ps Km kcat,
    parse_michaelis_menten_reaction sp reaction rate
    = Some ((si, ss), ei, (pi, ps), (Km_key, Km), (kcat_key, kcat)) /\
    (exists t, t ∈ left' /\ term_name t = Some S /\ term_coeff t = Some ss) /\
    (exists t, t ∈ right' /\ term_name t = Some P /\ term_coeff t = Some ps) /\
    Py.getitem rate Km_key = Some Km /\ Py.getitem rate kcat_key = Some kcat.
Proof.
  intros HKm Hkcat Hsides Hls [lc Hlc] Hrs [rc Hrc] HE HS HP Hsi Hei Hpi.
  destruct (getitem_first_key _ _ _ HKm) as [Km HKmv].
  destruct (getitem_first_key _ _ _ Hkcat) as [kcat Hkcatv].
  assert (S ∈ ls) as HSin by (by apply (HS S)).
  assert (P ∈ rs) as HPin by (by apply (HP P)).
  destruct (index_is_Some _ _ HSin) as [i Hi].
  destruct (index_is_Some _ _ HPin) as [j Hj].
  pose proof (index_Some_lookup _ _ _ Hi) as Hlsi.
  pose proof (index_Some_lookup _ _ _ Hj) as Hrsj.
  destruct (lookup_lt_is_Some_2 lc i) as [ss Hss].
  { rewrite (mapM_length _ _ _ Hlc), <- (mapM_length _ _ _ Hls).
    by eapply lookup_lt_Some. }
  destruct (lookup_lt_is_Some_2 rc j) as [ps Hps].
  { rewrite (mapM_length _ _ _ Hrc), <- (mapM_length _ _ _ Hrs).
    by eapply lookup_lt_Some. }
  exists ss, ps, Km, kcat. split; [|split; [|split; [|done]]].
  - unfold parse_michaelis_menten_reaction.
    rewrite HKm, Hkcat, Hsides. cbn [mbind option_bind].
    rewrite Hls, Hlc, Hrs, Hrc. cbn [mbind option_bind].
    rewrite (first_of_singleton (list_to_set ls ∩ list_to_set rs) E).
    2:{ intros z. rewrite elem_of_intersection, !elem_of_list_to_set. apply HE. }
    cbn [mbind option_bind].
    rewrite (first_of_singleton (list_to_set ls ∖ {[E]}) S).
    2:{ intros z. rewrite elem_of_difference, elem_of_list_to_set, elem_of_singleton.
        apply HS. }
    cbn [mbind option_bind].
    rewrite (first_of_singleton (list_to_set rs ∖ {[E]}) P).
    2:{ intros z. rewrite elem_of_difference, elem_of_list_to_set, elem_of_singleton.
        apply HP. }
    cbn [mbind option_bind].
    rewrite Hsi, Hei, Hpi, Hi, Hj. cbn [mbind option_bind].
    rewrite Hss, Hps. cbn [mbind option_bind].
    by rewrite HKmv, Hkcatv.
  - apply mapM_Some in Hls, Hlc.
    destruct (Forall2_lookup_r _ _ _ _ _ Hls Hlsi) as (t & Ht & Hname).
    destruct (Forall2_lookup_l _ _ _ _ _ Hlc Ht) as (ss' & Hss' & Hcoeff).
    exists t. split; [by eapply list_elem_of_lookup_2|]. split; [done|]. congruence.
  - apply mapM_Some in Hrs, Hrc.
    destruct (Forall2_lookup_r _ _ _ _ _ Hrs Hrsj) as (t & Ht & Hname).
    destruct (Forall2_lookup_l _ _ _ _ _ Hrc Ht) as (ps' & Hps' & Hcoeff).
    exists t. split; [by eapply list_elem_of_lookup_2|]. split; [done|]. congruence.
Qed.

Ltac solve_roles :=
  intros z; rewrite ?elem_of_cons, ?elem_of_nil; split;
  [ intros [Hz1 Hz2];
    repeat match goal with
           | Hz : _ \/ _ |- _ => destruct Hz as [Hz|Hz]
           | Hz : False |- _ => destruct Hz
           end;
    subst; first [reflexivity | discriminate | by exfalso]
  | intros ->; split; first [discriminate | tauto] ].

Lemma parse_michaelis_menten_reaction_roles_witness :
  exists ss ps Km kcat,
    parse_michaelis_menten_reaction ["S"; "E"; "P"]%string "S + E -> 2*P + E"
      [("kcat1"%string, 2); ("Km1"%string, 3)]
    = Some ((0%nat, ss), 1%nat, (2%nat, ps),
            ("Km1"%string, Km), ("kcat1"%string, kcat)) /\
    (exists t, t ∈ [["S"]; ["E"]]%string /\ term_name t = Some "S"%string
               /\ term_coeff t = Some ss) /\
    (exists t, t ∈ [["2"; "P"]; ["E"]]%string /\ term_name t = Some "P"%string
               /\ term_coeff t = Some ps) /\
    Py.getitem [("kcat1"%string, 2); ("Km1"%string, 3)] "Km1" = Some Km /\
    Py.getitem [("kcat1"%string, 2); ("Km1"%string, 3)] "kcat1" = Some kcat.
Proof.
  apply (parse_michaelis_menten_reaction_roles ["S"; "E"; "P"]%string
           "S + E -> 2*P + E" [("kcat1"%string, 2); ("Km1"%string, 3)]
           "Km1" "kcat1" [["S"]; ["E"]]%string [["2"; "P"]; ["E"]]%string
           ["S"; "E"]%string ["P"; "E"]%string "E" "S" "P" 0 1 2);
    try reflexivity; try (by eexists); solve_roles.
Defined.

Lemma mapM_None {X Y} (f : X -> option Y) (l : list X) (x : X) :
  x ∈ l -> f x = None -> mapM f l = None.
Proof.
  intros Hin Hx. destruct (mapM f l) as [k|] eqn:Hk; [|done]. exfalso.
  apply mapM_Some in Hk. apply list_elem_of_lookup in Hin as [i Hi].
  destruct (Forall2_lookup_l _ _ _ _ _ Hk Hi) as (y & _ & Hy). congruence.
Qed.

(** X18.  An equation whose two sides share no species, such as one that
    names no enzyme on its right side or has the product ['0'], makes
    [_parse_michaelis_menten] raise. *)
Theorem no_shared_species_raises
  (michaelis_menten_dict : list (string * list (string * float)))
  (sp : list string) (reaction : string) (rate : list (string * float))
  (left' right' : list (list string)) (ls rs : list string) :
  (reaction, rate) ∈ michaelis_menten_dict ->
  parse_sides reaction = Some (left', right') ->
  mapM term_name left' = Some ls -> mapM term_name right' = Some rs ->
  (forall z, z ∈ ls -> z ∉ rs) ->
  _parse_michaelis_menten michaelis_menten_dict sp = None.
Proof.
  intros Hin Hsides Hls Hrs Hdisj.
  unfold _parse_michaelis_menten. case_decide as Hlen.
  { apply nil_length_inv in Hlen. subst. by apply elem_of_nil in Hin. }
  rewrite (mapM_None _ _ (reaction, rate)); [done|done|].
  unfold parse_michaelis_menten_reaction.
  destruct (first_key_with "Km" rate); [|done]. cbn [mbind option_bind].
  destruct (first_key_with "kcat" rate); [|done]. cbn [mbind option_bind].
  rewrite Hsides. cbn [mbind option_bind]. rewrite Hls. cbn [mbind option_bind].
  destruct (mapM term_coeff left'); [|done]. cbn [mbind option_bind].
  rewrite Hrs. cbn [mbind option_bind].
  destruct (mapM term_coeff right'); [|done]. cbn [mbind option_bind].
  rewrite (first_of_empty (list_to_set ls ∩ list_to_set rs)); [done|].
  intros z. rewrite elem_of_intersection, !elem_of_list_to_set.
  intros [? ?]. by eapply Hdisj.
Qed.

Lemma no_shared_species_raises_witness :
  _parse_michaelis_menten
    [("E + S -> 0"%string, [("Km"%string, 1); ("kcat"%string, 2)])]
    ["S"; "E"]%string = None.
Proof.
  apply (no_shared_species_raises _ _ "E + S -> 0"
           [("Km"%string, 1); ("kcat"%string, 2)]
           [["E"]; ["S"]]%string [["0"%string]] ["E"; "S"]%string ["0"%string]);
    try reflexivity.
  - left.
  - intros z. rewrite !elem_of_cons, !elem_of_nil.
    intros [->|[->|[]]] [?|[]]; discriminate.
Defined.

Lemma parse_michaelis_menten_reaction_range (sp : list string)
  (reaction : string) (rate : list (string * float))
  (si ei pi : nat) (ss ps : Z) (Km kcat : string * float) :
  parse_michaelis_menten_reaction sp reaction rate
  = Some ((si, ss), ei, (pi, ps), Km, kcat) ->
  (si < length sp)%nat /\ (ei < length sp)%nat /\ (pi < length sp)%nat.
Proof.
  unfold parse_michaelis_menten_reaction. intros H.
  repeat match type of H with
         | (?o ≫= _) = Some _ =>
             let E := fresh "E" in
             destruct o eqn:E; [cbn [mbind option_bind] in H|done]
         | (let '(_, _) := ?p in _) = Some _ => destruct p
         end.
  injection H as <- <- <- <- <- <- <-.
  repeat match goal with
         | E : Py.index _ sp = Some _ |- _ =>
             apply index_Some_lookup, lookup_lt_Some in E
         end.
  done.
Qed.

(** What [_parse_michaelis_menten] returns. *)
Lemma parse_michaelis_menten_shape
  (michaelis_menten_dict : list (string * list (string * float)))
  (sp : list string) (set : instance MichaelisMentenReactions) :
  _parse_michaelis_menten michaelis_menten_dict sp = Some set ->
  match set with
  | Dummy => michaelis_menten_dict = []
  | Populated r =>
      michaelis_menten_dict <> [] /\
      r.(mm_reactions) = Py.keys michaelis_menten_dict /\
      length r.(substrate_indices) = length michaelis_menten_dict /\
      length r.(Km_names) = length michaelis_menten_dict /\
      length r.(kcat_names) = length michaelis_menten_dict /\
      fully_shaped r (length sp)
  | Unset => False
  end.
Proof.
  unfold _parse_michaelis_menten. case_decide as Hlen.
  { cbn. intros [= <-]. by apply nil_length_inv. }
  destruct (mapM _ _) as [rows|] eqn:Hrows; [|done].
  cbn [mbind option_bind].
  assert (michaelis_menten_dict <> []) as Hne by (by intros ->).
  apply mapM_Some in Hrows.
  pose proof (Forall2_length _ _ _ Hrows) as Hlenrows.
  assert (Forall (fun row => (row.1.1.1.1.1 < length sp)%nat /\
                             (row.1.1.1.2 < length sp)%nat /\
                             (row.1.1.2.1 < length sp)%nat) rows) as Hrange.
  { apply Forall_forall. intros row Hrow.
    apply list_elem_of_lookup in Hrow as [i Hi].
    destruct (Forall2_lookup_r _ _ _ _ _ Hrows Hi) as ([reaction rate] & _ & Hr).
    destruct row as [[[[[si ss] ei] [pi ps]] Km] kcat].
    by eapply parse_michaelis_menten_reaction_range. }
  destruct rows as [|row rows]; [by destruct michaelis_menten_dict|].
  unfold MichaelisMentenReactions_init.
  cbn [type_of types_all forallb pytype_eqb andb unzip2 fmap list_fmap
       mbind option_bind].
  intros [= <-]. split; [done|]. split; [done|].
  cbn [substrate_indices Km_names kcat_names length].
  rewrite !length_fmap. cbn [length] in Hlenrows.
  split; [done|]. split; [done|]. split; [done|].
  apply Forall_cons in Hrange as [(H1 & H2 & H3) Hrange].
  split; [split|..]; cbn [substrate_indices enzyme_indices product_indices Kms kcats
    substrate_stoichiometries product_stoichiometries length];
    rewrite ?length_fmap; try done.
  - constructor; [done|]. apply Forall_forall. intros i Hi.
    repeat (apply list_elem_of_fmap in Hi as (? & -> & Hi)).
    eapply Forall_forall in Hrange; [|exact Hi]. tauto.
  - constructor; [done|]. apply Forall_forall. intros i Hi.
    repeat (apply list_elem_of_fmap in Hi as (? & -> & Hi)).
    eapply Forall_forall in Hrange; [|exact Hi]. tauto.
  - constructor; [done|]. apply Forall_forall. intros i Hi.
    repeat (apply list_elem_of_fmap in Hi as (? & -> & Hi)).
    eapply Forall_forall in Hrange; [|exact Hi]. tauto.
Qed.

(** X19.  [_parse_michaelis_menten] never leaves an object without
    attributes.  It returns the dummy exactly for an empty dictionary; for
    any other dictionary it returns, if at all, a set that lists the
    dictionary's equations in order and holds for each one a substrate, an
    enzyme and a product index within the species list, two
    stoichiometries, a Km and a kcat. *)
Theorem parse_michaelis_menten_result
  (michaelis_menten_dict : list (string * list (string * float)))
  (sp : list string) (set : instance MichaelisMentenReactions) :
  _parse_michaelis_menten michaelis_menten_dict sp = Some set ->
  match set with
  | Dummy => michaelis_menten_dict = []
  | Populated r =>
      michaelis_menten_dict <> [] /\
      r.(mm_reactions) = Py.keys michaelis_menten_dict /\
      length r.(substrate_indices) = length michaelis_menten_dict /\
      length r.(Km_names) = length michaelis_menten_dict /\
      length r.(kcat_names) = length michaelis_menten_dict /\
      fully_shaped r (length sp)
  | Unset => False
  end.
Proof. apply parse_michaelis_menten_shape. Qed.

Lemma parse_michaelis_menten_result_witness :
  exists r,
    _parse_michaelis_menten
      [("E + S -> E + P"%string, [("Km"%string, 1); ("kcat"%string, 2)])]
      ["S"; "E"; "P"]%string = Some (Populated r) /\
    r.(mm_reactions) = ["E + S -> E + P"%string] /\
    length r.(substrate_indices) = 1%nat /\
    fully_shaped r 3.
Proof.
  eexists. split; [reflexivity|].
  pose proof (parse_michaelis_menten_result
                [("E + S -> E + P"%string, [("Km"%string, 1); ("kcat"%string, 2)])]
                ["S"; "E"; "P"]%string _ eq_refl) as (_ & H1 & H2 & _ & _ & H3).
  done.
Defined.

(** ** The network constructor *)

Lemma init_fields
  (mass_action_dict michaelis_menten_dict : list (string * list (string * float)))
  (ic : list (string * float)) (time0 : list float)
  (net : ChemicalReactionNetwork) :
  ChemicalReactionNetwork_init mass_action_dict michaelis_menten_dict ic time0
  = Some net ->
  let sp := discover_species (Py.keys mass_action_dict)
              (Py.keys michaelis_menten_dict) in
  exists processed,
    _process_reaction_dict mass_action_dict = Some processed /\
    net.(species) = sp /\
    _parse_mass_action processed sp = Some net.(mass_action_reactions) /\
    _parse_michaelis_menten michaelis_menten_dict sp
    = Some net.(michaelis_menten_reactions) /\
    net.(time) = time0 /\
    net.(initial_concentrations) = initial_concentration_vector ic sp /\
    net.(concentrations) = None /\
    _create_update_dictionary net = Some net.(update_dictionary).
Proof.
  intros H sp. unfold ChemicalReactionNetwork_init in H.
  change (discover_species _ _) with sp in H. cbv zeta in H.
  destruct (_process_reaction_dict mass_action_dict) as [processed|]; [|done].
  cbn [mbind option_bind] in H.
  destruct (_parse_mass_action processed sp) as [ma|] eqn:Hma; [|done].
  cbn [mbind option_bind] in H.
  destruct (_parse_michaelis_menten michaelis_menten_dict sp) as [mm|] eqn:Hmm;
    [|done].
  cbn [mbind option_bind] in H.
  match type of H with
  | (?o ≫= _) = Some _ => destruct o as [d|] eqn:Hd; [|done]
  end.
  cbn [mbind option_bind] in H. injection H as <-.
  exists processed. cbn. repeat split; try done.
Qed.

(** In a species list without duplicates every species is registered
    with the setter of its own initial concentration. *)
Lemma species_entry (self : ChemicalReactionNetwork)
  (d : gmap string (nat * token)) (i : nat) (k : string) :
  _create_update_dictionary self = Some d -> NoDup self.(species) ->
  self.(species) !! i = Some k -> d !! k = Some (i, T_initial_concentration).
Proof.
  intros Hd Hnd Hi.
  assert (k ∈ species self) as Hk by (by eapply list_elem_of_lookup_2).
  assert (is_Some (d !! k)) as [[j tk] Hjk].
  { pose proof Hd as Hd'. unfold _create_update_dictionary, merge3 in Hd'.
    destruct (mass_action_update _) as [a|]; [|done].
    cbn [mbind option_bind] in Hd'.
    destruct (michaelis_menten_update _) as [b|]; [|done].
    cbn [mbind option_bind] in Hd'. injection Hd' as <-.
    rewrite lookup_union_is_Some. left. by apply initial_concen_update_is_Some. }
  rewrite Hjk.
  destruct (update_dictionary_origin self d k j tk Hd Hjk)
    as [[-> Hsp]|[Hnot _]]; [|done].
  by rewrite (NoDup_lookup_inj _ _ _ _ Hnd Hi Hsp).
Qed.

Lemma getitem_setitem_ne {V} (d : list (string * V)) (k k' : string) (v : V) :
  k <> k' -> Py.getitem (Py.setitem d k' v) k = Py.getitem d k.
Proof.
  intros Hne. induction d as [|[k0 v0] d IH]; cbn.
  - destruct (String.eqb_spec k' k) as [->|_]; done.
  - destruct (String.eqb_spec k0 k') as [->|Hne0]; cbn.
    + destruct (String.eqb_spec k' k) as [->|_]; done.
    + by rewrite IH.
Qed.

(** X20.  A constructed network holds one initial concentration per
    species, in the order of the species: the value given under the
    species' name, and [1e-50] for a species the dictionary does not name.
    A key of the dictionary that is no species is ignored: it changes
    nothing in the network that is built and raises nothing. *)
Theorem init_initial_concentrations
  (mass_action_dict michaelis_menten_dict : list (string * list (string * float)))
  (ic : list (string * float)) (time0 : list float)
  (net : ChemicalReactionNetwork) :
  ChemicalReactionNetwork_init mass_action_dict michaelis_menten_dict ic time0
  = Some net ->
  length net.(initial_concentrations) = length net.(species) /\
  (forall i specie, net.(species) !! i = Some specie ->
     net.(initial_concentrations) !! i
     = Some (match Py.getitem ic specie with
             | Some c => c
             | None => default_concentration
             end)) /\
  (forall k v, k ∉ net.(species) ->
     ChemicalReactionNetwork_init mass_action_dict michaelis_menten_dict
       (Py.setitem ic k v) time0 = Some net).
Proof.
  intros Hinit.
  destruct (init_fields _ _ _ _ _ Hinit)
    as (processed & Hp & Hsp & Hma & Hmm & Ht & Hic & Hc & Hd).
  split; [|split].
  - rewrite Hic, Hsp. unfold initial_concentration_vector. apply length_fmap.
  - intros i specie Hi. rewrite Hic. unfold initial_concentration_vector.
    rewrite list_lookup_fmap. rewrite Hsp in Hi. by rewrite Hi.
  - intros k v Hk. rewrite <- Hinit. unfold ChemicalReactionNetwork_init.
    replace (initial_concentration_vector (Py.setitem ic k v) _)
      with (initial_concentration_vector ic
              (discover_species (Py.keys mass_action_dict)
                 (Py.keys michaelis_menten_dict))); [done|].
    unfold initial_concentration_vector. apply list_fmap_ext.
    intros i0 specie Hspecie. rewrite getitem_setitem_ne; [done|].
    intros Heq. apply Hk. rewrite Hsp, <- Heq. by eapply list_elem_of_lookup_2.
Qed.

Lemma init_initial_concentrations_witness :
  exists net,
    ChemicalReactionNetwork_init [("A -> B"%string, [("k"%string, 2)])] []
      [("A"%string, 5)] [0; 1] = Some net /\
    net.(species) = ["A"; "B"]%string /\
    net.(initial_concentrations) = [5; default_concentration] /\
    ChemicalReactionNetwork_init [("A -> B"%string, [("k"%string, 2)])] []
      (Py.setitem [("A"%string, 5)] "Z" 1) [0; 1] = Some net.
Proof.
  eexists. split; [reflexivity|]. split; [reflexivity|]. split; [reflexivity|].
  pose proof (init_initial_concentrations
                [("A -> B"%string, [("k"%string, 2)])] []
                [("A"%string, 5)] [0; 1] _ eq_refl) as (_ & _ & Hother).
  apply Hother. apply (bool_decide_unpack _). vm_compute. reflexivity.
Defined.

(** X21.  A network that the constructor returns can be evaluated: on
    every vector with one concentration per species, in particular on its
    initial concentrations, the derivative function [ODEs] returns a
    vector with one rate per species. *)
Theorem constructed_network_evaluates (power : float -> float -> float)
  (mass_action_dict michaelis_menten_dict : list (string * list (string * float)))
  (ic : list (string * float)) (time0 : list float)
  (net : ChemicalReactionNetwork) (c : list float) (t : float) :
  ChemicalReactionNetwork_init mass_action_dict michaelis_menten_dict ic time0
  = Some net ->
  length c = length net.(species) ->
  (exists d, ODEs power net c t = Some d /\ length d = length c) /\
  (exists d, ODEs power net net.(initial_concentrations) t = Some d /\
             length d = length net.(species)).
Proof.
  intros Hinit Hc.
  destruct (init_fields _ _ _ _ _ Hinit)
    as (processed & Hp & Hsp & Hma & Hmm & Ht & Hic & _ & Hd).
  assert (forall c', length c' = length net.(species) ->
            exists d, ODEs power net c' t = Some d /\ length d = length c') as Hall.
  { intros c' Hc'. unfold ODEs.
    assert (exists v, contribution (michaelis_menten_reactions net)
                        (length (species net))
                        (fun r => compute_velocities r c') = Some v /\
                      length v = length c') as (v & -> & Hv).
    { pose proof (parse_michaelis_menten_shape _ _ _ Hmm) as Hshape.
      destruct (michaelis_menten_reactions net) as [|r|]; [| |done].
      - eexists. split; [done|]. by rewrite zeros_length.
      - destruct Hshape as (_ & _ & _ & _ & _ & Hfs). cbn [contribution].
        rewrite <- Hsp, <- Hc' in Hfs.
        destruct (compute_velocities_puts r c' Hfs)
          as (? & ? & ? & _ & _ & _ & _ & Hcv).
        eexists. split; [exact Hcv|]. by eapply compute_velocities_length. }
    assert (exists w, contribution (mass_action_reactions net)
                        (length (species net))
                        (fun r => compute_mass_action_rates power r c') = Some w /\
                      length w = length c') as (w & -> & Hw).
    { pose proof (parse_mass_action_shape _ _ _ Hma) as Hshape.
      destruct (mass_action_reactions net) as [|r|]; [| |done].
      - eexists. split; [done|]. by rewrite zeros_length.
      - destruct Hshape as (_ & _ & _ & _ & Hms). cbn [contribution].
        rewrite <- Hsp, <- Hc' in Hms.
        destruct (mass_action_entries power r c' Hms) as (w & Hw & Hlen & _).
        eauto. }
    cbn [mbind option_bind]. rewrite vstack2_eq by congruence.
    cbn [mbind option_bind]. eexists. split; [done|].
    rewrite sum_axis0_2, length_zip_with. lia. }
  split; [by apply Hall|].
  assert (length net.(initial_concentrations) = length net.(species)) as Hlen.
  { rewrite Hic, Hsp. unfold initial_concentration_vector. apply length_fmap. }
  destruct (Hall _ Hlen) as (d & Hd' & Hdl). exists d. split; [done|]. congruence.
Qed.

Lemma constructed_network_evaluates_witness :
  exists net,
    ChemicalReactionNetwork_init
      [("A <-> B"%string, [("k1"%string, 2); ("k2"%string, 1)])]
      [("E + B -> E + P"%string, [("Km"%string, 2); ("kcat"%string, 3)])]
      [("A"%string, 5); ("E"%string, 1)] [0; 1] = Some net /\
    (exists d, ODEs pow_01 net [1; 2; 3; 4] 0 = Some d /\
               length d = length [1; 2; 3; 4]) /\
    (exists d, ODEs pow_01 net net.(initial_concentrations) 0 = Some d /\
               length d = length net.(species)).
Proof.
  eexists. split; [reflexivity|].
  apply (constructed_network_evaluates pow_01
           [("A <-> B"%string, [("k1"%string, 2); ("k2"%string, 1)])]
           [("E + B -> E + P"%string, [("Km"%string, 2); ("kcat"%string, 3)])]
           [("A"%string, 5); ("E"%string, 1)] [0; 1] _ [1; 2; 3; 4] 0);
    reflexivity.
Defined.

Lemma species_setter
  (mass_action_dict michaelis_menten_dict : list (string * list (string * float)))
  (ic : list (string * float)) (time0 : list float)
  (net : ChemicalReactionNetwork) (i : nat) (specie : string) (v : float) :
  ChemicalReactionNetwork_init mass_action_dict michaelis_menten_dict ic time0
  = Some net ->
  net.(species) !! i = Some specie ->
  exists f net',
    net.(update_dictionary) !! specie = Some f /\
    f = (i, T_initial_concentration) /\
    update net f v = Some net' /\
    net'.(initial_concentrations) !! i = Some v /\
    net'.(species) = net.(species).
Proof.
  intros Hinit Hi.
  destruct (init_fields _ _ _ _ _ Hinit)
    as (processed & Hp & Hsp & Hma & Hmm & Ht & Hic & _ & Hd).
  assert (NoDup net.(species)) as Hnd.
  { rewrite Hsp. apply discover_species_NoDup. }
  pose proof (species_entry net _ i specie Hd Hnd Hi) as Hf.
  assert (i < length net.(initial_concentrations))%nat as Hlt.
  { rewrite Hic. unfold initial_concentration_vector. rewrite length_fmap.
    rewrite <- Hsp. by eapply lookup_lt_Some. }
  exists (i, T_initial_concentration). eexists. split; [done|]. split; [done|].
  unfold update, setitem. destruct (decide _) as [_|?]; [|done].
  cbn [mbind option_bind]. split; [done|].
  cbn [with_sets initial_concentrations species]. split; [|done].
  by apply list_lookup_insert_eq.
Qed.

(** X22.  In a network that the constructor returns, the update
    dictionary holds under the name of every species the setter of that
    species' initial concentration.  Calling it returns whenever the
    element type of the array of initial concentrations takes the new
    value, and then the position of the species holds what that element
    type makes of it: the value itself in a [float64] array, its integer
    part in an [int64] array, which is what the array is when every
    species was given an [int]. *)
Theorem constructed_network_registers_species
  (mass_action_dict michaelis_menten_dict : list (string * list (string * float)))
  (ic : list (string * float)) (time0 : list float)
  (net : ChemicalReactionNetwork) (i : nat) (specie : string)
  (ty : Typed.dtypes) (v stored : float) :
  ChemicalReactionNetwork_init mass_action_dict michaelis_menten_dict ic time0
  = Some net ->
  net.(species) !! i = Some specie ->
  Typed.cast ty.(Typed.initial_concentrations_dtype) v = Some stored ->
  exists f net',
    net.(update_dictionary) !! specie = Some f /\
    f = (i, T_initial_concentration) /\
    Typed.update ty net f v = Some net' /\
    net'.(initial_concentrations) !! i = Some stored /\
    net'.(species) = net.(species).
Proof.
  intros Hinit Hi Hcast.
  destruct (species_setter _ _ _ _ net i specie stored Hinit Hi)
    as (f & net' & Hf & -> & Hup & Hv & Hsp).
  exists (i, T_initial_concentration), net'.
  split; [done|]. split; [done|]. split; [|done].
  unfold Typed.update. cbn [snd Typed.dtype_of]. by rewrite Hcast.
Qed.

Lemma constructed_network_registers_species_witness :
  let ty := {| Typed.K_dtype := Typed.int64; Typed.Kms_dtype := Typed.float64;
               Typed.kcats_dtype := Typed.float64;
               Typed.initial_concentrations_dtype := Typed.int64 |} in
  exists net f net',
    ChemicalReactionNetwork_init [("A -> B"%string, [("k"%string, 2)])] []
      [("A"%string, 5); ("B"%string, 0)] [0; 1] = Some net /\
    Typed.cast Typed.int64 7.5 = Some 7 /\
    net.(update_dictionary) !! "B"%string = Some f /\
    f = (1%nat, T_initial_concentration) /\
    Typed.update ty net f 7.5 = Some net' /\
    net'.(initial_concentrations) !! 1%nat = Some 7 /\
    net'.(species) = net.(species).
Proof.
  intros ty. eexists.
  destruct (constructed_network_registers_species
              [("A -> B"%string, [("k"%string, 2)])] []
              [("A"%string, 5); ("B"%string, 0)] [0; 1] _ 1 "B" ty 7.5 7
              eq_refl eq_refl eq_refl)
    as (f & net' & H).
  exists f, net'. split; [reflexivity|]. split; [reflexivity|exact H].
Defined.

Lemma process_reactions_keeps (items : list (string * list (string * float)))
  (k : string) : forall acc d,
  process_reactions acc items = Some d ->
  k ∈ Py.keys acc \/
  (k ∈ Py.keys items /\ Py.contains "<->" k = false) ->
  k ∈ Py.keys d.
Proof.
  induction items as [|[reaction constants] items IH]; intros acc d; cbn.
  - intros [= <-] [?|[Hin _]]; [done|]. by apply elem_of_nil in Hin.
  - destruct (process_reaction acc reaction constants) as [acc'|] eqn:Hacc; [|done].
    cbn [mbind option_bind]. intros Hd Hk. apply (IH _ _ Hd).
    destruct Hk as [Hk|[Hk Hc]].
    + left. apply (process_reaction_keys _ _ _ _ k Hacc). by left.
    + unfold Py.keys in Hk. cbn in Hk. apply elem_of_cons in Hk as [->|Hk].
      * left. apply (process_reaction_keys _ _ _ _ reaction Hacc).
        right. by rewrite Hc.
      * by right.
Qed.

(** X23.  The constructor raises on a mass-action equation with a term
    whose species name the species list cannot hold: a number, such as the
    source term ['0'] of a synthesis [0 -> A], or a name that is nowhere a
    space-separated token of an equation, such as the [A] of a coefficient
    written without spaces in [2*A -> B].  Only the bare product term ['0']
    is passed over. *)
Theorem undiscovered_name_raises
  (mass_action_dict michaelis_menten_dict : list (string * list (string * float)))
  (ic : list (string * float)) (time0 : list float)
  (reaction : string) (subs prods : list (list string))
  (t : list string) (name : string) :
  reaction ∈ Py.keys mass_action_dict ->
  Py.contains "<->" reaction = false ->
  parse_sides reaction = Some (subs, prods) ->
  t ∈ subs \/ (t ∈ prods /\ t <> ["0"%string]) ->
  term_name t = Some name ->
  Py.isnumeric name = true \/
  (forall key, key ∈ Py.keys mass_action_dict \/ key ∈ Py.keys michaelis_menten_dict ->
     name ∉ Py.split " " key) ->
  ChemicalReactionNetwork_init mass_action_dict michaelis_menten_dict ic time0
  = None.
Proof.
  intros Hin Hc Hsides Ht Hname Hbad. unfold ChemicalReactionNetwork_init.
  destruct (_process_reaction_dict mass_action_dict) as [processed|] eqn:Hp; [|done].
  cbn [mbind option_bind].
  rewrite (parse_mass_action_reaction_None _ reaction); [done| |].
  - apply unparsable_reaction. right. exists subs, prods, t.
    split; [done|]. split; [done|]. right. exists name. split; [done|].
    intros Hsp. apply discover_species_elem in Hsp as [(key & Hkey & Htok) Hsp].
    destruct Hbad as [Hnum|Hnot].
    + unfold is_specie in Hsp. rewrite Hnum in Hsp.
      by rewrite andb_false_r in Hsp.
    + apply merged_keys_elem in Hkey. by apply (Hnot key).
  - apply (process_reactions_keeps _ _ _ _ Hp). right. done.
Qed.

Lemma undiscovered_name_raises_witness :
  ChemicalReactionNetwork_init [("0 -> A"%string, [("k"%string, 2)])] []
    [("A"%string, 5)] [0; 1] = None /\
  ChemicalReactionNetwork_init [("2*A -> B"%string, [("k"%string, 2)])] []
    [("A"%string, 5)] [0; 1] = None.
Proof.
  split.
  - apply (undiscovered_name_raises _ _ _ _ "0 -> A" [["0"%string]] [["A"%string]]
             ["0"%string] "0"); try reflexivity.
    + left.
    + left. left.
    + by left.
  - apply (undiscovered_name_raises _ _ _ _ "2*A -> B" [["2"; "A"]%string]
             [["B"%string]] ["2"; "A"]%string "A"); try reflexivity.
    + left.
    + left. left.
    + right. intros key [Hkey|Hkey].
      * apply list_elem_of_singleton in Hkey as ->.
        apply (bool_decide_unpack _). vm_compute. reflexivity.
      * by apply elem_of_nil in Hkey.
Defined.

(** ** Reversible equations with a coefficient *)

Lemma chars_app (a b : string) :
  list_ascii_of_string (a +:+ b) = list_ascii_of_string a ++ list_ascii_of_string b.
Proof. induction a as [|c a IH]; [done|]. simpl. by rewrite IH. Qed.

Lemma app_cons_string (a : string) (c : ascii) (b : string) :
  a +:+ String c b = (a +:+ String c "") +:+ b.
Proof.
  induction a as [|c' a IH]; [done|].
  change (String c' (a +:+ String c b) = String c' ((a +:+ String c "") +:+ b)).
  by f_equal.
Qed.

Lemma plain_chars (tok : string) (c : ascii) :
  plain tok = true -> c ∈ list_ascii_of_string tok ->
  Py.is_space c = false /\ c ∉ ["+"; "*"; "-"; ">"]%char.
Proof.
  unfold plain. rewrite forallb_forall. intros Hall Hc.
  apply list_elem_of_In, Hall in Hc.
  apply andb_true_iff in Hc as [H1 H2].
  apply negb_true_iff in H1. apply negb_true_iff, bool_decide_eq_false in H2. done.
Qed.

Lemma plain_not_in (tok : string) (c : ascii) :
  plain tok = true ->
  Py.is_space c = true \/ c ∈ ["+"; "*"; "-"; ">"]%char ->
  c ∉ list_ascii_of_string tok.
Proof.
  intros Hp Hc Hin. destruct (plain_chars tok c Hp Hin) as [H1 H2].
  destruct Hc as [Hc|Hc]; [congruence|done].
Qed.

Lemma remove_spaces_app (a b : string) :
  Py.remove_spaces (a +:+ b) = Py.remove_spaces a +:+ Py.remove_spaces b.
Proof.
  induction a as [|c a IH]; [done|]. simpl.
  destruct (Py.is_space c); [done|]. simpl. by rewrite IH.
Qed.

Lemma remove_spaces_plain (tok : string) :
  plain tok = true -> Py.remove_spaces tok = tok.
Proof.
  induction tok as [|c tok IH]; [done|]. intros Hp.
  destruct (plain_chars (String c tok) c Hp) as [Hc _]; [left|].
  cbn. rewrite Hc. f_equal. apply IH.
  unfold plain in *. cbn in Hp. by apply andb_true_iff in Hp as [_ ?].
Qed.

Lemma split_str_no_dash (s : string) :
  "-"%char ∉ list_ascii_of_string s -> Py.split_str "->" s = [s].
Proof.
  unfold Py.split_str. induction s as [|c s IH]; [done|]. intros Hc.
  apply not_elem_of_cons in Hc as [Hne Hc].
  cbn [Py.split_str_from String.prefix].
  destruct (ascii_dec "-" c) as [?|_]; [done|]. by rewrite IH.
Qed.

Lemma split_str_arrow (a b : string) :
  "-"%char ∉ list_ascii_of_string a ->
  Py.split_str "->" (a +:+ String "-" (String ">" b)) = a :: Py.split_str "->" b.
Proof.
  unfold Py.split_str. induction a as [|c a IH]; intros Hc.
  - by destruct b.
  - apply not_elem_of_cons in Hc as [Hne Hc].
    change (String c a +:+ ?r) with (String c (a +:+ r)).
    cbn [Py.split_str_from String.prefix].
    destruct (ascii_dec "-" c) as [?|_]; [done|]. by rewrite IH.
Qed.

Lemma contains_app_r (sub a b : string) :
  Py.contains sub b = true -> Py.contains sub (a +:+ b) = true.
Proof.
  intros Hb. induction a as [|c a IH]; [done|].
  change (String c a +:+ b) with (String c (a +:+ b)).
  cbn [Py.contains]. rewrite IH. apply orb_true_r.
Qed.

(** Every entry the splitter accepts leaves its reverse equation among the
    keys of the result. *)
Lemma process_reactions_reverse (items : list (string * list (string * float)))
  (reaction : string) (constants : list (string * float)) : forall acc d,
  process_reactions acc items = Some d ->
  (reaction, constants) ∈ items -> Py.contains "<->" reaction = true ->
  reverse_equation reaction ∈ Py.keys d.
Proof.
  induction items as [|[r c] items IH]; intros acc d Hd Hin Hc.
  { by apply elem_of_nil in Hin. }
  cbn [process_reactions] in Hd.
  destruct (process_reaction acc r c) as [acc'|] eqn:Hacc; [|done].
  cbn [mbind option_bind] in Hd.
  apply elem_of_cons in Hin as [[= <- <-]|Hin]; [|by eapply IH].
  apply (process_reactions_keeps _ _ _ _ Hd). left.
  apply (process_reaction_keys _ _ _ _ _ Hacc). right. rewrite Hc. by right.
Qed.

(** What the parser makes of the reverse equation [y -> x * z]. *)
Lemma parse_sides_reversed (x y z : string) :
  plain x = true -> plain y = true -> plain z = true ->
  exists subs,
    parse_sides (Py.join " " [y; "->"; x; "*"; z]%string) = Some (subs, [[x; z]]).
Proof.
  intros Hx Hy Hz. eexists. unfold parse_sides.
  change (Py.join " " [y; "->"; x; "*"; z]%string)
    with (y +:+ String " " (String "-" (String ">"
            (String " " (x +:+ String " " (String "*" (String " " z))))))).
  rewrite app_cons_string, split_str_arrow.
  2:{ rewrite chars_app. intros [Hin|Hin]%elem_of_app.
      - revert Hin. apply plain_not_in; [done|]. right. do 2 right. left.
      - apply list_elem_of_singleton in Hin. discriminate. }
  rewrite split_str_no_dash.
  2:{ cbn [list_ascii_of_string]. rewrite chars_app. cbn [list_ascii_of_string].
      intros Hin. apply elem_of_cons in Hin as [?|Hin]; [done|].
      apply elem_of_app in Hin as [Hin|Hin].
      - revert Hin. apply plain_not_in; [done|]. right. do 2 right. left.
      - repeat (apply elem_of_cons in Hin as [?|Hin]; [done|]).
        revert Hin. apply plain_not_in; [done|]. right. do 2 right. left. }
  f_equal. f_equal.
  rewrite <- parse_side_remove_spaces.
  change (Py.remove_spaces (String " " ?r)) with (Py.remove_spaces r).
  rewrite remove_spaces_app, (remove_spaces_plain x Hx).
  change (Py.remove_spaces (String " " (String "*" (String " " z))))
    with (String "*" (Py.remove_spaces z)).
  rewrite (remove_spaces_plain z Hz).
  unfold parse_side. rewrite split_no_sep.
  2:{ rewrite chars_app. cbn [list_ascii_of_string].
      intros [Hin|Hin]%elem_of_app.
      - revert Hin. apply plain_not_in; [done|]. right. left.
      - apply elem_of_cons in Hin as [?|Hin]; [done|].
        revert Hin. apply plain_not_in; [done|]. right. left. }
  cbn [fmap list_fmap].
  rewrite remove_spaces_app, (remove_spaces_plain x Hx).
  change (Py.remove_spaces (String "*" z)) with (String "*" (Py.remove_spaces z)).
  rewrite (remove_spaces_plain z Hz).
  rewrite split_app_sep.
  2:{ apply plain_not_in; [done|]. right. right. left. }
  rewrite split_no_sep; [done|].
  apply plain_not_in; [done|]. right. right. left.
Qed.

Lemma plain_not_arrow (tok : string) : plain tok = true -> tok <> "<->"%string.
Proof. by intros Hp ->. Qed.

(** X24.  The splitter writes the reverse of a reversible equation by
    reversing its space-separated tokens, which also reverses the tokens
    of every term.  For the equation [z * x <-> y], with a coefficient set
    off by spaces and with [x], [y], [z] free of whitespace and of ['+'],
    ['*'], ['-'], ['>'], the reverse equation is [y -> x * z]; the parser
    reads [x] as the coefficient, and the constructor raises whenever [x]
    is not an integer literal. *)
Theorem reversed_coefficient_raises
  (mass_action_dict michaelis_menten_dict : list (string * list (string * float)))
  (ic : list (string * float)) (time0 : list float)
  (constants : list (string * float)) (x y z : string) :
  (Py.join " " [z; "*"; x; "<->"; y]%string, constants) ∈ mass_action_dict ->
  plain x = true -> plain y = true -> plain z = true ->
  py_int x = None ->
  ChemicalReactionNetwork_init mass_action_dict michaelis_menten_dict ic time0
  = None.
Proof.
  intros Hin Hx Hy Hz Hint. unfold ChemicalReactionNetwork_init.
  destruct (_process_reaction_dict mass_action_dict) as [processed|] eqn:Hp; [|done].
  cbn [mbind option_bind].
  set (reaction := Py.join " " [z; "*"; x; "<->"; y]%string) in *.
  assert (Py.contains "<->" reaction = true) as Hc.
  { unfold reaction.
    change (Py.join " " [z; "*"; x; "<->"; y]%string)
      with (z +:+ String " " (String "*" (String " "
              (x +:+ String " " ("<->" +:+ String " " y))))).
    apply contains_app_r. cbn [Py.contains]. rewrite !orb_true_iff. do 3 right.
    apply contains_app_r. cbn [Py.contains]. rewrite !orb_true_iff. right.
    reflexivity. }
  assert (reverse_equation reaction = Py.join " " [y; "->"; x; "*"; z]%string)
    as Hrev.
  { unfold reverse_equation, forward_tokens, reaction.
    rewrite split_join; [|done|].
    - cbn [replace_first].
      destruct (String.eqb_spec z "<->") as [?|_]; [by apply plain_not_arrow in Hz|].
      cbn [String.eqb Ascii.eqb Bool.eqb].
      destruct (String.eqb_spec x "<->") as [?|_]; [by apply plain_not_arrow in Hx|].
      reflexivity.
    - repeat constructor;
        first [ apply plain_not_in; [done|by left]
              | intros Hsp; cbn in Hsp;
                repeat (apply elem_of_cons in Hsp as [?|Hsp]; [done|]);
                by apply elem_of_nil in Hsp ]. }
  destruct (parse_sides_reversed x y z Hx Hy Hz) as [subs Hsides].
  rewrite (parse_mass_action_reaction_None _ (reverse_equation reaction)); [done| |].
  - apply unparsable_reaction. right. exists subs, [[x; z]], [x; z].
    rewrite Hrev. split; [done|]. split.
    + right. split; [left|done].
    + left. exact Hint.
  - by eapply process_reactions_reverse.
Qed.

Lemma reversed_coefficient_raises_witness :
  ChemicalReactionNetwork_init
    [("2 * A <-> B"%string, [("k1"%string, 1); ("k2"%string, 2)])] []
    [("A"%string, 5)] [0; 1] = None.
Proof.
  apply (reversed_coefficient_raises _ _ _ _
           [("k1"%string, 1); ("k2"%string, 2)] "A" "B" "2"); try reflexivity.
  left.
Defined.

(** ** A reversible first-order reaction *)

Lemma SF_balance (v z1 z2 : spec_float) :
  Binary64.SF_finite v = true ->
  Binary64.SF_zero z1 = true -> Binary64.SF_zero z2 = true ->
  Binary64.SF_zero (SF64add (SFopp (SF64add v z1)) (SF64add z2 v)) = true /\
  Binary64.SF_zero (SF64add (SF64add v z1) (SFopp (SF64add z2 v))) = true.
Proof.
  destruct z1 as [s1|s1| |s1 m1 e1]; try discriminate.
  destruct z2 as [s2|s2| |s2 m2 e2]; try discriminate.
  destruct v as [s|s| |s m e]; try discriminate; intros _ _ _.
  - by destruct s, s1, s2.
  - cbn [SF64add SFadd SFopp].
    unfold SF64add, SFadd. rewrite Z.min_id. unfold shl_align. rewrite Z.sub_diag.
    cbn [fst].
    destruct s; cbn [negb cond_Zopp];
      rewrite ?Z.add_opp_diag_l, ?Z.add_opp_diag_r; split; reflexivity.
Qed.

(** What leaves one species at the rate [v] and arrives at the same rate
    cancels, whatever the zeros the other products of the sums are. *)
Lemma balance (v z1 z2 : float) :
  is_finite v = true ->
  PrimFloat.is_zero z1 = true -> PrimFloat.is_zero z2 = true ->
  PrimFloat.is_zero (- (v + z1) + (z2 + v)) = true /\
  PrimFloat.is_zero ((v + z1) + - (z2 + v)) = true.
Proof.
  rewrite Binary64.is_finite_SF, !Binary64.is_zero_SF.
  rewrite !FloatAxioms.add_spec, !FloatAxioms.opp_spec, !FloatAxioms.add_spec.
  apply SF_balance.
Qed.

Lemma parse_side_plain (side x : string) :
  Py.remove_spaces side = x -> plain x = true -> parse_side side = [[x]].
Proof.
  intros Hside Hx. rewrite <- parse_side_remove_spaces, Hside.
  unfold parse_side. rewrite split_no_sep.
  2:{ apply plain_not_in; [done|]. right. left. }
  cbn [fmap list_fmap]. rewrite (remove_spaces_plain x Hx).
  rewrite split_no_sep; [done|].
  apply plain_not_in; [done|]. right. right. left.
Qed.

(** What the parser makes of the equation [x -> y]. *)
Lemma parse_sides_plain (x y : string) :
  plain x = true -> plain y = true ->
  parse_sides (Py.join " " [x; "->"; y]%string) = Some ([[x]], [[y]]).
Proof.
  intros Hx Hy. unfold parse_sides.
  change (Py.join " " [x; "->"; y]%string)
    with (x +:+ String " " (String "-" (String ">" (String " " y)))).
  rewrite app_cons_string, split_str_arrow.
  2:{ rewrite chars_app. intros [Hin|Hin]%elem_of_app.
      - revert Hin. apply plain_not_in; [done|]. right. do 2 right. left.
      - apply list_elem_of_singleton in Hin. discriminate. }
  rewrite split_str_no_dash.
  2:{ cbn [list_ascii_of_string]. intros Hin.
      apply elem_of_cons in Hin as [?|Hin]; [done|].
      revert Hin. apply plain_not_in; [done|]. right. do 2 right. left. }
  rewrite (parse_side_plain (x +:+ " ") x), (parse_side_plain (String " " y) y);
    try done.
  - change (Py.remove_spaces (String " " y)) with (Py.remove_spaces y).
    by apply remove_spaces_plain.
  - rewrite remove_spaces_app, (remove_spaces_plain x Hx).
    change (Py.remove_spaces " ") with ""%string.
    clear. induction x as [|c x IH]; [done|].
    change (String c (x +:+ "") = String c x). by f_equal.
Qed.

Lemma plain_no_space (tok : string) :
  plain tok = true -> " "%char ∉ list_ascii_of_string tok.
Proof. intros Hp. apply plain_not_in; [done|by left]. Qed.

Section Reversible.

Variable power : float -> float -> float.
Hypothesis power_0 : forall y, power y 0 = 1.
Hypothesis power_1 : forall y, power y 1 = y.

(** X25.  For a dictionary of the single reversible equation [x <-> y]
    with the rate constants [k1] and [k2], the splitter, the parser and
    [compute_mass_action_rates] together give the rate
    [-(k1 * [x] + 0 * [y]) + (0 * [x] + k2 * [y])] for [x] and the
    opposite combination for [y]; where the two directions balance,
    [k1 * [x] = k2 * [y]], both rates are zero. *)
Theorem reversible_reaction_balance (sp : list string) (x y n1 n2 : string)
  (k1 k2 : float) (i j : nat) (c : list float) (ci cj : float) :
  plain x = true -> plain y = true ->
  x <> "0"%string -> y <> "0"%string -> n1 <> n2 ->
  Py.index x sp = Some i -> Py.index y sp = Some j -> i <> j ->
  length c = length sp -> c !! i = Some ci -> c !! j = Some cj ->
  exists processed r d,
    _process_reaction_dict
      [(Py.join " " [x; "<->"; y]%string, [(n1, k1); (n2, k2)])] = Some processed /\
    _parse_mass_action processed sp = Some (Populated r) /\
    compute_mass_action_rates power r c = Some d /\
    d !! i = Some (- (k1 * ci + 0 * cj) + (0 * ci + k2 * cj)) /\
    d !! j = Some ((k1 * ci + 0 * cj) + - (0 * ci + k2 * cj)) /\
    (is_finite ci = true -> is_finite cj = true ->
     is_finite (k1 * ci) = true -> k1 * ci = k2 * cj ->
     exists a b, d !! i = Some a /\ d !! j = Some b /\
       PrimFloat.is_zero a = true /\ PrimFloat.is_zero b = true).
Proof.
  intros Hx Hy Hx0 Hy0 Hn Hi Hj Hij Hc Hci Hcj.
  pose proof (lookup_lt_Some _ _ _ (index_Some_lookup _ _ _ Hi)) as Hilt.
  pose proof (lookup_lt_Some _ _ _ (index_Some_lookup _ _ _ Hj)) as Hjlt.
  set (reaction := Py.join " " [x; "<->"; y]%string).
  set (fwd := Py.join " " [x; "->"; y]%string).
  set (rev := Py.join " " [y; "->"; x]%string).
  assert (Forall (fun tok => " "%char ∉ list_ascii_of_string tok)
            [x; "<->"; y]%string) as Hns.
  { repeat constructor; try (by apply plain_no_space).
    cbn. intros Hsp.
    repeat (apply elem_of_cons in Hsp as [?|Hsp]; [done|]).
    by apply elem_of_nil in Hsp. }
  assert (Py.split " " reaction = [x; "<->"; y]%string) as Hsplit.
  { unfold reaction. by apply split_join. }
  assert (x <> "<->"%string) as Hxa by (by apply plain_not_arrow).
  assert (forward_equation reaction = fwd) as Hfwd.
  { unfold forward_equation, forward_tokens. rewrite Hsplit. cbn [replace_first].
    by destruct (String.eqb_spec x "<->"). }
  assert (reverse_equation reaction = rev) as Hrev.
  { unfold reverse_equation, forward_tokens. rewrite Hsplit. cbn [replace_first].
    by destruct (String.eqb_spec x "<->"). }
  assert (fwd <> rev) as Hfr.
  { unfold fwd, rev. intros Heq. apply (f_equal (Py.split " ")) in Heq.
    rewrite !split_join in Heq; try done.
    - injection Heq as Hxy _. subst y. congruence.
    - repeat constructor; try (by apply plain_no_space).
      cbn. intros Hsp.
      repeat (apply elem_of_cons in Hsp as [?|Hsp]; [done|]).
      by apply elem_of_nil in Hsp.
    - repeat constructor; try (by apply plain_no_space).
      cbn. intros Hsp.
      repeat (apply elem_of_cons in Hsp as [?|Hsp]; [done|]).
      by apply elem_of_nil in Hsp. }
  set (processed := [(fwd, [(n1, k1)]); (rev, [(n2, k2)])]).
  assert (_process_reaction_dict [(reaction, [(n1, k1); (n2, k2)])]
          = Some processed) as Hproc.
  { unfold _process_reaction_dict. cbn [process_reactions].
    rewrite process_reaction_reversible; try done.
    - cbn [mbind option_bind]. rewrite Hfwd, Hrev. cbn [Py.setitem].
      by destruct (String.eqb_spec fwd rev).
    - unfold reaction.
      change (Py.join " " [x; "<->"; y]%string)
        with (x +:+ String " " ("<->" +:+ String " " y)).
      apply contains_app_r. cbn [Py.contains]. rewrite !orb_true_iff. right.
      reflexivity.
    - rewrite Hsplit. right. left. }
  set (ei := <[i := 1]> (Np.zeros (length sp))).
  set (ej := <[j := 1]> (Np.zeros (length sp))).
  assert (length ei = length sp) as Hei.
  { unfold ei. by rewrite length_insert, zeros_length. }
  assert (length ej = length sp) as Hej.
  { unfold ej. by rewrite length_insert, zeros_length. }
  assert (forall a b u v,
            Py.index u sp = Some a -> Py.index v sp = Some b ->
            (a < length sp)%nat -> (b < length sp)%nat ->
            plain u = true -> plain v = true -> v <> "0"%string ->
            forall name k,
              parse_mass_action_reaction sp (Py.join " " [u; "->"; v]%string)
                [(name, k)]
              = Some (name, k, <[a := 1]> (Np.zeros (length sp)),
                      Np.subtract (<[b := 1]> (Np.zeros (length sp)))
                        (<[a := 1]> (Np.zeros (length sp))))) as Hrow.
  { intros a b u v Ha Hb Halt Hblt Hu Hv Hv0 name k.
    unfold parse_mass_action_reaction. cbn [head mbind option_bind].
    rewrite parse_sides_plain by done.
    cbn [mbind option_bind assign_terms no_term].
    rewrite (assign_term_eq sp _ [u] u 1 1 a) by (by rewrite ?zeros_length).
    cbn [mbind option_bind].
    replace (zero_term [v]) with false.
    2:{ symmetry. apply bool_decide_eq_false. congruence. }
    rewrite (assign_term_eq sp _ [v] v 1 1 b) by (by rewrite ?zeros_length).
    reflexivity. }
  set (r := {| ma_reactions := [fwd; rev];
               N := [Np.subtract ej ei; Np.subtract ei ej];
               A := [ei; ej]; rate_names := [n1; n2]; K := Np.diag [k1; k2] |}).
  assert (_parse_mass_action processed sp = Some (Populated r)) as Hparse.
  { unfold _parse_mass_action, processed. cbn [length]. case_decide; [done|].
    cbn [Py.keys fmap list_fmap fst mapM Py.getitem].
    rewrite !String.eqb_refl.
    destruct (String.eqb_spec fwd rev) as [?|_]; [done|].
    cbn [mbind option_bind]. unfold fwd at 1.
    rewrite (Hrow i j x y) by done. cbn [mbind option_bind]. unfold rev at 1.
    rewrite (Hrow j i y x) by done.
    cbn [mbind option_bind mret option_ret fmap option_fmap option_map list_fmap
         fst snd].
    unfold MassActionReactions_init.
    cbn [type_of types_all forallb pytype_eqb andb].
    rewrite vstack2_eq
      by (unfold Np.subtract;
          rewrite ?length_zip_with, ?length_insert, ?zeros_length; lia).
    cbn [mbind option_bind].
    rewrite vstack2_eq
      by (unfold Np.subtract;
          rewrite ?length_zip_with, ?length_insert, ?zeros_length; lia).
    reflexivity. }
  assert (ma_shaped r (length c)) as Hshape.
  { rewrite Hc. split; cbn [A N K r]; try done.
    - by repeat constructor.
    - repeat constructor; unfold Np.subtract; rewrite length_zip_with; lia.
    - by repeat constructor. }
  destruct (mass_action_entries power r c Hshape) as (d & Hd & Hlen & Hentries).
  assert (forall l a1 a2, (l < length c)%nat ->
            Np.subtract ej ei !! l = Some a1 -> Np.subtract ei ej !! l = Some a2 ->
            d !! l = Some (a1 * (k1 * ci + 0 * cj) + a2 * (0 * ci + k2 * cj)))
    as Hl.
  { intros l a1 a2 Hlt H1 H2. rewrite (Hentries l Hlt). f_equal.
    change (Np.inner _ _)
      with (nth l (Np.subtract ej ei) 0
              * (k1 * mass_action_product power c ei
                 + 0 * mass_action_product power c ej)
            + nth l (Np.subtract ei ej) 0
              * (0 * mass_action_product power c ei
                 + k2 * mass_action_product power c ej)).
    unfold ei at 2 4, ej at 2 4.
    rewrite (product_one_order power power_0 c (length sp) i ci) by done.
    rewrite (product_one_order power power_0 c (length sp) j cj) by done.
    rewrite !power_1.
    by rewrite (nth_lookup_Some _ _ _ _ H1), (nth_lookup_Some _ _ _ _ H2). }
  assert (ei !! i = Some 1 /\ ei !! j = Some 0 /\ ej !! i = Some 0 /\ ej !! j = Some 1)
    as (Hii & Hij' & Hji & Hjj).
  { unfold ei, ej. repeat split.
    - apply list_lookup_insert_eq. by rewrite zeros_length.
    - rewrite (list_lookup_insert_ne _ i j) by done. by apply zeros_lookup.
    - rewrite (list_lookup_insert_ne _ j i) by done. by apply zeros_lookup.
    - apply list_lookup_insert_eq. by rewrite zeros_length. }
  assert (d !! i = Some (- (k1 * ci + 0 * cj) + (0 * ci + k2 * cj))) as Hdi.
  { rewrite (Hl i (-1) 1); [|lia| |].
    - by rewrite minus_one_mul, one_mul.
    - unfold Np.subtract. by rewrite lookup_zip_with, Hji, Hii.
    - unfold Np.subtract. by rewrite lookup_zip_with, Hji, Hii. }
  assert (d !! j = Some ((k1 * ci + 0 * cj) + - (0 * ci + k2 * cj))) as Hdj.
  { rewrite (Hl j 1 (-1)); [|lia| |].
    - by rewrite minus_one_mul, one_mul.
    - unfold Np.subtract. by rewrite lookup_zip_with, Hjj, Hij'.
    - unfold Np.subtract. by rewrite lookup_zip_with, Hjj, Hij'. }
  exists processed, r, d. repeat (split; [done|]).
  intros Hfi Hfj Hfv Hbal. rewrite Hdi, Hdj. do 2 eexists.
  split; [done|]. split; [done|]. rewrite <- Hbal.
  apply balance; [done| |]; by apply Binary64.zero_mul_finite.
Qed.

End Reversible.

Lemma reversible_reaction_balance_witness :
  exists processed r d,
    _process_reaction_dict
      [("A <-> B"%string, [("k1"%string, 2); ("k2"%string, 3)])] = Some processed /\
    _parse_mass_action processed ["A"; "B"]%string = Some (Populated r) /\
    compute_mass_action_rates pow_01 r [3; 2] = Some d /\
    d !! 0%nat = Some (- (2 * 3 + 0 * 2) + (0 * 3 + 3 * 2)) /\
    d !! 1%nat = Some ((2 * 3 + 0 * 2) + - (0 * 3 + 3 * 2)) /\
    (is_finite 3 = true -> is_finite 2 = true ->
     is_finite (2 * 3) = true -> 2 * 3 = 3 * 2 ->
     exists a b, d !! 0%nat = Some a /\ d !! 1%nat = Some b /\
       PrimFloat.is_zero a = true /\ PrimFloat.is_zero b = true).
Proof.
  apply (reversible_reaction_balance pow_01 pow_01_zero pow_01_one
           ["A"; "B"]%string "A" "B" "k1" "k2" 2 3 0 1 [3; 2] 3 2);
    try reflexivity; discriminate.
Defined.

(** ** Updating and rebuilding *)

Lemma diag_setitem (ks : list float) (i : nat) (v : float) :
  (i < length ks)%nat ->
  setitem2 (Np.diag ks) i i v = Some (Np.diag (<[i := v]> ks)).
Proof.
  intros Hi. destruct (lookup_lt_is_Some_2 ks i Hi) as [k Hk].
  destruct (diag_shape ks) as (Hlen & _ & Hrow).
  destruct (diag_shape (<[i := v]> ks)) as (Hlen' & _ & Hrow').
  rewrite length_insert in Hlen', Hrow'.
  unfold setitem2. rewrite (Hrow i k Hk). cbn [mbind option_bind].
  unfold setitem. rewrite length_insert, zeros_length.
  destruct (decide (i < length ks)%nat) as [_|?]; [|done].
  cbn [mbind option_bind]. f_equal. rewrite list_insert_insert_eq.
  apply list_eq. intros l. destruct (decide (l = i)) as [->|Hne].
  - rewrite list_lookup_insert_eq by lia.
    symmetry. apply Hrow'. by apply list_lookup_insert_eq.
  - rewrite (list_lookup_insert_ne _ i l) by done.
    destruct (ks !! l) as [k'|] eqn:Hl.
    + rewrite (Hrow l k' Hl). symmetry. apply Hrow'.
      by rewrite (list_lookup_insert_ne _ i l).
    + apply lookup_ge_None in Hl.
      rewrite !(proj2 (lookup_ge_None _ _)); [done|lia|lia].
Qed.

(** X26.  Updating a rate constant through its setter leaves a mass-action
    set whose rate matrix is again the diagonal matrix of the rate
    constants, with what the element type of [K] makes of the new value
    (the value itself when [K] is [float64], its integer part when [K] is
    [int64]) in place of the old rate constant: the setter writes the
    diagonal entry of [K] and nothing else, the equations, [N], [A] and
    the rate names being those the constructor was given. *)
Theorem updated_rate_constant_as_rebuilt (ty : Typed.dtypes)
  (self : ChemicalReactionNetwork)
  (rs rn : list string) (a n : list (list float)) (ks : list float)
  (r : MassActionReactions) (i : nat) (v stored : float) :
  MassActionReactions_init (PyList rs) (PyList a) (PyList n) (PyList rn) (PyList ks)
  = Some (Populated r) ->
  self.(mass_action_reactions) = Populated r ->
  (i < length ks)%nat ->
  Typed.cast ty.(Typed.K_dtype) v = Some stored ->
  exists self' r',
    Typed.update ty self (i, T_rate_constant) v = Some self' /\
    self'.(mass_action_reactions) = Populated r' /\
    r'.(K) = Np.diag (<[i := stored]> ks) /\
    r'.(N) = n /\ r'.(A) = a /\
    r'.(rate_names) = rn /\ r'.(ma_reactions) = rs.
Proof.
  intros Hinit Hma Hi Hcast.
  assert (r.(ma_reactions) = rs /\ r.(rate_names) = rn) as [Hrs Hrn].
  { unfold MassActionReactions_init in Hinit.
    cbn [type_of types_all forallb pytype_eqb andb] in Hinit.
    destruct (Np.vstack n) as [n'|]; [|done]. cbn [mbind option_bind] in Hinit.
    destruct (Np.vstack a) as [a'|]; [|done]. cbn [mbind option_bind] in Hinit.
    by injection Hinit as <-. }
  destruct (init_populated _ _ _ _ _ _ Hinit) as (HA & HN & HK & _).
  unfold Typed.update. cbn [snd Typed.dtype_of]. rewrite Hcast.
  cbn [mbind option_bind]. unfold update. rewrite Hma, HK.
  rewrite diag_setitem by done. cbn [mbind option_bind].
  do 2 eexists. split; [done|]. split; [done|]. by cbn [with_K K N A rate_names ma_reactions].
Qed.

Lemma updated_rate_constant_as_rebuilt_witness :
  let ty := {| Typed.K_dtype := Typed.int64; Typed.Kms_dtype := Typed.float64;
               Typed.kcats_dtype := Typed.float64;
               Typed.initial_concentrations_dtype := Typed.float64 |} in
  let self := {|
    species := ["A"; "B"]%string;
    mass_action_reactions := Populated a_to_b;
    michaelis_menten_reactions := Dummy;
    time := [0; 1];
    initial_concentrations := [3; 5];
    update_dictionary := ∅;
    concentrations := None |} in
  Typed.cast Typed.int64 7.5 = Some 7 /\
  exists self' r',
    Typed.update ty self (0%nat, T_rate_constant) 7.5 = Some self' /\
    self'.(mass_action_reactions) = Populated r' /\
    r'.(K) = Np.diag (<[0%nat := 7]> [2]) /\
    r'.(N) = [[-1; 1]] /\ r'.(A) = [[1; 0]] /\
    r'.(rate_names) = ["k"%string] /\ r'.(ma_reactions) = ["A -> B"%string].
Proof.
  intros ty self. split; [reflexivity|].
  apply (updated_rate_constant_as_rebuilt ty self ["A -> B"%string] ["k"%string]
           [[1; 0]] [[-1; 1]] [2] a_to_b 0 7.5 7); try reflexivity.
  cbn. lia.
Defined.
